(** * llama_index.core: async job batching and instrumentation dispatch

  A shallow embedding of two vendored modules,

  - [llama_index/core/async_utils.py]: [asyncio_run], [run_async_tasks],
    [chunks], [batch_gather], [run_jobs];
  - [llama_index/core/instrumentation/dispatcher.py]: [Dispatcher] and
    [Manager],

  together with the part of the Python runtime they lean on
  ([itertools.zip_longest], [asyncio.gather], [asyncio.Semaphore],
  [asyncio.run], [contextvars.ContextVar]), and of [run_jobs] as its two
  [@dispatcher.span] decorators make it (module [Traced]).  Definitions
  come first, one module per Python module; the properties follow. *)

From Stdlib Require Import ZArith List String Bool Lia.
From stdpp Require Import base option list gmap strings.

Local Open Scope string_scope.
Local Open Scope list_scope.

(** ** Python values shared by both modules *)
Module Py.

(** The exception classes that occur; [Exception] stands for whatever a
    job, a wrapped operation or a handler raises on its own. *)
Inductive Exn : Type :=
| TypeError (msg : string)
| ValueError (msg : string)
| KeyError (key : string)
| AttributeError (msg : string)
| InvalidStateError (msg : string)
| OverflowError (msg : string)
| MemoryError
| Exception (cls msg : string).

(** [repr(s)] of a [str].  A character of the embedding is a code point
    below 256.  CPython's [unicode_repr] takes the double quote when the
    string has single quotes and no double quote, and the single quote
    otherwise; it puts a backslash before the quote it took and before a
    backslash, writes tab, line feed and carriage return as [\t], [\n],
    [\r], every other code point that is not printable as [\x] and two
    lower-case hex digits, and copies the rest. *)
Definition squote : Ascii.ascii := Ascii.ascii_of_nat 39.
Definition dquote : Ascii.ascii := Ascii.ascii_of_nat 34.
Definition backslash : Ascii.ascii := Ascii.ascii_of_nat 92.

Definition hexdigit (n : nat) : Ascii.ascii :=
  Ascii.ascii_of_nat (if (n <? 10)%nat then 48 + n else 87 + n).

(** [Py_UNICODE_ISPRINTABLE] below 256: not the control characters, not
    the no-break space (0xa0), not the soft hyphen (0xad). *)
Definition isprintable (c : Ascii.ascii) : bool :=
  let n := Ascii.nat_of_ascii c in
  ((32 <=? n) && (n <=? 126) || (161 <=? n) && (n <=? 172) || (174 <=? n))%nat.

Definition repr_char (quote c : Ascii.ascii) : string :=
  let n := Ascii.nat_of_ascii c in
  if (Ascii.eqb c quote || Ascii.eqb c backslash)%bool then
    String backslash (String c EmptyString)
  else if (n =? 9)%nat then String backslash "t"
  else if (n =? 10)%nat then String backslash "n"
  else if (n =? 13)%nat then String backslash "r"
  else if isprintable c then String c EmptyString
  else String backslash
         (String (Ascii.ascii_of_nat 120) (String (hexdigit (n / 16)) (String (hexdigit (n mod 16))
                                                        EmptyString))).

Fixpoint has_char (c : Ascii.ascii) (s : string) : bool :=
  match s with
  | EmptyString => false
  | String c' s' => (Ascii.eqb c c' || has_char c s')%bool
  end.

Fixpoint repr_body (quote : Ascii.ascii) (s : string) : string :=
  match s with
  | EmptyString => EmptyString
  | String c s' => (repr_char quote c ++ repr_body quote s')%string
  end.

Definition repr (s : string) : string :=
  let quote := if (has_char squote s && negb (has_char dquote s))%bool
               then dquote else squote in
  String quote (repr_body quote s ++ String quote EmptyString)%string.

(** [str(e)]: the message; for a [KeyError], the [repr] of the key. *)
Definition str (e : Exn) : string :=
  match e with
  | TypeError msg | ValueError msg | AttributeError msg
  | InvalidStateError msg | OverflowError msg | Exception _ msg => msg
  | KeyError key => repr key
  | MemoryError => EmptyString
  end.

(** The index range of this CPython (a 64-bit build): [Py_ssize_t]. *)
Definition PY_SSIZE_T_MAX : Z := 9223372036854775807%Z.
Definition PY_SSIZE_T_MIN : Z := (- PY_SSIZE_T_MAX - 1)%Z.

(** The most items a list can have: its array of 8-byte pointers is
    itself no larger than [PY_SSIZE_T_MAX] bytes. *)
Definition PY_LIST_MAX : Z := Eval cbv in (PY_SSIZE_T_MAX / 8)%Z.

(** How a call ends: [return a] or [raise e]. *)
Inductive Result (A : Type) : Type :=
| Return (a : A)
| Raise (e : Exn).
Arguments Return {A} a.
Arguments Raise {A} e.

Definition is_return {A} (r : Result A) : bool :=
  match r with Return _ => true | Raise _ => false end.

End Py.
Import Py.

(** ** async_utils.py *)
Module AsyncUtils.
Section Defs.

(** [T], the result type of a job ([Coroutine[Any, Any, T]]). *)
Context {T : Type}.

(** *** [itertools.zip_longest] over one shared iterator

    [chunks] builds [args = [iter(iterable)] * size]: [size] references to
    ONE iterator object.  [zip_longest] keeps a list of iterators and, when
    one raises [StopIteration], replaces that entry by
    [repeat(fillvalue)].  A slot is therefore either still the shared
    iterator or a filler; the shared iterator itself is the list of items
    it has not produced yet. *)
Section ZipLongest.
Context {A : Type}.

Inductive Slot : Type := Shared | Filler.

(** One pass of [for i, iterator in enumerate(iterators)].  [None] is the
    generator's [return] (reached when [num_active] drops to zero);
    otherwise the values of the tuple, the updated slots, what is left
    of the shared iterator and the updated [num_active]. *)
Fixpoint zip_round (iterators : list Slot) (it : list A) (num_active : nat)
  : option (list (option A) * list Slot * list A * nat) :=
  match iterators with
  | [] => Some ([], [], it, num_active)
  | Filler :: rest =>
      (* next(repeat(fillvalue)) *)
      match zip_round rest it num_active with
      | Some (values, rest', it', n') =>
          Some (None :: values, Filler :: rest', it', n')
      | None => None
      end
  | Shared :: rest =>
      match it with
      | value :: it1 =>
          match zip_round rest it1 num_active with
          | Some (values, rest', it', n') =>
              Some (Some value :: values, Shared :: rest', it', n')
          | None => None
          end
      | [] =>
          (* except StopIteration: num_active -= 1 *)
          match Nat.pred num_active with
          | O => None                       (* if not num_active: return *)
          | S _ as n =>
              match zip_round rest [] n with
              | Some (values, rest', it', n') =>
                  Some (None :: values, Filler :: rest', it', n')
              | None => None
              end
          end
      end
  end.

(** [while True: ... yield tuple(values)], the tuples in the order they
    are yielded.  Every yielding pass consumes an item, so
    [S (length it)] passes always reach the [return]. *)
Fixpoint zip_longest_loop (fuel : nat) (iterators : list Slot)
         (it : list A) (num_active : nat) : list (list (option A)) :=
  match fuel with
  | O => []
  | S fuel' =>
      match zip_round iterators it num_active with
      | None => []
      | Some (values, iterators', it', n') =>
          values :: zip_longest_loop fuel' iterators' it' n'
      end
  end.

(** [def chunks(iterable, size)].  The list repetition
    [[iter(iterable)] * size] takes [size] as an index: outside the range
    of [Py_ssize_t] it raises [OverflowError]; a list multiplied by a
    non-positive integer is empty, and [zip_longest()] of no iterables
    yields nothing; a list of more than [PY_LIST_MAX] items is refused
    with [MemoryError] before any memory is asked for.  An allocation
    that is attempted is taken to succeed, as for every other object. *)
Definition chunks (iterable : list A) (size : Z)
  : Result (list (list (option A))) :=
  if ((size <? PY_SSIZE_T_MIN) || (PY_SSIZE_T_MAX <? size))%Z then
    Raise (OverflowError "cannot fit 'int' into an index-sized integer")
  else if (PY_LIST_MAX <? size)%Z then Raise MemoryError
  else
    let args := repeat Shared (Z.to_nat size) in
    let num_active := length args in
    Return match num_active with
           | O => []                         (* if not num_active: return *)
           | S _ => zip_longest_loop (S (length iterable)) args iterable num_active
           end.
End ZipLongest.

(** *** Jobs, tasks and the event loop *)

(** A job is a coroutine that suspends [suspensions] times (its own
    [await] points) and then finishes the way [outcome] says.  Jobs do not
    communicate, so the outcome does not depend on the interleaving. *)
Record Job : Type := { suspensions : nat; outcome : Result T }.

(** What [asyncio.gather] may be handed in this module: a job itself
    ([batch_gather]) or [worker(job)], the closure of [run_jobs] that
    wraps the job in [async with semaphore]. *)
Inductive Coroutine : Type :=
| JobCoro (job : Job)
| WorkerCoro (job : Job).

(** A task of the event loop.  [Blocked]: a worker that has not passed
    [async with semaphore] yet.  [Running permit k job]: inside
    [await job], [k] suspensions to go, holding a permit or not.
    [Done r]: the task's future is resolved. *)
Inductive Task : Type :=
| Blocked (job : Job)
| Running (permit : bool) (k : nat) (job : Job)
| Done (r : Result T).

(** The future [gather] returns. *)
Inductive Outer : Type :=
| Pending
| Returned (results : list (Result T))
| Raised (e : Exn).

(** The state one [await asyncio.gather(...)] lives in: the semaphore's
    [_value], gather's [children] with their task states, and gather's
    closure variables [nfinished] and [outer]. *)
Record Loop : Type := {
  sem_value : Z;
  children : list Task;
  nfinished : nat;
  outer : Outer
}.

(** [asyncio.ensure_future(arg)]; an argument is [None] or a coroutine. *)
Definition ensure_future (arg : option Coroutine) : Result Task :=
  match arg with
  | None =>
      Raise (TypeError "An asyncio.Future, a coroutine or an awaitable is required")
  | Some (JobCoro job) => Return (Running false (suspensions job) job)
  | Some (WorkerCoro job) => Return (Blocked job)
  end.

(** The [for arg in coros_or_futures] loop of [gather]: tasks are created
    left to right until an argument is refused. *)
Fixpoint ensure_futures (args : list (option Coroutine))
  : list Task * option Exn :=
  match args with
  | [] => ([], None)
  | arg :: rest =>
      match ensure_future arg with
      | Raise e => ([], Some e)
      | Return t =>
          let '(ts, err) := ensure_futures rest in (t :: ts, err)
      end
  end.

(** [asyncio.gather] on its arguments up to the point where it returns [outer]:
    with no arguments [outer] is resolved with [[]] at once. *)
Definition gather (semaphore : Z) (args : list (option Coroutine))
  : list Task * Result Loop :=
  match ensure_futures args with
  | (ts, Some e) => (ts, Raise e)
  | (ts, None) =>
      (ts, Return {| sem_value := semaphore;
                     children := ts;
                     nfinished := 0;
                     outer := match ts with
                              | [] => Returned []
                              | _ :: _ => Pending
                              end |})
  end.

(** [fut.exception()] / [fut.result()] of a child, as gather's final loop
    reads them. *)
Definition fut_result (t : Task) : Result T :=
  match t with
  | Done r => r
  | _ => Raise (InvalidStateError "Result is not set.")
  end.

(** [_done_callback(fut)] of [gather] with [return_exceptions=False];
    [l] already holds the finished child. *)
Definition done_callback (l : Loop) (r : Result T) : Loop :=
  let n := S (nfinished l) in
  match outer l with
  | Pending =>
      match r with
      | Raise exc =>
          (* outer.set_exception(exc) *)
          {| sem_value := sem_value l; children := children l;
             nfinished := n; outer := Raised exc |}
      | Return _ =>
          if Nat.eqb n (length (children l)) then
            (* outer.set_result(results) *)
            {| sem_value := sem_value l; children := children l;
               nfinished := n;
               outer := Returned (map fut_result (children l)) |}
          else
            {| sem_value := sem_value l; children := children l;
               nfinished := n; outer := Pending |}
      end
  | _ =>
      (* if outer is None or outer.done(): ... return *)
      {| sem_value := sem_value l; children := children l;
         nfinished := n; outer := outer l |}
  end.

(** One resumption of child [i] by the event loop, taken together with
    the call of [_done_callback] it leads to when the job comes to its
    end; [None] when the child cannot run (it is finished, or it waits
    for a permit and [semaphore.locked()]).  The loop itself gives the
    callback a turn of its own, after the resumption; [turn] below
    follows the loop turn by turn, and [step] is what [turn] comes to
    once the callbacks that wait have run. *)
Definition step (l : Loop) (i : nat) : option Loop :=
  match children l !! i with
  | None => None
  | Some (Done _) => None
  | Some (Blocked job) =>
      (* async with semaphore: acquire() *)
      if (0 <? sem_value l)%Z then
        Some {| sem_value := (sem_value l - 1)%Z;
                children := <[i := Running true (suspensions job) job]> (children l);
                nfinished := nfinished l; outer := outer l |}
      else None
  | Some (Running permit (S k) job) =>
      Some {| sem_value := sem_value l;
              children := <[i := Running permit k job]> (children l);
              nfinished := nfinished l; outer := outer l |}
  | Some (Running permit O job) =>
      (* the job returns or raises; __aexit__ releases the permit either way *)
      Some (done_callback
              {| sem_value := if permit then (sem_value l + 1)%Z else sem_value l;
                 children := <[i := Done (outcome job)]> (children l);
                 nfinished := nfinished l; outer := outer l |}
              (outcome job))
  end.

(** The loop follows a schedule: the indices of the children it resumes,
    in order.  An index that cannot run is skipped. *)
Fixpoint exec (sched : list nat) (l : Loop) : Loop :=
  match sched with
  | [] => l
  | i :: sched' => exec sched' (default l (step l i))
  end.

(** *** [batch_gather] *)

(** The [for task_chunk in chunks(tasks, batch_size)] loop.  [scheds]
    gives the loop's schedule while each chunk is awaited; [output] is
    the accumulator and [started] the coroutines handed to the loop so
    far.  [Pending] means the schedule ended before the awaited chunk. *)
Fixpoint batch_gather_loop (task_chunks : list (list (option Coroutine)))
         (scheds : list (list nat)) (output : list (Result T))
         (started : list Task) : Outer * list Task :=
  match task_chunks with
  | [] => (Returned output, started)
  | task_chunk :: rest =>
      match gather 0%Z task_chunk with
      | (ts, Raise e) => (Raised e, started ++ ts)
      | (ts, Return l) =>
          let l' := exec (hd [] scheds) l in
          match outer l' with
          | Pending => (Pending, started ++ children l')
          | Raised e => (Raised e, started ++ children l')
          | Returned output_chunk =>
              batch_gather_loop rest (tl scheds) (output ++ output_chunk)
                                (started ++ children l')
          end
      end
  end.

(** [batch_gather(tasks, batch_size)]; [verbose] only prints a progress
    line.  The result is what the awaiting caller has seen, with the tasks
    that were handed to the loop. *)
Definition batch_gather (tasks : list Job) (batch_size : Z)
           (scheds : list (list nat)) : Outer * list Task :=
  match chunks (map JobCoro tasks) batch_size with
  | Raise e => (Raised e, [])
  | Return task_chunks => batch_gather_loop task_chunks scheds [] []
  end.

(** *** [run_jobs] *)

Definition DEFAULT_NUM_WORKERS : Z := 4%Z.

(** [asyncio.Semaphore(value)] *)
Definition Semaphore (value : Z) : Result Z :=
  if (value <? 0)%Z then Raise (ValueError "Semaphore initial value must be >= 0")
  else Return value.

Definition worker (job : Job) : Coroutine := WorkerCoro job.

(** [run_jobs(jobs, show_progress=False, workers)] under a schedule: the
    loop state when the schedule ends, or the exception raised before
    anything was submitted.  The two [@dispatcher.span] decorators only
    tell handlers about the calls and pass results and exceptions through
    (module [Dispatcher] below); with [show_progress] the gathering is
    tqdm's, which is not modelled. *)
Definition run_jobs (jobs : list Job) (workers : Z) (sched : list nat)
  : Result Loop :=
  match Semaphore workers with
  | Raise e => Raise e
  | Return semaphore =>
      let pool_jobs := map worker jobs in
      match gather semaphore (map Some pool_jobs) with
      | (_, Raise e) => Raise e
      | (_, Return l) => Return (exec sched l)
      end
  end.

(** What the caller of [await run_jobs(...)] has seen so far. *)
Definition awaited (r : Result Loop) : Outer :=
  match r with
  | Raise e => Raised e
  | Return l => outer l
  end.

(** *** The turns of the event loop

    When a task's coroutine returns or raises, [Task.__step] resolves the
    task's future, and the future hands each of its done-callbacks to
    [loop.call_soon]: [_done_callback] of [gather] runs in a later turn of
    the loop, after what was queued before it.  When [_done_callback]
    resolves [outer], [outer] hands the wake-up of the coroutine that
    awaits it to [loop.call_soon] in the same way. *)

(** One resumption of child [i], as [Task.__step] makes it: the state it
    leaves, and the outcome of the future it has resolved, if any, whose
    [_done_callback] is now queued. *)
Definition resume_task (l : Loop) (i : nat) : option (Loop * option (Result T)) :=
  match children l !! i with
  | None => None
  | Some (Done _) => None
  | Some (Blocked job) =>
      if (0 <? sem_value l)%Z then
        Some ({| sem_value := (sem_value l - 1)%Z;
                 children := <[i := Running true (suspensions job) job]> (children l);
                 nfinished := nfinished l; outer := outer l |}, None)
      else None
  | Some (Running permit (S k) job) =>
      Some ({| sem_value := sem_value l;
               children := <[i := Running permit k job]> (children l);
               nfinished := nfinished l; outer := outer l |}, None)
  | Some (Running permit O job) =>
      Some ({| sem_value := if permit then (sem_value l + 1)%Z else sem_value l;
               children := <[i := Done (outcome job)]> (children l);
               nfinished := nfinished l; outer := outer l |},
            Some (outcome job))
  end.

(** A turn of the loop: it resumes child [i], it runs the done-callback
    that has waited longest, or it resumes the coroutine that awaits
    [outer]. *)
Inductive Turn : Type :=
| Resume (i : nat)
| Callback
| Wake.

(** [now]: the semaphore, the children and gather's closure variables;
    [callbacks]: the resolved futures whose [_done_callback] waits in the
    loop's queue, oldest first, each given by its outcome; [delivered]:
    what the coroutine that awaits [outer] has got from it. *)
Record Ready : Type := {
  now : Loop;
  callbacks : list (Result T);
  delivered : Outer
}.

(** A turn that has nothing to run is skipped: a child that cannot run,
    no callback queued, [outer] not resolved or its result already
    taken. *)
Definition turn (s : Ready) (t : Turn) : Ready :=
  match t with
  | Resume i =>
      match resume_task (now s) i with
      | None => s
      | Some (l, None) =>
          {| now := l; callbacks := callbacks s; delivered := delivered s |}
      | Some (l, Some r) =>
          (* loop.call_soon(_done_callback, fut) *)
          {| now := l; callbacks := callbacks s ++ [r]; delivered := delivered s |}
      end
  | Callback =>
      match callbacks s with
      | [] => s
      | r :: rest =>
          {| now := done_callback (now s) r; callbacks := rest;
             delivered := delivered s |}
      end
  | Wake =>
      match delivered s with
      | Pending =>
          {| now := now s; callbacks := callbacks s; delivered := outer (now s) |}
      | _ => s
      end
  end.

Definition turns (ts : list Turn) (s : Ready) : Ready := fold_left turn ts s.

(** [await asyncio.gather(...)]: a future that is resolved already gives
    its result without a turn of the loop. *)
Definition await_outer (l : Loop) : Ready :=
  {| now := l; callbacks := []; delivered := outer l |}.

(** [run_jobs(jobs, show_progress=False, workers)], turn by turn. *)
Definition run_jobs_turns (jobs : list Job) (workers : Z) (ts : list Turn)
  : Result Ready :=
  match Semaphore workers with
  | Raise e => Raise e
  | Return semaphore =>
      let pool_jobs := map worker jobs in
      match gather semaphore (map Some pool_jobs) with
      | (_, Raise e) => Raise e
      | (_, Return l) => Return (turns ts (await_outer l))
      end
  end.

(** *** [asyncio_run] and [run_async_tasks] *)

(** How running a coroutine to its end comes out: it does not come to an
    end, it returns, or it raises. *)
Inductive Completion (A : Type) : Type :=
| Unfinished
| Finished (a : A)
| Exc (e : Exn).
Arguments Unfinished {A}.
Arguments Finished {A} a.
Arguments Exc {A} e.

(** The event loop [asyncio.get_running_loop()] finds in the current
    thread, if there is one, with what its [is_running()] answers. *)
Record EventLoop : Type := { loop_is_running : bool }.

(** [asyncio.get_running_loop()] *)
Definition get_running_loop (env : option EventLoop) : Result EventLoop :=
  match env with
  | Some loop => Return loop
  | None => Raise (Exception "RuntimeError" "no running event loop")
  end.

(** [loop.run_until_complete(coro)] *)
Definition run_until_complete {A : Type} (loop : EventLoop) (coro : Completion A)
  : Completion A :=
  if loop_is_running loop then
    Exc (Exception "RuntimeError" "This event loop is already running")
  else coro.

(** [asyncio.run(coro)] (the library's own; [nest_asyncio] is not applied) *)
Definition asyncio_dot_run {A : Type} (env : option EventLoop) (coro : Completion A)
  : Completion A :=
  match env with
  | Some _ =>
      Exc (Exception "RuntimeError"
             "asyncio.run() cannot be called from a running event loop")
  | None => coro
  end.

Definition nested_async_detected : string :=
  "Nested async detected. Use async functions where possible (`aquery`, `aretrieve`, `arun`, etc.). Otherwise, use `import nest_asyncio; nest_asyncio.apply()` to enable nested async or use in a jupyter notebook.

If you are experiencing while using async functions and not in a notebook, please raise an issue on github, as it indicates a bad design pattern.".

(** [isinstance(e, RuntimeError)]: the class hierarchy is the caller's. *)
Context (isinstance_RuntimeError : Exn -> bool).

(** [def asyncio_run(coro)]; [coro] is given by how running it comes out. *)
Definition asyncio_run {A : Type} (env : option EventLoop) (coro : Completion A)
  : Completion A :=
  let tried :=
    match get_running_loop env with
    | Raise e => Exc e
    | Return loop =>
        if loop_is_running loop then
          Exc (Exception "RuntimeError" nested_async_detected)
        else run_until_complete loop coro
    end in
  match tried with
  | Exc e =>
      (* except RuntimeError: return asyncio.run(coro) *)
      if isinstance_RuntimeError e then asyncio_dot_run env coro else Exc e
  | Unfinished => Unfinished
  | Finished a => Finished a
  end.

(** What [await asyncio.gather(...)] gives the coroutine that awaits it. *)
Definition of_outer (o : Outer) : Completion (list (Result T)) :=
  match o with
  | Pending => Unfinished
  | Returned results => Finished results
  | Raised e => Exc e
  end.

(** [run_async_tasks(tasks, show_progress=False)]: [_gather()] handed to
    [asyncio_run]; [sched] is the schedule of the loop that runs it.  The
    [show_progress] branch goes through tqdm and nest_asyncio and is not
    modelled. *)
Definition run_async_tasks (tasks : list Job) (env : option EventLoop)
           (sched : list nat) : Completion (list (Result T)) :=
  let _gather :=
    match gather 0%Z (map Some (map JobCoro tasks)) with
    | (_, Raise e) => Exc e
    | (_, Return l) => of_outer (outer (exec sched l))
    end in
  asyncio_run env _gather.

(** Observers used by the properties. *)
Definition holds_permit (t : Task) : bool :=
  match t with Running true _ _ => true | _ => false end.
Definition is_done (t : Task) : bool :=
  match t with Done _ => true | _ => false end.
Definition is_blocked (t : Task) : bool :=
  match t with Blocked _ => true | _ => false end.

Fixpoint count (p : Task -> bool) (ts : list Task) : nat :=
  match ts with
  | [] => 0
  | t :: rest => (if p t then 1 else 0) + count p rest
  end.

(** Number of jobs in their running phase (permit held). *)
Definition running (l : Loop) : nat := count holds_permit (children l).

Definition all_done (l : Loop) : bool := forallb is_done (children l).

(** Resumptions a task still needs before its future is resolved. *)
Definition work (t : Task) : nat :=
  match t with
  | Blocked job => S (S (suspensions job))
  | Running _ k _ => S k
  | Done _ => 0
  end.

Fixpoint total_work (ts : list Task) : nat :=
  match ts with
  | [] => 0
  | t :: rest => work t + total_work rest
  end.

(** *** Vocabulary of the properties *)

(** Chunking in words: groups of [n] consecutive items, the last group
    possibly shorter ([groups]); and the same with the last group filled
    up with [None] ([padded_chunks]). *)
Fixpoint groups {A : Type} (fuel n : nat) (l : list A) : list (list A) :=
  match fuel, l with
  | _, [] => []
  | O, _ :: _ => []
  | S fuel', _ :: _ => firstn n l :: groups fuel' n (skipn n l)
  end.

Fixpoint padded_chunks {A : Type} (fuel n : nat) (l : list A)
  : list (list (option A)) :=
  match fuel, l with
  | _, [] => []
  | O, _ :: _ => []
  | S fuel', _ :: _ =>
      (map Some (firstn n l) ++ repeat None (n - length l))
        :: padded_chunks fuel' n (skipn n l)
  end.

Definition is_running (t : Task) : bool :=
  match t with Running _ _ _ => true | _ => false end.

(** The schedule that resumes children [0 .. n-1] in turn, [passes] times
    over. *)
Definition round_robin (n passes : nat) : list nat :=
  concat (repeat (seq 0 n) passes).

(** A job that raises. *)
Definition fails (job : Job) : Prop := is_return (outcome job) = false.

(** [run_jobs] before the loop resumes anything. *)
Definition submitted (jobs : list Job) (W : Z) : Loop :=
  {| sem_value := W; children := map Blocked jobs; nfinished := 0;
     outer := match jobs with [] => Returned [] | _ :: _ => Pending end |}.

(** [batch_gather] on one chunk of jobs before the loop resumes anything. *)
Definition job_task (job : Job) : Task := Running false (suspensions job) job.

Definition gathered (jobs : list Job) : Loop :=
  {| sem_value := 0; children := map job_task jobs; nfinished := 0;
     outer := match jobs with [] => Returned [] | _ :: _ => Pending end |}.

(** Child [i] belongs to job [i]: it waits for it, runs it, or holds its
    outcome. *)
Definition tracks (job : Job) (t : Task) : Prop :=
  match t with
  | Blocked job' => job' = job
  | Running _ _ job' => job' = job
  | Done r => r = outcome job
  end.

(** A job that returns. *)
Definition succeeds (job : Job) : Prop := is_return (outcome job) = true.

(** A group of jobs as [batch_gather] hands it to [asyncio.gather]. *)
Definition as_chunk (g : list Job) : list (option Coroutine) :=
  map Some (map JobCoro g).

(** No child runs a worker's job without a permit. *)
Definition permitted (t : Task) : bool :=
  match t with Running false _ _ => false | _ => true end.

Definition outer_ok (jobs : list Job) (l : Loop) : Prop :=
  match outer l with
  | Pending =>
      nfinished l < length (children l)
      /\ Forall (fun t => forall e, t <> Done (Raise e)) (children l)
  | Returned results =>
      results = map outcome jobs
      /\ Forall (fun t => is_done t = true) (children l)
      /\ Forall (fun job => is_return (outcome job) = true) jobs
  | Raised e =>
      exists i job, jobs !! i = Some job /\ outcome job = Raise e
                    /\ children l !! i = Some (Done (Raise e))
  end.

Record consistent (jobs : list Job) (W : Z) (l : Loop) : Prop := {
  c_tracks : Forall2 tracks jobs (children l);
  c_permits : (sem_value l + Z.of_nat (running l) = W)%Z;
  c_nonneg : (0 <= sem_value l)%Z;
  c_nfinished : nfinished l = count is_done (children l);
  c_outer : outer_ok jobs l
}.

(** The state of the loop once the callbacks that wait have run. *)
Definition settled (s : Ready) : Loop :=
  fold_left done_callback (callbacks s) (now s).

(** The children a list of turns resumes, in order. *)
Definition resumed (ts : list Turn) : list nat :=
  omap (fun t => match t with Resume i => Some i | _ => None end) ts.

(** The number of callback turns among the turns. *)
Definition callback_turns (ts : list Turn) : nat :=
  length (List.filter (fun t => match t with Callback => true | _ => false end) ts).

(** Every resolved child has had its callback, or its callback waits. *)
Definition queued (s : Ready) : Prop :=
  nfinished (now s) + length (callbacks s) = count is_done (children (now s)).

(** The caller has got nothing yet, or what [outer] holds. *)
Definition handed_over (s : Ready) : Prop :=
  delivered s <> Pending -> delivered s = outer (now s).

End Defs.
Arguments Job : clear implicits.
Arguments Coroutine : clear implicits.
Arguments Task : clear implicits.
Arguments Outer : clear implicits.
Arguments Loop : clear implicits.
Arguments Ready : clear implicits.
Arguments Unfinished {A}.
Arguments Finished {A} a.
Arguments Exc {A} e.
End AsyncUtils.

(** ** instrumentation/dispatcher.py *)
Module Dispatcher.
Section Defs.

(** [Any]: the Python objects that pass through untouched (arguments,
    instances, results). *)
Context {Any : Type}.

(** [BaseEvent] and the one subclass the dispatcher builds itself.  The
    timestamp and the event's own uuid are left out. *)
Inductive BaseEvent : Type :=
| Event (class_name : string) (span_id : option string)
| SpanDropEvent (span_id : string) (err_str : string).

(** What a handler is told, with the keyword arguments of the call. *)
Inductive Signal : Type :=
| Handle (event : BaseEvent)
| SpanEnter (id_ : string) (bound_args : list Any) (instance : option Any)
            (parent_id : option string)
| SpanDrop (id_ : string) (bound_args : list Any) (instance : option Any)
           (err : Exn)
| SpanExit (id_ : string) (bound_args : list Any) (instance : option Any)
           (result : Any).

(** Every handler call is recorded, in order, with the handler's name. *)
Definition Log : Type := list (string * Signal).

(** The state a call runs in: the context variable [active_span_id]
    ([None] when it was never set in this context) and the record of
    handler calls. *)
Record Ctx : Type := { active_span_id : option string; log : Log }.

(** Handlers are foreign objects: all that is known is that a call may
    raise, possibly depending on what the handler has seen before. *)
Record BaseEventHandler : Type := {
  eh_name : string;
  handle : Log -> BaseEvent -> option Exn
}.

Record BaseSpanHandler : Type := {
  sh_name : string;
  sh_span_enter : Log -> string -> list Any -> option Any -> option string -> option Exn;
  sh_span_drop : Log -> string -> list Any -> option Any -> Exn -> option Exn;
  sh_span_exit : Log -> string -> list Any -> option Any -> Any -> option Exn
}.

(** [class Dispatcher(BaseModel)].  [manager] is the only [Manager] there
    is, or [None]; the manager itself is passed next to the dispatcher. *)
Record Dispatcher : Type := {
  name : string;
  event_handlers : list BaseEventHandler;
  span_handlers : list BaseSpanHandler;
  parent_name : string;
  manager : bool;
  root_name : string;
  propagate : bool
}.

(** [Manager.dispatchers] *)
Definition Manager : Type := gmap string Dispatcher.

(** [Manager.__init__] *)
Definition Manager_init (root : Dispatcher) : Manager := {[ name root := root ]}.

(** [Manager.add_dispatcher] *)
Definition add_dispatcher (m : Manager) (d : Dispatcher) : Manager :=
  match m !! name d with
  | Some _ => m
  | None => <[ name d := d ]> m
  end.

(** [Dispatcher.parent] *)
Definition parent (m : Manager) (self : Dispatcher) : Result Dispatcher :=
  if manager self then
    match m !! parent_name self with
    | Some p => Return p
    | None => Raise (KeyError (parent_name self))
    end
  else Raise (AttributeError "'NoneType' object has no attribute 'dispatchers'").

(** [Dispatcher.root] *)
Definition root (m : Manager) (self : Dispatcher) : Result Dispatcher :=
  if manager self then
    match m !! root_name self with
    | Some p => Return p
    | None => Raise (KeyError (root_name self))
    end
  else Raise (AttributeError "'NoneType' object has no attribute 'dispatchers'").

(** [add_event_handler], [add_span_handler]: [+= [handler]] *)
Definition add_event_handler (self : Dispatcher) (handler : BaseEventHandler)
  : Dispatcher :=
  {| name := name self;
     event_handlers := event_handlers self ++ [handler];
     span_handlers := span_handlers self;
     parent_name := parent_name self; manager := manager self;
     root_name := root_name self; propagate := propagate self |}.

Definition add_span_handler (self : Dispatcher) (handler : BaseSpanHandler)
  : Dispatcher :=
  {| name := name self;
     event_handlers := event_handlers self;
     span_handlers := span_handlers self ++ [handler];
     parent_name := parent_name self; manager := manager self;
     root_name := root_name self; propagate := propagate self |}.

(** A handler method call: recorded, then it returns or raises. *)
Definition invoke (who : string) (sig : Signal) (raised : option Exn)
           (st : Ctx) : Ctx * Result unit :=
  ({| active_span_id := active_span_id st; log := log st ++ [(who, sig)] |},
   match raised with
   | Some e => Raise e
   | None => Return tt
   end).

Definition call_handle (event : BaseEvent) (h : BaseEventHandler) (st : Ctx) :=
  invoke (eh_name h) (Handle event) (handle h (log st) event) st.

Definition call_span_enter (id_ : string) (bound_args : list Any)
           (instance : option Any) (parent_id : option string)
           (h : BaseSpanHandler) (st : Ctx) :=
  invoke (sh_name h) (SpanEnter id_ bound_args instance parent_id)
         (sh_span_enter h (log st) id_ bound_args instance parent_id) st.

Definition call_span_drop (id_ : string) (bound_args : list Any)
           (instance : option Any) (err : Exn)
           (h : BaseSpanHandler) (st : Ctx) :=
  invoke (sh_name h) (SpanDrop id_ bound_args instance err)
         (sh_span_drop h (log st) id_ bound_args instance err) st.

Definition call_span_exit (id_ : string) (bound_args : list Any)
           (instance : option Any) (result : Any)
           (h : BaseSpanHandler) (st : Ctx) :=
  invoke (sh_name h) (SpanExit id_ bound_args instance result)
         (sh_span_exit h (log st) id_ bound_args instance result) st.

(** [try: body  except BaseException: pass] *)
Definition try_except_pass (body : Ctx -> Ctx * Result unit) (st : Ctx) : Ctx :=
  match body st with
  | (st', Return _) => st'
  | (st', Raise _) => st'
  end.

(** [for h in handlers: try: call(h) except BaseException: pass] *)
Fixpoint for_handlers {H : Type} (call : H -> Ctx -> Ctx * Result unit)
         (handlers : list H) (st : Ctx) : Ctx :=
  match handlers with
  | [] => st
  | h :: rest => for_handlers call rest (try_except_pass (call h) st)
  end.

(** The loop the four notification methods share:
    [c = self; while c: <for handlers>; c = None if not c.propagate else c.parent].
    A dispatcher object is always truthy, so the loop ends when [c] is
    set to [None] or when [c.parent] raises; [fuel] bounds the number of
    dispatchers visited and [None] means it ran out. *)
Fixpoint dispatch {H : Type} (fuel : nat) (handlers : Dispatcher -> list H)
         (call : H -> Ctx -> Ctx * Result unit)
         (m : Manager) (c : Dispatcher) (st : Ctx)
  : option (Ctx * Result unit) :=
  match fuel with
  | O => None
  | S fuel' =>
      let st1 := for_handlers call (handlers c) st in
      if negb (propagate c) then Some (st1, Return tt)
      else
        match parent m c with
        | Raise e => Some (st1, Raise e)
        | Return p => dispatch fuel' handlers call m p st1
        end
  end.

Definition event (fuel : nat) (m : Manager) (self : Dispatcher)
           (ev : BaseEvent) : Ctx -> option (Ctx * Result unit) :=
  dispatch fuel event_handlers (call_handle ev) m self.

Definition span_enter (fuel : nat) (m : Manager) (self : Dispatcher)
           (id_ : string) (bound_args : list Any) (instance : option Any)
           (parent_id : option string) : Ctx -> option (Ctx * Result unit) :=
  dispatch fuel span_handlers
           (call_span_enter id_ bound_args instance parent_id) m self.

Definition span_drop (fuel : nat) (m : Manager) (self : Dispatcher)
           (id_ : string) (bound_args : list Any) (instance : option Any)
           (err : Exn) : Ctx -> option (Ctx * Result unit) :=
  dispatch fuel span_handlers
           (call_span_drop id_ bound_args instance err) m self.

Definition span_exit (fuel : nat) (m : Manager) (self : Dispatcher)
           (id_ : string) (bound_args : list Any) (instance : option Any)
           (result : Any) : Ctx -> option (Ctx * Result unit) :=
  dispatch fuel span_handlers
           (call_span_exit id_ bound_args instance result) m self.

(** The operation a span is wrapped around: its [__qualname__], whether
    it is a coroutine function, and what a call does to the state
    ([None]: the call does not come back). *)
Record Operation : Type := {
  qualname : string;
  iscoroutinefunction : bool;
  call : list Any -> Ctx -> option (Ctx * Result Any)
}.

(** [active_span_id.set(id_)]: the token keeps the old value,
    [None] for [Token.MISSING]. *)
Definition active_span_id_set (id_ : string) (st : Ctx) : option string * Ctx :=
  (active_span_id st, {| active_span_id := Some id_; log := log st |}).

(** [active_span_id.reset(token)] *)
Definition active_span_id_reset (token : option string) (st : Ctx) : Ctx :=
  {| active_span_id := token; log := log st |}.

(** [finally: active_span_id.reset(token)] around a [try] statement that
    has already run. *)
Definition finally_reset {A : Type} (token : option string)
           (tried : option (Ctx * Result A)) : option (Ctx * Result A) :=
  match tried with
  | None => None
  | Some (st, r) => Some (active_span_id_reset token st, r)
  end.

(** [wrapper(func, instance, args, kwargs)] of [Dispatcher.span]; [uuid]
    is what [uuid.uuid4()] returns in this call.  The arguments are taken
    to fit the signature ([bound_args] is then the arguments); a call
    with the binding of the arguments in front is [decorated] below. *)
Definition wrapper (fuel : nat) (m : Manager) (self : Dispatcher)
           (func : Operation) (instance : option Any) (args : list Any)
           (uuid : string) (st : Ctx) : option (Ctx * Result Any) :=
  let bound_args := args in
  let id_ := (qualname func ++ "-" ++ uuid)%string in
  let '(token, st) := active_span_id_set id_ st in
  let parent_id := token in
  match span_enter fuel m self id_ bound_args instance parent_id st with
  | None => None
  | Some (st, Raise e) => Some (st, Raise e)
  | Some (st, Return _) =>
      finally_reset token
        match call func args st with
        | None => None
        | Some (st, Raise e) =>
            (* except BaseException as e *)
            match event fuel m self (SpanDropEvent id_ (str e)) st with
            | None => None
            | Some (st, Raise e') => Some (st, Raise e')
            | Some (st, Return _) =>
                match span_drop fuel m self id_ bound_args instance e st with
                | None => None
                | Some (st, Raise e') => Some (st, Raise e')
                | Some (st, Return _) => Some (st, Raise e)   (* raise *)
                end
            end
        | Some (st, Return result) =>
            (* else *)
            match span_exit fuel m self id_ bound_args instance result st with
            | None => None
            | Some (st, Raise e') => Some (st, Raise e')
            | Some (st, Return _) => Some (st, Return result)
            end
        end
  end.

(** [async_wrapper]: the same statements with [await func(...)]; the
    context variable belongs to the awaiting task, and what other tasks
    do to the handlers meanwhile is part of what the call does to the
    state. *)
Definition async_wrapper (fuel : nat) (m : Manager) (self : Dispatcher)
           (func : Operation) (instance : option Any) (args : list Any)
           (uuid : string) (st : Ctx) : option (Ctx * Result Any) :=
  let bound_args := args in
  let id_ := (qualname func ++ "-" ++ uuid)%string in
  let '(token, st) := active_span_id_set id_ st in
  let parent_id := token in
  match span_enter fuel m self id_ bound_args instance parent_id st with
  | None => None
  | Some (st, Raise e) => Some (st, Raise e)
  | Some (st, Return _) =>
      finally_reset token
        match call func args st with
        | None => None
        | Some (st, Raise e) =>
            match event fuel m self (SpanDropEvent id_ (str e)) st with
            | None => None
            | Some (st, Raise e') => Some (st, Raise e')
            | Some (st, Return _) =>
                match span_drop fuel m self id_ bound_args instance e st with
                | None => None
                | Some (st, Raise e') => Some (st, Raise e')
                | Some (st, Return _) => Some (st, Raise e)
                end
            end
        | Some (st, Return result) =>
            match span_exit fuel m self id_ bound_args instance result st with
            | None => None
            | Some (st, Raise e') => Some (st, Raise e')
            | Some (st, Return _) => Some (st, Return result)
            end
        end
  end.

(** [Dispatcher.span(self, func)] *)
Definition span (fuel : nat) (m : Manager) (self : Dispatcher)
           (func : Operation)
  : option Any -> list Any -> string -> Ctx -> option (Ctx * Result Any) :=
  if iscoroutinefunction func then async_wrapper fuel m self func
  else wrapper fuel m self func.

(** The first statement of [wrapper] and of [async_wrapper],
    [inspect.signature(func).bind] on the arguments, raises [TypeError]
    when the arguments do not fit the parameters.  A signature is given
    by the argument lists it accepts and by what it says of the others;
    the bound arguments are the arguments themselves. *)
Record Signature : Type := {
  accepts : list Any -> bool;
  complaint : list Any -> string
}.

Definition bind (signature : Signature) (args : list Any) : Result (list Any) :=
  if accepts signature args then Return args
  else Raise (TypeError (complaint signature args)).

(** A call of the function that [Dispatcher.span] returns, from the
    wrapper's first statement on: the arguments are bound, then come the
    statements that [wrapper] and [async_wrapper] above stand for. *)
Definition decorated (fuel : nat) (m : Manager) (self : Dispatcher)
           (func : Operation) (signature : Signature) (instance : option Any)
           (args : list Any) (uuid : string) (st : Ctx)
  : option (Ctx * Result Any) :=
  match bind signature args with
  | Raise e => Some (st, Raise e)
  | Return bound_args => span fuel m self func instance bound_args uuid st
  end.

(** *** Vocabulary of the properties *)

(** What [handlers] leave in the log when each is told [sig] once. *)
Definition told {H : Type} (who : H -> string) (sig : Signal)
           (handlers : list H) : Log :=
  map (fun h => (who h, sig)) handlers.

(** The spec's walk, from the originating dispatcher: stop at the first
    dispatcher that does not propagate, or at the one that has no parent
    to go to (the root); otherwise go on with the parent.  [r] is how
    the walk ends: in the first case there is nothing more to do, in the
    second the failed lookup of the parent is what ends it. *)
Inductive route (m : Manager) : Dispatcher -> list Dispatcher -> Result unit -> Prop :=
| route_stop c :
    propagate c = false -> route m c [c] (Return tt)
| route_root c e :
    propagate c = true -> parent m c = Raise e -> route m c [c] (Raise e)
| route_up c p path r :
    propagate c = true -> parent m c = Return p -> route m p path r ->
    route m c (c :: path) r.

(** The handler calls of a whole walk, dispatcher by dispatcher. *)
Definition reports {H : Type} (who : H -> string)
           (handlers : Dispatcher -> list H) (sig : Signal)
           (path : list Dispatcher) : Log :=
  flat_map (fun c => told who sig (handlers c)) path.

(** The same handlers and dispatchers, made never to raise. *)
Definition quiet_eh (h : BaseEventHandler) : BaseEventHandler :=
  {| eh_name := eh_name h; handle := fun _ _ => None |}.

Definition quiet_sh (h : BaseSpanHandler) : BaseSpanHandler :=
  {| sh_name := sh_name h;
     sh_span_enter := fun _ _ _ _ _ => None;
     sh_span_drop := fun _ _ _ _ _ => None;
     sh_span_exit := fun _ _ _ _ _ => None |}.

Definition quiet (d : Dispatcher) : Dispatcher :=
  {| name := name d;
     event_handlers := map quiet_eh (event_handlers d);
     span_handlers := map quiet_sh (span_handlers d);
     parent_name := parent_name d; manager := manager d;
     root_name := root_name d; propagate := propagate d |}.

(** The span id of a call. *)
Definition span_id_of (func : Operation) (uuid : string) : string :=
  (qualname func ++ "-" ++ uuid)%string.

(** The state the wrapped operation is called in. *)
Definition entered (path : list Dispatcher) (func : Operation)
           (instance : option Any) (args : list Any) (uuid : string) (st : Ctx)
  : Ctx :=
  {| active_span_id := Some (span_id_of func uuid);
     log := log st
            ++ reports sh_name span_handlers
                 (SpanEnter (span_id_of func uuid) args instance
                            (active_span_id st)) path |}.

(** What the handlers are told when the operation has ended with [r]. *)
Definition terminal path func instance (args : list Any) (uuid : string)
           (r : Result Any) : Log :=
  match r with
  | Return result =>
      reports sh_name span_handlers
        (SpanExit (span_id_of func uuid) args instance result) path
  | Raise e =>
      reports eh_name event_handlers
        (Handle (SpanDropEvent (span_id_of func uuid) (str e))) path
      ++ reports sh_name span_handlers
           (SpanDrop (span_id_of func uuid) args instance e) path
  end.

(** One of the four notifications, named by what the handlers are told. *)
Definition notify (fuel : nat) (m : Manager) (self : Dispatcher) (sig : Signal)
  : Ctx -> option (Ctx * Result unit) :=
  match sig with
  | Handle ev => event fuel m self ev
  | SpanEnter id_ bound_args instance parent_id =>
      span_enter fuel m self id_ bound_args instance parent_id
  | SpanDrop id_ bound_args instance err =>
      span_drop fuel m self id_ bound_args instance err
  | SpanExit id_ bound_args instance result =>
      span_exit fuel m self id_ bound_args instance result
  end.

(** What the handlers of the relevant kind hear of it along a walk. *)
Definition heard (sig : Signal) (path : list Dispatcher) : Log :=
  match sig with
  | Handle _ => reports eh_name event_handlers sig path
  | _ => reports sh_name span_handlers sig path
  end.

(** Whether a notification goes to the event handlers. *)
Definition for_event_handlers (sig : Signal) : bool :=
  match sig with
  | Handle _ => true
  | _ => false
  end.

(** Dispatchers are objects shared between the registry and their users:
    a method that changes the dispatcher registered under [n] in place
    changes the registry's entry, and what every holder of that object
    sees. *)
Definition in_place (f : Dispatcher -> Dispatcher) (n : string) (m : Manager)
  : Manager := alter f n m.

Definition seen (f : Dispatcher -> Dispatcher) (n : string) (d : Dispatcher)
  : Dispatcher := if decide (name d = n) then f d else d.

(** Every dispatcher is registered under its own name. *)
Definition keyed_by_name (m : Manager) : Prop :=
  map_Forall (fun k d => name d = k) m.

End Defs.
Arguments BaseEvent : clear implicits.
Arguments Signal : clear implicits.
Arguments Log : clear implicits.
Arguments Ctx : clear implicits.
Arguments BaseEventHandler : clear implicits.
Arguments BaseSpanHandler : clear implicits.
Arguments Dispatcher : clear implicits.
Arguments Manager : clear implicits.
Arguments Operation : clear implicits.
Arguments Signature : clear implicits.
End Dispatcher.

(** ** llama_index/core/async_utils.py, with its [@dispatcher.span] decorators *)

Module Traced.
Import Py AsyncUtils Dispatcher.

Section Phases.
Context {Any : Type}.

(** [async_wrapper] is a coroutine: between its first statements and its
    last ones lies [await func(...)], where other tasks run.  Its
    statements up to the [await]: the span's id is made the active one and
    the span handlers are told; the token is kept for the end. *)
Definition span_open (fuel : nat) (m : Manager Any) (self : Dispatcher Any)
           (qualname : string) (instance : option Any) (args : list Any)
           (uuid : string) (st : Ctx Any)
  : option (Ctx Any * Result (option string)) :=
  let bound_args := args in
  let id_ := (qualname ++ "-" ++ uuid)%string in
  let '(token, st) := active_span_id_set id_ st in
  let parent_id := token in
  match span_enter fuel m self id_ bound_args instance parent_id st with
  | None => None
  | Some (st, Raise e) => Some (st, Raise e)
  | Some (st, Return _) => Some (st, Return token)
  end.

(** Its statements from the point where [await func(...)] has come back
    with [awaited]: [except], [else] and [finally].  [to_any] is the
    result as the handlers see it. *)
Definition span_close {A : Type} (to_any : A -> Any)
           (fuel : nat) (m : Manager Any) (self : Dispatcher Any)
           (qualname : string) (instance : option Any) (args : list Any)
           (uuid : string) (token : option string) (awaited : Result A)
           (st : Ctx Any) : option (Ctx Any * Result A) :=
  let bound_args := args in
  let id_ := (qualname ++ "-" ++ uuid)%string in
  finally_reset token
    match awaited with
    | Raise e =>
        match event fuel m self (SpanDropEvent id_ (str e)) st with
        | None => None
        | Some (st, Raise e') => Some (st, Raise e')
        | Some (st, Return _) =>
            match span_drop fuel m self id_ bound_args instance e st with
            | None => None
            | Some (st, Raise e') => Some (st, Raise e')
            | Some (st, Return _) => Some (st, Raise e)
            end
        end
    | Return result =>
        match span_exit fuel m self id_ bound_args instance (to_any result) st with
        | None => None
        | Some (st, Raise e') => Some (st, Raise e')
        | Some (st, Return _) => Some (st, Return result)
        end
    end.

End Phases.

Section Defs.
Context {T : Type}.

(** The Python objects the handlers are shown by this module. *)
Inductive Value : Type :=
| VJob (job : Job T)
| VJobs (jobs : list (Job T))
| VBool (b : bool)
| VInt (z : Z)
| VStr (s : string)
| VResult (result : T)
| VResults (results : list (Result T)).

(** The module's [dispatcher] with the registry it lives in, the arguments
    [run_jobs] is called with, and what [uuid.uuid4()] gives: [uuid0] in
    the call of [run_jobs], [uuids i] in the call of the i-th worker. *)
Context (fuel : nat) (m : Manager Value) (dispatcher : Dispatcher Value).
Context (bound_args : list Value) (uuid0 : string) (uuids : nat -> string).

Definition run_jobs_qualname : string := "run_jobs".
Definition worker_qualname : string := "run_jobs.<locals>.worker".

Definition run_jobs_id : string := (run_jobs_qualname ++ "-" ++ uuid0)%string.
Definition worker_id (i : nat) : string := (worker_qualname ++ "-" ++ uuids i)%string.

(** The state of one call of the decorated [run_jobs] while it awaits the
    gather: the loop of the plain model; for each worker whether its span
    is entered; the caller's context and the handlers' log; the token of
    the [run_jobs] span; the context the tasks were created in (a task
    runs in a copy of it); and how the call came back, once it has. *)
Record State : Type := {
  loop : Loop T;
  opened : list bool;
  ctx : Ctx Value;
  token : option string;
  inherited : option string;
  came_back : option (Result (list (Result T)))
}.

(** A worker's task runs in its own context; the handlers are shared. *)
Definition task_ctx (active : option string) (s : State) : Ctx Value :=
  {| active_span_id := active; log := log (ctx s) |}.

Definition told_in_task (s : State) (st : Ctx Value) : Ctx Value :=
  {| active_span_id := active_span_id (ctx s); log := log st |}.

(** The task of child [i] ends with [r]: the permit goes back, the
    future is resolved, gather's callback runs. *)
Definition finish (l : Loop T) (i : nat) (permit : bool) (r : Result T) : Loop T :=
  done_callback
    {| sem_value := if permit then (sem_value l + 1)%Z else sem_value l;
       children := <[i := Done r]> (children l);
       nfinished := nfinished l; outer := outer l |}
    r.

(** What a resumption leads to: nothing (the task cannot run), a handler
    walk that never ends, or a new state. *)
Inductive Next : Type :=
| Skip
| Hang
| Go (s : State).

(** One resumption of the task of [worker(job)], the [i]-th child.  The
    log takes what the two wrappers of this module tell the handlers.
    What a job tells them by itself (a job may be a coroutine with spans
    of its own) is not entered; the properties speak of the span of
    [run_jobs] and of the spans of the workers, by their ids. *)
Definition resume_child (s : State) (i : nat) : Next :=
  match children (loop s) !! i with
  | None => Skip
  | Some (Done _) => Skip
  | Some (Blocked job) =>
      if default false (opened s !! i) then
        (* waiting at [async with semaphore] *)
        match step (loop s) i with
        | None => Skip
        | Some l' =>
            Go {| loop := l'; opened := opened s; ctx := ctx s;
                  token := token s; inherited := inherited s;
                  came_back := came_back s |}
        end
      else
        (* first resumption: the wrapper, then [async with semaphore] *)
        match span_open fuel m dispatcher worker_qualname None [VJob job]
                        (uuids i) (task_ctx (inherited s) s) with
        | None => Hang
        | Some (st, Raise e) =>
            Go {| loop := finish (loop s) i false (Raise e);
                  opened := <[i := true]> (opened s);
                  ctx := told_in_task s st;
                  token := token s; inherited := inherited s;
                  came_back := came_back s |}
        | Some (st, Return _) =>
            Go {| loop := default (loop s) (step (loop s) i);
                  opened := <[i := true]> (opened s);
                  ctx := told_in_task s st;
                  token := token s; inherited := inherited s;
                  came_back := came_back s |}
        end
  | Some (Running permit (S k) job) =>
      match step (loop s) i with
      | None => Skip
      | Some l' =>
          Go {| loop := l'; opened := opened s; ctx := ctx s;
                token := token s; inherited := inherited s;
                came_back := came_back s |}
      end
  | Some (Running permit O job) =>
      (* the job ends, [async with] releases, the wrapper closes the span *)
      match span_close VResult fuel m dispatcher worker_qualname None [VJob job]
                       (uuids i) (inherited s) (outcome job)
                       (task_ctx (Some (worker_id i)) s) with
      | None => Hang
      | Some (st, r) =>
          Go {| loop := finish (loop s) i permit r;
                opened := opened s;
                ctx := told_in_task s st;
                token := token s; inherited := inherited s;
                came_back := came_back s |}
      end
  end.

(** The resumption of the task that awaits [run_jobs], once the gather is
    resolved. *)
Definition resume_parent (s : State) : Next :=
  match came_back s with
  | Some _ => Skip
  | None =>
      let close awaited :=
        match span_close VResults fuel m dispatcher run_jobs_qualname None
                         bound_args uuid0 (token s) awaited (ctx s) with
        | None => Hang
        | Some (st, r) =>
            Go {| loop := loop s; opened := opened s; ctx := st;
                  token := token s; inherited := inherited s;
                  came_back := Some r |}
        end in
      match outer (loop s) with
      | Pending => Skip
      | Returned results => close (Return results)
      | Raised e => close (Raise e)
      end
  end.

(** What the event loop resumes next. *)
Inductive Tick : Type :=
| Child (i : nat)
| Parent.

Definition resume (s : State) (t : Tick) : Next :=
  match t with
  | Child i => resume_child s i
  | Parent => resume_parent s
  end.

(** The loop follows a schedule; [None]: a handler walk did not end. *)
Fixpoint run (ticks : list Tick) (s : State) : option State :=
  match ticks with
  | [] => Some s
  | t :: rest =>
      match resume s t with
      | Skip => run rest s
      | Hang => None
      | Go s' => run rest s'
      end
  end.

(** The call of the decorated [run_jobs] up to its first suspension. *)
Inductive Call : Type :=
| Hangs
| Completed (st : Ctx Value) (r : Result (list (Result T)))
| Awaiting (s : State).

Definition traced_run_jobs (jobs : list (Job T)) (workers : Z) (st : Ctx Value)
  : Call :=
  match span_open fuel m dispatcher run_jobs_qualname None bound_args uuid0 st with
  | None => Hangs
  | Some (st, Raise e) => Completed st (Raise e)
  | Some (st, Return token) =>
      let close awaited :=
        match span_close VResults fuel m dispatcher run_jobs_qualname None
                         bound_args uuid0 token awaited st with
        | None => Hangs
        | Some (st, r) => Completed st r
        end in
      match Semaphore workers with
      | Raise e => close (Raise e)
      | Return semaphore =>
          let pool_jobs := map worker jobs in
          match gather semaphore (map Some pool_jobs) with
          | (_, Raise e) => close (Raise e)
          | (_, Return l) =>
              match outer l with
              | Pending =>
                  Awaiting {| loop := l; opened := map (fun _ => false) jobs;
                              ctx := st; token := token;
                              inherited := active_span_id st;
                              came_back := None |}
              | Returned results => close (Return results)
              | Raised e => close (Raise e)
              end
          end
      end
  end.

(** *** Vocabulary of the properties *)

(** The children a schedule resumes. *)
Definition child_ticks (ticks : list Tick) : list nat :=
  omap (fun t => match t with Child i => Some i | Parent => None end) ticks.

(** The spans the handlers were told to enter: id, arguments, parent id. *)
Definition spans_entered (l : Log Value)
  : list (string * list Value * option string) :=
  omap (fun entry => match snd entry with
                     | SpanEnter id_ args _ parent_id => Some (id_, args, parent_id)
                     | _ => None
                     end) l.

(** The span of a worker: on its job, under the span of [run_jobs]. *)
Definition worker_span (jobs : list (Job T))
           (entry : string * list Value * option string) : Prop :=
  exists i job,
    jobs !! i = Some job /\ entry = (worker_id i, [VJob job], Some run_jobs_id).

(** How the awaiting caller sees a result. *)
Definition as_outer (r : option (Result (list (Result T)))) : Outer T :=
  match r with
  | None => Pending
  | Some (Return results) => Returned results
  | Some (Raise e) => Raised e
  end.

(** What the handlers hear when a span is closed with [awaited]. *)
Definition closing {A : Type} (to_any : A -> Value) (path : list (Dispatcher Value))
           (id_ : string) (args : list Value) (awaited : Result A) : Log Value :=
  match awaited with
  | Return result => heard (SpanExit id_ args None (to_any result)) path
  | Raise e =>
      heard (Handle (SpanDropEvent id_ (str e))) path
      ++ heard (SpanDrop id_ args None e) path
  end.

(** The span a handler call is about. *)
Definition span_of (sig : Signal Value) : option string :=
  match sig with
  | Handle (SpanDropEvent id_ _) => Some id_
  | Handle (Event _ _) => None
  | SpanEnter id_ _ _ _ => Some id_
  | SpanDrop id_ _ _ _ => Some id_
  | SpanExit id_ _ _ _ => Some id_
  end.

Definition about (id_ : string) (l : Log Value) : Log Value :=
  List.filter (fun entry => bool_decide (span_of (snd entry) = Some id_)) l.

(** What the handlers should have heard of the span of [run_jobs], and of
    the span of the worker of job [i], in state [s]. *)
Definition run_jobs_heard (path : list (Dispatcher Value)) (st : Ctx Value)
           (s : State) : Log Value :=
  heard (SpanEnter run_jobs_id bound_args None (active_span_id st)) path
  ++ match came_back s with
     | Some r => closing VResults path run_jobs_id bound_args r
     | None => []
     end.

Definition worker_heard (path : list (Dispatcher Value)) (i : nat) (job : Job T)
           (s : State) : Log Value :=
  match children (loop s) !! i with
  | Some (Done _) =>
      heard (SpanEnter (worker_id i) [VJob job] None (Some run_jobs_id)) path
      ++ closing VResult path (worker_id i) [VJob job] (outcome job)
  | Some (Running _ _ _) =>
      heard (SpanEnter (worker_id i) [VJob job] None (Some run_jobs_id)) path
  | Some (Blocked _) =>
      if default false (opened s !! i)
      then heard (SpanEnter (worker_id i) [VJob job] None (Some run_jobs_id)) path
      else []
  | None => []
  end.

(** Every span has been told as far as it has got, and no further. *)
Record narrated (path : list (Dispatcher Value)) (jobs : list (Job T))
       (st : Ctx Value) (s : State) : Prop := {
  n_opened : length (opened s) = length jobs;
  n_log :
    exists new,
      log (ctx s) = log st ++ new
      /\ about run_jobs_id new = run_jobs_heard path st s
      /\ forall i job, jobs !! i = Some job ->
                       about (worker_id i) new = worker_heard path i job s
}.

(** What holds of every state of a call made in [st] on a dispatcher
    whose walk is [path]. *)
Record traced (path : list (Dispatcher Value)) (jobs : list (Job T))
       (st : Ctx Value) (s : State) : Prop := {
  t_inherited : inherited s = Some run_jobs_id;
  t_token : token s = active_span_id st;
  t_active :
    active_span_id (ctx s)
    = match came_back s with
      | Some _ => active_span_id st
      | None => Some run_jobs_id
      end;
  t_log :
    exists extra,
      log (ctx s)
      = log st
        ++ heard (SpanEnter run_jobs_id bound_args None (active_span_id st)) path
        ++ extra
      /\ Forall (worker_span jobs) (spans_entered extra);
  t_came_back :
    as_outer (came_back s) = Pending \/ as_outer (came_back s) = outer (loop s)
}.

End Defs.
Arguments Value : clear implicits.
Arguments State : clear implicits.
Arguments Next : clear implicits.
Arguments Call : clear implicits.
End Traced.

(** ** Concrete jobs, handlers and dispatchers used in the examples *)
Module Fixtures.
Import AsyncUtils Dispatcher.

(** [job_sleep(n)]: suspends [n] times, then returns [v]. *)
Definition job_sleep (n v : nat) : Job nat :=
  {| suspensions := n; outcome := Return v |}.

Definition job_boom (n : nat) : Job nat :=
  {| suspensions := n; outcome := Raise (Exception "RuntimeError" "boom") |}.

(** [isinstance(e, RuntimeError)] for the exceptions of the fixtures. *)
Definition is_RuntimeError (e : Py.Exn) : bool :=
  match e with
  | Py.Exception "RuntimeError" _ => true
  | _ => false
  end.

(** A handler that raises on every call and one that never does. *)
Definition faulty_eh : BaseEventHandler nat :=
  {| eh_name := "faulty";
     handle := fun _ _ => Some (Exception "RuntimeError" "handler failed") |}.
Definition tracer_eh : BaseEventHandler nat :=
  {| eh_name := "tracer"; handle := fun _ _ => None |}.
Definition faulty_sh : BaseSpanHandler nat :=
  {| sh_name := "faulty";
     sh_span_enter := fun _ _ _ _ _ => Some (Exception "RuntimeError" "handler failed");
     sh_span_drop := fun _ _ _ _ _ => Some (Exception "RuntimeError" "handler failed");
     sh_span_exit := fun _ _ _ _ _ => Some (Exception "RuntimeError" "handler failed") |}.
Definition tracer_sh : BaseSpanHandler nat :=
  {| sh_name := "tracer";
     sh_span_enter := fun _ _ _ _ _ => None;
     sh_span_drop := fun _ _ _ _ _ => None;
     sh_span_exit := fun _ _ _ _ _ => None |}.

(** The tree the library builds: a root that does not propagate and a
    dispatcher for a module below it. *)
Definition root_dispatcher : Dispatcher nat :=
  {| name := "root"; event_handlers := [tracer_eh]; span_handlers := [tracer_sh];
     parent_name := ""; manager := false; root_name := "root";
     propagate := false |}.

Definition module_dispatcher : Dispatcher nat :=
  {| name := "llama_index.core.async_utils";
     event_handlers := [faulty_eh; tracer_eh];
     span_handlers := [faulty_sh; tracer_sh];
     parent_name := "root"; manager := true; root_name := "root";
     propagate := true |}.

Definition root_manager : Manager nat :=
  add_dispatcher (Manager_init root_dispatcher) module_dispatcher.

(** A root that propagates: its parent cannot be looked up. *)
Definition open_root : Dispatcher nat :=
  {| name := "root"; event_handlers := [tracer_eh]; span_handlers := [tracer_sh];
     parent_name := ""; manager := true; root_name := "root";
     propagate := true |}.

Definition returns_42 : Operation nat :=
  {| qualname := "run_jobs"; iscoroutinefunction := true;
     call := fun _ st => Some (st, Return 42) |}.

Definition raises_key_error : Operation nat :=
  {| qualname := "lookup"; iscoroutinefunction := false;
     call := fun _ st => Some (st, Raise (KeyError "missing")) |}.

(** The signature of a function of one positional parameter. *)
Definition one_argument : Signature nat :=
  {| accepts := fun args => Nat.eqb (length args) 1;
     complaint := fun args =>
       match args with
       | [] => "missing a required argument: 'prompt'"
       | _ => "too many positional arguments"
       end |}.

Definition raises_bad_input : Operation nat :=
  {| qualname := "BaseLLM.complete"; iscoroutinefunction := false;
     call := fun _ st => Some (st, Raise (Exception "ValueError" "bad input")) |}.

Definition in_span_outer : Ctx nat :=
  {| active_span_id := Some "query-0"; log := [] |}.
Definition no_span : Ctx nat := {| active_span_id := None; log := [] |}.

(** Distance to the root in this tree, read off the parent's name. *)
Definition depth_in_tree (d : Dispatcher nat) : nat :=
  if propagate d then
    if decide (parent_name d = "root") then 1 else 2
  else 0.

(** A dispatcher as its constructor's defaults make it: it propagates and
    has no manager. *)
Definition unmanaged_dispatcher : Dispatcher nat :=
  {| name := ""; event_handlers := [tracer_eh]; span_handlers := [tracer_sh];
     parent_name := ""; manager := false; root_name := "root";
     propagate := true |}.

(** Nesting: A calls B calls C, each span-wrapped on the root dispatcher.
    C's parent is B's span, B's parent is A's span, A has none, and the
    active span id is unset again at the end. *)
Definition op_C : Operation nat :=
  {| qualname := "C"; iscoroutinefunction := false;
     call := fun _ st => Some (st, Return 3) |}.
Definition op_B : Operation nat :=
  {| qualname := "B"; iscoroutinefunction := true;
     call := fun _ st => span 1 root_manager root_dispatcher op_C None [] "c" st |}.
Definition op_A : Operation nat :=
  {| qualname := "A"; iscoroutinefunction := false;
     call := fun _ st => span 1 root_manager root_dispatcher op_B None [] "b" st |}.

(** A dispatcher registered as its own parent, and a handler to add. *)
Definition self_parent : Dispatcher nat :=
  {| name := "loop"; event_handlers := [tracer_eh]; span_handlers := [tracer_sh];
     parent_name := "loop"; manager := true; root_name := "root";
     propagate := true |}.

Definition audit_eh : BaseEventHandler nat :=
  {| eh_name := "audit"; handle := fun _ _ => None |}.

(** Handlers and the dispatcher of [async_utils], for the decorated
    [run_jobs]. *)
Definition span_tracer : BaseSpanHandler (Traced.Value nat) :=
  {| sh_name := "tracer";
     sh_span_enter := fun _ _ _ _ _ => None;
     sh_span_drop := fun _ _ _ _ _ => None;
     sh_span_exit := fun _ _ _ _ _ => None |}.

Definition event_tracer : BaseEventHandler (Traced.Value nat) :=
  {| eh_name := "events"; handle := fun _ _ => None |}.

Definition async_utils_dispatcher : Dispatcher (Traced.Value nat) :=
  {| name := "llama_index.core.async_utils";
     event_handlers := [event_tracer]; span_handlers := [span_tracer];
     parent_name := "root"; manager := true; root_name := "root";
     propagate := false |}.

Definition in_query : Ctx (Traced.Value nat) :=
  {| active_span_id := Some "query-0"; log := [] |}.

Definition worker_uuids (i : nat) : string :=
  match i with
  | 0 => "w0"
  | 1 => "w1"
  | _ => "w2"
  end.

(** Uuids that differ from worker to worker. *)
Fixpoint tally (i : nat) : string :=
  match i with
  | 0 => "w"
  | S n => ("i" ++ tally n)%string
  end.

End Fixtures.

(** * Properties of async_utils.py *)
Module AsyncUtilsTheory.
Import AsyncUtils.
Section Props.

Context {T : Type}.
Implicit Types (l : Loop T) (t : Task T) (job : Job T) (ts : list (Task T)).
Implicit Types (jobs : list (Job T)) (sched : list nat) (W : Z).

(** *** Counting under an in-place update *)

Lemma count_insert (p : Task T -> bool) ts i t t' :
  ts !! i = Some t ->
  count p (<[i := t']> ts) + (if p t then 1 else 0)
  = count p ts + (if p t' then 1 else 0).
Proof.
  revert i; induction ts as [|a ts IH]; intros [|i] Hi; simplify_eq/=.
  - lia.
  - specialize (IH _ Hi). lia.
Qed.

Lemma total_work_insert ts i t t' :
  ts !! i = Some t ->
  total_work (<[i := t']> ts) + work t = total_work ts + work t'.
Proof.
  revert i; induction ts as [|a ts IH]; intros [|i] Hi; simplify_eq/=.
  - lia.
  - specialize (IH _ Hi). lia.
Qed.

Lemma count_le p ts : count p ts <= length ts.
Proof. induction ts as [|a ts IH]; simpl; [lia|]. destruct (p a); lia. Qed.

Lemma count_full p ts : count p ts = length ts -> Forall (fun t => p t = true) ts.
Proof.
  induction ts as [|a ts IH]; simpl; intros Hc; [constructor|].
  pose proof (count_le p ts).
  destruct (p a) eqn:Ha; [|lia].
  constructor; [done|]. apply IH. lia.
Qed.

Lemma count_none p ts : Forall (fun t => p t = false) ts -> count p ts = 0.
Proof. induction 1 as [|a ts Ha _ IH]; simpl; [done|]. by rewrite Ha, IH. Qed.

Lemma all_done_Forall l :
  all_done l = true <-> Forall (fun t => is_done t = true) (children l).
Proof.
  unfold all_done. rewrite forallb_forall, Forall_forall.
  split; intros H x Hx; apply H; by apply list_elem_of_In.
Qed.

Lemma total_work_zero ts :
  total_work ts = 0 -> Forall (fun t => is_done t = true) ts.
Proof.
  induction ts as [|a ts IH]; simpl; intros Hw; [constructor|].
  constructor; [destruct a; simpl in *; done || lia | apply IH; lia].
Qed.

(** *** The schedule *)

Lemma exec_app s1 s2 l : exec (s1 ++ s2) l = exec s2 (exec s1 l).
Proof. revert l; induction s1 as [|i s1 IH]; intros l; simpl; [done|apply IH]. Qed.

(** Once [outer] is resolved no callback touches it again. *)
Lemma outer_step_stable l i l' :
  step l i = Some l' -> outer l <> Pending -> outer l' = outer l.
Proof.
  unfold step, done_callback. intros Hs Hp.
  destruct (children l !! i) as [[job|p [|k] job|r]|]; simplify_eq/=; try done.
  - destruct (0 <? sem_value l)%Z; by simplify_eq/=.
  - by destruct (outer l).
Qed.

Lemma outer_exec_stable sched l :
  outer l <> Pending -> outer (exec sched l) = outer l.
Proof.
  revert l; induction sched as [|i sched IH]; intros l Hp; simpl; [done|].
  destruct (step l i) as [l'|] eqn:Hs; simpl; [|by apply IH].
  pose proof (outer_step_stable _ _ _ Hs Hp) as E.
  rewrite IH; [done|congruence].
Qed.

(** Every resumption uses up one unit of work. *)
Lemma step_work l i l' :
  step l i = Some l' ->
  S (total_work (children l')) = total_work (children l).
Proof.
  unfold step, done_callback. intros Hs.
  destruct (children l !! i) as [[job|p [|k] job|r]|] eqn:Hi; simplify_eq/=.
  - destruct (0 <? sem_value l)%Z; simplify_eq/=.
    pose proof (total_work_insert _ _ _ (Running true (suspensions job) job) Hi).
    simpl in *. lia.
  - pose proof (total_work_insert _ _ _ (Done (outcome job)) Hi).
    destruct (outer l), (outcome job); simpl in *; repeat case_match; simpl in *; lia.
  - pose proof (total_work_insert _ _ _ (Running p k job) Hi). simpl in *. lia.
Qed.

(** *** The invariant of a [run_jobs] call *)

Lemma ensure_futures_workers jobs :
  ensure_futures (map Some (map worker jobs)) = (map Blocked jobs, None).
Proof. induction jobs as [|job jobs IH]; simpl; [done|]. by rewrite IH. Qed.

Lemma count_blocked p jobs :
  (forall job, p (Blocked job) = false) -> count p (map Blocked jobs) = 0.
Proof. intros Hp. induction jobs as [|job jobs IH]; simpl; [done|]. by rewrite Hp, IH. Qed.

Lemma run_jobs_unfold jobs W sched :
  (0 <= W)%Z -> run_jobs jobs W sched = Return (exec sched (submitted jobs W)).
Proof.
  intros HW. unfold run_jobs, Semaphore, gather.
  destruct (W <? 0)%Z eqn:E; [lia|].
  rewrite ensure_futures_workers. unfold submitted. by destruct jobs.
Qed.

Lemma submitted_consistent jobs W : (0 <= W)%Z -> consistent jobs W (submitted jobs W).
Proof.
  intros HW. split; simpl.
  - induction jobs; simpl; constructor; simpl; auto.
  - unfold running; simpl. rewrite count_blocked by done. lia.
  - done.
  - by rewrite count_blocked.
  - unfold outer_ok; simpl. destruct jobs as [|job jobs]; simpl.
    + repeat split; constructor.
    + split; [lia|]. constructor; [done|].
      apply Forall_forall. intros t Ht e ->.
      apply list_elem_of_fmap in Ht as (? & ? & ?). done.
Qed.

Lemma tracks_done_results jobs ts :
  Forall2 tracks jobs ts -> Forall (fun t => is_done t = true) ts ->
  map fut_result ts = map outcome jobs.
Proof.
  induction 1 as [|job t jobs ts Ht _ IH]; intros Hd; simpl; [done|].
  inversion Hd; subst. rewrite IH by done.
  destruct t; simplify_eq/=. done.
Qed.

Lemma tracks_done_returns jobs ts :
  Forall2 tracks jobs ts -> Forall (fun t => is_done t = true) ts ->
  Forall (fun t => forall e, t <> Done (Raise e)) ts ->
  Forall (fun job => is_return (outcome job) = true) jobs.
Proof.
  induction 1 as [|job t jobs ts Ht _ IH]; intros Hd Hr; [constructor|].
  inversion Hd; inversion Hr; subst. constructor; [|by apply IH].
  destruct t; simplify_eq/=. destruct (outcome job) eqn:E; [done|].
  exfalso. by eapply H5.
Qed.

(** A resumption keeps the invariant. *)
Lemma step_consistent jobs W l i l' :
  consistent jobs W l -> step l i = Some l' -> consistent jobs W l'.
Proof.
  intros [Htr Hpm Hnn Hnf Hout] Hs. unfold step in Hs.
  destruct (children l !! i) as [t|] eqn:Hi; [|done].
  destruct (Forall2_lookup_r _ _ _ _ _ Htr Hi) as (job0 & Hj & Ht).
  assert (Hins : forall t', tracks job0 t' ->
             Forall2 tracks jobs (<[i := t']> (children l))).
  { intros t' Ht'. rewrite <- (list_insert_id jobs i job0) by done.
    by apply Forall2_insert. }
  pose proof (fun t' => count_insert holds_permit _ _ _ t' Hi) as Hcp.
  pose proof (fun t' => count_insert is_done _ _ _ t' Hi) as Hcd.
  destruct t as [job|p [|k] job|r]; simpl in Ht; [| | |done].
  - (* acquire *)
    subst job0. destruct (0 <? sem_value l)%Z eqn:Hv; [|done]. simplify_eq.
    specialize (Hcp (Running true (suspensions job) job)).
    specialize (Hcd (Running true (suspensions job) job)).
    split; simpl.
    + by apply Hins.
    + unfold running in *; simpl in *. lia.
    + lia.
    + simpl in *. lia.
    + unfold outer_ok in *; simpl. destruct (outer l) as [|rs|e].
      * destruct Hout as [Hlt Hnr]. rewrite length_insert. split; [done|].
        by apply Forall_insert.
      * destruct Hout as (_ & Hd & _).
        rewrite Forall_lookup in Hd. by specialize (Hd _ _ Hi).
      * destruct Hout as (i0 & j0 & ? & ? & Hc). exists i0, j0.
        repeat split; try done.
        rewrite list_lookup_insert_ne; [done|]. intros ->. congruence.
  - (* the job finishes *)
    subst job0. simplify_eq.
    specialize (Hcp (Done (outcome job))).
    specialize (Hcd (Done (outcome job))).
    assert (Htr' := Hins (Done (outcome job)) eq_refl).
    unfold done_callback; cbn [outer nfinished children sem_value].
    set (d := (if p then 1 else 0)%Z).
    replace (if p then (sem_value l + 1)%Z else sem_value l)
      with (sem_value l + d)%Z by (subst d; destruct p; lia).
    assert (Hpd : (0 <= d)%Z
                 /\ (Z.of_nat (count holds_permit
                                 (<[i:=Done (outcome job)]> (children l))) + d
                     = Z.of_nat (count holds_permit (children l)))%Z)
      by (subst d; destruct p; simpl in Hcp; lia).
    clearbody d. clear Hcp.
    unfold outer_ok in Hout. destruct (outer l) as [|rs|e] eqn:Ho.
    + destruct Hout as [Hlt Hnr].
      destruct (outcome job) as [v|exc] eqn:Hoc; rewrite ?Hoc in *.
      * destruct (Nat.eqb_spec (S (nfinished l))
                    (length (<[i:=Done (Return v)]> (children l)))) as [Hn|Hn].
        -- assert (Hall : Forall (fun t => is_done t = true)
                            (<[i:=Done (Return v)]> (children l))).
           { apply count_full. simpl in *. lia. }
           split; simpl; [done|unfold running in *; simpl in *; lia|lia
                         |simpl in *; lia|].
           unfold outer_ok; simpl. split; [|split; [done|]].
           ++ by apply tracks_done_results.
           ++ eapply tracks_done_returns; [done|done|].
              by apply Forall_insert.
        -- split; simpl; [done|unfold running in *; simpl in *; lia|lia
                         |simpl in *; lia|].
           unfold outer_ok; simpl. split.
           ++ pose proof (count_le is_done (<[i:=Done (Return v)]> (children l))).
              simpl in *. lia.
           ++ by apply Forall_insert.
      * split; simpl; [done|unfold running in *; simpl in *; lia|lia
                      |simpl in *; lia|].
        unfold outer_ok; simpl. exists i, job. repeat split; try done.
        apply list_lookup_insert_eq. by eapply lookup_lt_Some.
    + destruct Hout as (_ & Hd & _).
      rewrite Forall_lookup in Hd. by specialize (Hd _ _ Hi).
    + split; simpl; [done|unfold running in *; simpl in *; lia|lia
                    |simpl in *; lia|].
      unfold outer_ok; simpl.
      destruct Hout as (i0 & j0 & ? & ? & Hc). exists i0, j0.
      repeat split; try done.
      rewrite list_lookup_insert_ne; [done|]. intros ->. congruence.
  - (* the job resumes and suspends again *)
    subst job0. simplify_eq.
    assert (count holds_permit (<[i:=Running p k job]> (children l))
            = count holds_permit (children l)) as Hcp'
      by (specialize (Hcp (Running p k job)); destruct p; simpl in Hcp; lia).
    clear Hcp.
    specialize (Hcd (Running p k job)).
    split; simpl.
    + by apply Hins.
    + unfold running in *; simpl in *. lia.
    + done.
    + simpl in *. lia.
    + unfold outer_ok in *; simpl. destruct (outer l) as [|rs|e].
      * destruct Hout as [Hlt Hnr]. rewrite length_insert. split; [done|].
        by apply Forall_insert.
      * destruct Hout as (_ & Hd & _).
        rewrite Forall_lookup in Hd. by specialize (Hd _ _ Hi).
      * destruct Hout as (i0 & j0 & ? & ? & Hc). exists i0, j0.
        repeat split; try done.
        rewrite list_lookup_insert_ne; [done|]. intros ->. congruence.
Qed.

Lemma exec_consistent jobs W sched l :
  consistent jobs W l -> consistent jobs W (exec sched l).
Proof.
  revert l; induction sched as [|i sched IH]; intros l Hc; simpl; [done|].
  apply IH. destruct (step l i) eqn:Hs; simpl; [|done].
  by eapply step_consistent.
Qed.

(** A resumption puts only running or finished tasks in place, and a
    worker's job never runs without a permit. *)
Lemma step_children (P : Task T -> Prop) l i l' :
  (forall permit k job, P (Running permit (S k) job) -> P (Running permit k job)) ->
  (forall job, P (Blocked job) -> P (Running true (suspensions job) job)) ->
  (forall r, P (Done r)) ->
  Forall P (children l) -> step l i = Some l' -> Forall P (children l').
Proof.
  intros Hrun Hacq Hdone Hall Hs. unfold step in Hs.
  destruct (children l !! i) as [t|] eqn:Hi; [|done].
  pose proof (proj1 (Forall_lookup _ _) Hall _ _ Hi) as Ht.
  destruct t as [job|p [|k] job|r]; [| | |done].
  - destruct (0 <? sem_value l)%Z; [|done]. simplify_eq. simpl.
    apply Forall_insert; auto.
  - simplify_eq. unfold done_callback; simpl.
    destruct (outer l), (outcome job); simpl; repeat case_match; simpl;
      apply Forall_insert; auto.
  - simplify_eq. simpl. apply Forall_insert; auto.
Qed.

Lemma exec_children (P : Task T -> Prop) sched : forall l,
  (forall permit k job, P (Running permit (S k) job) -> P (Running permit k job)) ->
  (forall job, P (Blocked job) -> P (Running true (suspensions job) job)) ->
  (forall r, P (Done r)) ->
  Forall P (children l) -> Forall P (children (exec sched l)).
Proof.
  induction sched as [|i sched IH]; intros l Hrun Hacq Hdone Hall; simpl; [done|].
  apply IH; try done. destruct (step l i) eqn:Hs; simpl; [|done].
  by eapply step_children.
Qed.

Lemma exec_permitted sched l :
  Forall (fun t => permitted t = true) (children l) ->
  Forall (fun t => permitted t = true) (children (exec sched l)).
Proof. apply exec_children; try done; by intros []. Qed.

Lemma exec_unblocked sched l :
  Forall (fun t => is_blocked t = false) (children l) ->
  Forall (fun t => is_blocked t = false) (children (exec sched l)).
Proof. apply exec_children; done. Qed.

(** *** Progress: with a permit to hand out the loop never gets stuck *)

Lemma find_task (p : Task T -> bool) ts :
  (exists i t, ts !! i = Some t /\ p t = true) \/ Forall (fun t => p t = false) ts.
Proof.
  induction ts as [|a ts [(i & t & Hi & Hp)|IH]].
  - right; constructor.
  - left. by exists (S i), t.
  - destruct (p a) eqn:Ha.
    + left. by exists 0, a.
    + right. by constructor.
Qed.

Lemma count_all p ts : Forall (fun t => p t = true) ts -> count p ts = length ts.
Proof. induction 1 as [|a ts Ha _ IH]; simpl; [done|]. by rewrite Ha, IH. Qed.

Lemma progress jobs W l :
  consistent jobs W l ->
  (1 <= W)%Z \/ Forall (fun t => is_blocked t = false) (children l) ->
  all_done l = false ->
  exists i l', step l i = Some l'.
Proof.
  intros Hc HW Hnd.
  destruct (find_task is_running (children l)) as [(i & t & Hi & Hr)|Hnr].
  { exists i. unfold step. rewrite Hi.
    destruct t as [|p [|k] job|]; simplify_eq/=; eauto. }
  destruct (find_task is_blocked (children l)) as [(i & t & Hi & Hb)|Hnb].
  { destruct HW as [HW|Hub].
    2: { rewrite Forall_lookup in Hub. specialize (Hub _ _ Hi). congruence. }
    exists i. unfold step. rewrite Hi. destruct t as [job| |]; simplify_eq/=.
    assert (running l = 0) as Hrun.
    { apply count_none. eapply Forall_impl; [exact Hnr|].
      intros [] ?; simplify_eq/=; done. }
    pose proof (c_permits _ _ _ Hc). rewrite Hrun in *.
    destruct (0 <? sem_value l)%Z eqn:E; [eauto|lia]. }
  exfalso. apply not_true_iff_false in Hnd. apply Hnd, all_done_Forall.
  rewrite Forall_forall in *. intros t Ht.
  specialize (Hnr _ Ht). specialize (Hnb _ Ht). by destruct t.
Qed.

Lemma run_to_completion jobs W n : forall l,
  (1 <= W)%Z \/ Forall (fun t => is_blocked t = false) (children l) ->
  total_work (children l) = n -> consistent jobs W l ->
  exists more, all_done (exec more l) = true.
Proof.
  induction n as [|n IH]; intros l HW Hn Hc.
  - exists []. simpl. by apply all_done_Forall, total_work_zero.
  - destruct (all_done l) eqn:Hd; [by exists []|].
    destruct (progress _ _ _ Hc HW Hd) as (i & l' & Hs).
    destruct (IH l') as [more Hm]; [| |by eapply step_consistent|].
    { destruct HW as [HW|Hub]; [by left|right].
      apply (exec_unblocked [i]) in Hub. simpl in Hub. by rewrite Hs in Hub. }
    { pose proof (step_work _ _ _ Hs). lia. }
    exists (i :: more). simpl. by rewrite Hs.
Qed.

Lemma all_done_resolved jobs W l :
  consistent jobs W l -> all_done l = true -> outer l <> Pending.
Proof.
  intros Hc Hd Hp. pose proof (c_outer _ _ _ Hc) as Ho.
  unfold outer_ok in Ho. rewrite Hp in Ho. destruct Ho as [Hlt _].
  rewrite (c_nfinished _ _ _ Hc) in Hlt.
  rewrite count_all in Hlt by by apply all_done_Forall. lia.
Qed.

Lemma resolved_with_results jobs W l :
  consistent jobs W l ->
  Forall (fun job => is_return (outcome job) = true) jobs ->
  outer l = Pending \/ outer l = Returned (map outcome jobs).
Proof.
  intros Hc Hok. pose proof (c_outer _ _ _ Hc) as Ho. unfold outer_ok in Ho.
  destruct (outer l) as [|rs|e]; [by left|right|exfalso].
  - by destruct Ho as [-> _].
  - destruct Ho as (i & job & Hj & He & _).
    rewrite Forall_lookup in Hok. specialize (Hok _ _ Hj). by rewrite He in Hok.
Qed.

(** With no permit nothing is ever admitted. *)
Lemma exec_no_permit jobs sched :
  exec sched (submitted jobs 0) = submitted jobs 0.
Proof.
  induction sched as [|i sched IH]; simpl; [done|].
  replace (step (submitted jobs 0) i) with (@None (Loop T)); [done|].
  unfold step; simpl. rewrite list_lookup_fmap.
  by destruct (jobs !! i).
Qed.

(** *** [run_jobs] *)

(** C2.  When every job succeeds, whatever the order in which the loop
    resumes the workers (hence whatever the order in which jobs finish),
    [run_jobs] can only return the outcomes of the jobs in submission
    order; every run can be continued until it does; the result has the
    length of the job list and its i-th element belongs to the i-th job;
    and for no jobs the empty result is there before anything runs.
    The worker count is a valid one (at least 1). *)
Theorem run_jobs_results_in_submission_order jobs W :
  (1 <= W)%Z ->
  Forall (fun job => is_return (outcome job) = true) jobs ->
  (forall sched,
      awaited (run_jobs jobs W sched) = Pending
      \/ awaited (run_jobs jobs W sched) = Returned (map outcome jobs))
  /\ (forall sched, exists more,
         awaited (run_jobs jobs W (sched ++ more)) = Returned (map outcome jobs))
  /\ length (map outcome jobs) = length jobs
  /\ (forall i job, jobs !! i = Some job ->
                    map outcome jobs !! i = Some (outcome job))
  /\ awaited (run_jobs (@nil (Job T)) W []) = Returned [].
Proof.
  intros HW Hok.
  assert (Hinv : forall sched, consistent jobs W (exec sched (submitted jobs W))).
  { intros sched. apply exec_consistent, submitted_consistent. lia. }
  repeat split.
  - intros sched. rewrite run_jobs_unfold by lia. simpl.
    by eapply resolved_with_results.
  - intros sched.
    destruct (run_to_completion jobs W _ (exec sched (submitted jobs W))
                (or_introl HW) eq_refl (Hinv sched)) as [more Hd].
    exists more. rewrite run_jobs_unfold by lia. simpl.
    rewrite exec_app in *.
    assert (Hc : consistent jobs W (exec more (exec sched (submitted jobs W)))).
    { by rewrite <- exec_app. }
    destruct (resolved_with_results _ _ _ Hc Hok) as [Hp|Hr]; [|done].
    by destruct (all_done_resolved _ _ _ Hc Hd).
  - by rewrite length_map.
  - intros i job Hj. by rewrite list_lookup_fmap, Hj.
  - rewrite run_jobs_unfold by lia. done.
Qed.

(** C3.  For a worker count W of at least 1 and any schedule, the
    number of jobs in their running phase never exceeds W: a child is
    only ever running with a permit, the permits handed out and the
    permits left always add up to W, and once every job has finished
    (returned or raised) all W permits are back. *)
Theorem run_jobs_bounded_concurrency jobs W sched :
  (1 <= W)%Z ->
  exists l, run_jobs jobs W sched = Return l
    /\ (Z.of_nat (running l) <= W)%Z
    /\ (sem_value l + Z.of_nat (running l) = W)%Z
    /\ (forall i permit k job,
           children l !! i = Some (Running permit k job) -> permit = true)
    /\ (all_done l = true -> sem_value l = W).
Proof.
  intros HW. exists (exec sched (submitted jobs W)).
  assert (Hc : consistent jobs W (exec sched (submitted jobs W))).
  { apply exec_consistent, submitted_consistent. lia. }
  destruct Hc as [Htr Hpm Hnn _ _].
  split; [apply run_jobs_unfold; lia|].
  split; [lia|]. split; [done|]. split.
  - intros i permit k job Hi.
    assert (Hp : Forall (fun t => permitted t = true)
                   (children (exec sched (submitted jobs W)))).
    { apply exec_permitted. simpl. apply Forall_forall. intros t Ht.
      apply list_elem_of_fmap in Ht as (? & -> & ?). done. }
    rewrite Forall_lookup in Hp. specialize (Hp _ _ Hi). by destruct permit.
  - intros Hd. apply all_done_Forall in Hd.
    assert (running (exec sched (submitted jobs W)) = 0) as Hr.
    { apply count_none. eapply Forall_impl; [exact Hd|].
      intros [] ?; simplify_eq/=; done. }
    lia.
Qed.

(** C4, as the code has it.  A negative worker count is refused by the
    semaphore's constructor, before any job is submitted, whatever the
    job list is.  A worker count of zero is not refused: the jobs are
    submitted, none is ever admitted, and the call stays pending under
    every schedule; with no job at all it returns the empty list. *)
Theorem run_jobs_nonpositive_workers jobs W sched :
  (W <= 0)%Z ->
  ((W < 0)%Z ->
     run_jobs jobs W sched
     = Raise (ValueError "Semaphore initial value must be >= 0"))
  /\ (W = 0%Z -> jobs <> [] ->
        run_jobs jobs W sched = Return (submitted jobs 0)
        /\ awaited (run_jobs jobs W sched) = Pending
        /\ running (submitted jobs 0) = 0
        /\ Forall (fun t => is_blocked t = true) (children (submitted jobs 0)))
  /\ (W = 0%Z -> jobs = [] -> awaited (run_jobs jobs W sched) = Returned []).
Proof.
  intros HW. split; [|split].
  - intros Hneg. unfold run_jobs, Semaphore.
    by destruct (W <? 0)%Z eqn:E; [|lia].
  - intros -> Hne. rewrite run_jobs_unfold by lia. rewrite exec_no_permit.
    repeat split.
    + simpl. by destruct jobs.
    + unfold running; simpl. by apply count_blocked.
    + simpl. apply Forall_forall. intros t Ht.
      apply list_elem_of_fmap in Ht as (? & -> & ?). done.
  - intros -> ->. rewrite run_jobs_unfold by lia. by rewrite exec_no_permit.
Qed.

(** *** The loop turn by turn *)

Lemma Loop_eq l l' :
  sem_value l = sem_value l' -> children l = children l' ->
  nfinished l = nfinished l' -> outer l = outer l' -> l = l'.
Proof. destruct l, l'; simpl; congruence. Qed.

Lemma turns_app tns1 tns2 (s : Ready T) :
  turns (tns1 ++ tns2) s = turns tns2 (turns tns1 s).
Proof. apply fold_left_app. Qed.

Lemma resumed_app tns1 tns2 : resumed (tns1 ++ tns2) = resumed tns1 ++ resumed tns2.
Proof. apply omap_app. Qed.

Lemma resumed_Resume sched : resumed (map Resume sched) = sched.
Proof. induction sched as [|i sched IH]; simpl; [done|]. by rewrite IH. Qed.

(** [step] is the resumption with its callback run at once. *)
Lemma step_resume_task l i :
  step l i = match resume_task l i with
             | None => None
             | Some (l', None) => Some l'
             | Some (l', Some r) => Some (done_callback l' r)
             end.
Proof.
  unfold step, resume_task.
  destruct (children l !! i) as [[job|p [|k] job|r]|]; try done.
  by destruct (0 <? sem_value l)%Z.
Qed.

(** Callbacks leave the semaphore and the children alone and count. *)
Lemma callbacks_frame (q : list (Result T)) : forall l,
  sem_value (fold_left done_callback q l) = sem_value l
  /\ children (fold_left done_callback q l) = children l
  /\ nfinished (fold_left done_callback q l) = nfinished l + length q.
Proof.
  induction q as [|r q IH]; intros l; simpl; [repeat split; lia|].
  destruct (IH (done_callback l r)) as (-> & -> & ->).
  unfold done_callback.
  destruct (outer l), r; simpl; repeat case_match; simpl; repeat split; lia.
Qed.

Lemma done_callback_frame l (r : Result T) :
  sem_value (done_callback l r) = sem_value l
  /\ children (done_callback l r) = children l
  /\ nfinished (done_callback l r) = S (nfinished l).
Proof.
  unfold done_callback.
  destruct (outer l), r; simpl; repeat case_match; simpl; done.
Qed.

(** Before the last child is resolved a callback does not read the
    children: it goes the same way on any children of the same number. *)
Lemma callbacks_outer (q : list (Result T)) : forall l l',
  nfinished l = nfinished l' -> outer l = outer l' ->
  length (children l) = length (children l') ->
  nfinished l + length q < length (children l) ->
  outer (fold_left done_callback q l') = outer (fold_left done_callback q l).
Proof.
  induction q as [|r q IH]; intros l l' Hn Ho Hl Hlt; simpl in *; [done|].
  destruct (done_callback_frame l r) as (_ & Hc & Hf).
  destruct (done_callback_frame l' r) as (_ & Hc' & Hf').
  apply IH.
  - by rewrite Hf, Hf', Hn.
  - unfold done_callback. rewrite <- Ho, <- Hl, <- Hn.
    destruct (outer l) eqn:E, r; try done.
    destruct (Nat.eqb_spec (S (nfinished l)) (length (children l))); [lia|done].
  - by rewrite Hc, Hc'.
  - rewrite Hc, Hf. lia.
Qed.

(** Once [outer] is resolved the callbacks leave it as it is. *)
Lemma callbacks_resolved (q : list (Result T)) : forall l,
  outer l <> Pending -> outer (fold_left done_callback q l) = outer l.
Proof.
  induction q as [|r q IH]; intros l Hp; simpl; [done|].
  assert (outer (done_callback l r) = outer l) as E.
  { unfold done_callback. by destruct (outer l). }
  rewrite IH; [done|congruence].
Qed.

(** Callbacks of futures that hold a result leave a pending [outer]
    pending as long as a child is still to be resolved. *)
Lemma callbacks_returns (q : list (Result T)) : forall l,
  outer l = Pending -> Forall (fun r => is_return r = true) q ->
  nfinished l + length q < length (children l) ->
  outer (fold_left done_callback q l) = Pending.
Proof.
  induction q as [|r q IH]; intros l Hp Hq Hlt; simpl in *; [done|].
  inversion Hq as [|? ? Hr Hq']; subst.
  destruct r as [v|e]; [|done].
  assert (done_callback l (Return v)
          = {| sem_value := sem_value l; children := children l;
               nfinished := S (nfinished l); outer := Pending |}) as ->.
  { unfold done_callback. rewrite Hp.
    destruct (Nat.eqb_spec (S (nfinished l)) (length (children l))); [lia|done]. }
  apply IH; simpl; [done|done|lia].
Qed.

Lemma count_not_full (p : Task T -> bool) tns i t :
  tns !! i = Some t -> p t = false -> count p tns < length tns.
Proof.
  revert i; induction tns as [|a tns IH]; intros [|i] Hi Hp; simplify_eq/=.
  - rewrite Hp. pose proof (count_le p tns). lia.
  - specialize (IH _ Hi Hp). destruct (p a); lia.
Qed.

Lemma settled_unfold (s : Ready T) :
  settled s = {| sem_value := sem_value (now s); children := children (now s);
                 nfinished := nfinished (now s) + length (callbacks s);
                 outer := outer (settled s) |}.
Proof.
  unfold settled.
  destruct (callbacks_frame (callbacks s) (now s)) as (Hs & Hc & Hn).
  by apply Loop_eq.
Qed.

(** A resumption that resolves nothing goes through the waiting
    callbacks. *)
Lemma settled_resume (s : Ready T) l' sem' ts' :
  queued s -> length ts' = length (children (now s)) ->
  count is_done (children (now s)) < length (children (now s)) ->
  l' = {| sem_value := sem'; children := ts';
          nfinished := nfinished (now s); outer := outer (now s) |} ->
  fold_left done_callback (callbacks s) l'
  = {| sem_value := sem'; children := ts';
       nfinished := nfinished (settled s); outer := outer (settled s) |}.
Proof.
  intros Hq Hlen Hlt ->.
  destruct (callbacks_frame (callbacks s)
              {| sem_value := sem'; children := ts';
                 nfinished := nfinished (now s); outer := outer (now s) |})
    as (Hs & Hc & Hn).
  destruct (callbacks_frame (callbacks s) (now s)) as (_ & _ & Hn').
  apply Loop_eq; simpl; [done|done|unfold settled; rewrite Hn, Hn'; done|].
  unfold settled. apply callbacks_outer; simpl; [done|done|done|].
  unfold queued in Hq. lia.
Qed.

(** The loop run turn by turn and [exec] agree: once the callbacks that
    wait have run, the turns have done what [exec] does with the
    resumptions among them. *)
Lemma turn_settled (s : Ready T) tn :
  queued s ->
  queued (turn s tn)
  /\ settled (turn s tn) = exec (resumed [tn]) (settled s).
Proof.
  intros Hq. destruct tn as [i| |]; simpl.
  - rewrite step_resume_task.
    destruct (callbacks_frame (callbacks s) (now s)) as (Hs & Hc & Hn).
    unfold resume_task. fold (settled s) in Hs, Hc. rewrite Hs, Hc.
    destruct (children (now s) !! i) as [[job|p [|k] job|r]|] eqn:Hi;
      simpl; try done.
    + destruct (0 <? sem_value (now s))%Z; simpl; [|done].
      pose proof (count_insert is_done _ _ _
                    (Running true (suspensions job) job) Hi) as Hcnt.
      pose proof (count_not_full is_done _ _ _ Hi eq_refl) as Hlt.
      simpl in Hcnt. split.
      * unfold queued in *; simpl. lia.
      * unfold settled at 1; simpl.
        rewrite (settled_resume s _ (sem_value (now s) - 1)%Z
                   (<[i:=Running true (suspensions job) job]> (children (now s))));
          [|done|by rewrite length_insert|done|done].
        done.
    + pose proof (count_insert is_done _ _ _ (Done (outcome job)) Hi) as Hcnt.
      pose proof (count_not_full is_done _ _ _ Hi eq_refl) as Hlt.
      simpl in Hcnt. split.
      * unfold queued in *; simpl. rewrite length_app; simpl. lia.
      * unfold settled at 1; simpl. rewrite fold_left_app; simpl.
        rewrite (settled_resume s _
                   (if p then (sem_value (now s) + 1)%Z else sem_value (now s))
                   (<[i:=Done (outcome job)]> (children (now s))));
          [|done|by rewrite length_insert|done|done].
        done.
    + pose proof (count_insert is_done _ _ _ (Running p k job) Hi) as Hcnt.
      pose proof (count_not_full is_done _ _ _ Hi eq_refl) as Hlt.
      simpl in Hcnt. split.
      * unfold queued in *; simpl. lia.
      * unfold settled at 1; simpl.
        rewrite (settled_resume s _ (sem_value (now s))
                   (<[i:=Running p k job]> (children (now s))));
          [|done|by rewrite length_insert|done|done].
        done.
  - destruct (callbacks s) as [|r q] eqn:Hcb; [done|]. split; [|by unfold settled; simpl; rewrite Hcb].
    unfold queued in *; simpl. rewrite Hcb in Hq; simpl in Hq.
    unfold done_callback.
    destruct (outer (now s)), r; simpl; repeat case_match; simpl; lia.
  - by destruct (delivered s).
Qed.

Lemma turns_settled tns : forall (s : Ready T),
  queued s ->
  queued (turns tns s) /\ settled (turns tns s) = exec (resumed tns) (settled s).
Proof.
  induction tns as [|tn tns IH]; intros s Hq; [done|].
  destruct (turn_settled s tn Hq) as [Hq' Hs'].
  destruct (IH _ Hq') as [Hq'' Hs'']. split; [done|].
  change (turns (tn :: tns) s) with (turns tns (turn s tn)). rewrite Hs'', Hs'.
  change (tn :: tns) with ([tn] ++ tns). by rewrite resumed_app, exec_app.
Qed.

(** What the caller has got is what [outer] holds. *)
Lemma turn_handed_over (s : Ready T) tn : handed_over s -> handed_over (turn s tn).
Proof.
  unfold handed_over. intros Hd. destruct tn as [i| |]; simpl.
  - unfold resume_task.
    destruct (children (now s) !! i) as [[job|p [|k] job|r]|]; simpl; try done.
    by destruct (0 <? sem_value (now s))%Z.
  - destruct (callbacks s) as [|r q]; [done|]. simpl. intros Hp.
    rewrite (Hd Hp). unfold done_callback.
    rewrite (Hd Hp) in Hp. by destruct (outer (now s)).
  - destruct (delivered s) eqn:E; simpl; [done| |];
      rewrite E; exact Hd.
Qed.

Lemma turns_handed_over tns : forall (s : Ready T),
  handed_over s -> handed_over (turns tns s).
Proof.
  induction tns as [|tn tns IH]; intros s Hd; [done|].
  by apply IH, turn_handed_over.
Qed.

(** What the caller has got stays. *)
Lemma turns_delivered tns : forall (s : Ready T),
  delivered s <> Pending -> delivered (turns tns s) = delivered s.
Proof.
  induction tns as [|tn tns IH]; intros s Hp; [done|].
  assert (delivered (turn s tn) = delivered s) as E.
  { destruct tn as [i| |]; simpl.
    - destruct (resume_task (now s) i) as [[l [r|]]|]; done.
    - by destruct (callbacks s).
    - destruct (delivered s) eqn:E; [by destruct Hp|done|done]. }
  change (turns (tn :: tns) s) with (turns tns (turn s tn)).
  rewrite IH; [done|congruence].
Qed.

(** The callbacks that wait, run one after the other. *)
Lemma turns_callbacks (s : Ready T) :
  turns (repeat Callback (length (callbacks s))) s
  = {| now := settled s; callbacks := []; delivered := delivered s |}.
Proof.
  destruct s as [l q d]. unfold settled; simpl. revert l.
  induction q as [|r q IH]; intros l; [done|]. simpl. apply IH.
Qed.

Lemma done_callback_raise l e :
  outer l = Pending -> outer (done_callback l (Raise e)) = Raised e.
Proof. unfold done_callback. by intros ->. Qed.

Lemma children_settled (s : Ready T) : children (settled s) = children (now s).
Proof. unfold settled. by destruct (callbacks_frame (callbacks s) (now s)) as (_ & -> & _). Qed.

Lemma tracks_done_children jobs ts :
  Forall2 tracks jobs ts -> Forall (fun t => is_done t = true) ts ->
  ts = map (fun job => Done (outcome job)) jobs.
Proof.
  induction 1 as [|job t jobs ts Ht _ IH]; intros Hd; [done|].
  inversion Hd as [|? ? Hdt Hd']; subst. simpl.
  rewrite <- IH by done. destruct t; simplify_eq/=. done.
Qed.

Lemma run_jobs_turns_unfold jobs W tns :
  (0 <= W)%Z ->
  run_jobs_turns jobs W tns = Return (turns tns (await_outer (submitted jobs W))).
Proof.
  intros HW. unfold run_jobs_turns, Semaphore, gather.
  destruct (W <? 0)%Z eqn:E; [lia|].
  rewrite ensure_futures_workers. unfold submitted. by destruct jobs.
Qed.

(** Where a [run_jobs] call stands after any turns: the callbacks are
    accounted for, the caller has what [outer] holds or nothing, and with
    the waiting callbacks run the state is the one [exec] gives. *)
Lemma run_jobs_turns_settled jobs W tns :
  (0 <= W)%Z ->
  queued (turns tns (await_outer (submitted jobs W)))
  /\ handed_over (turns tns (await_outer (submitted jobs W)))
  /\ settled (turns tns (await_outer (submitted jobs W)))
     = exec (resumed tns) (submitted jobs W)
  /\ consistent jobs W (settled (turns tns (await_outer (submitted jobs W)))).
Proof.
  intros HW.
  assert (Hq0 : queued (await_outer (submitted jobs W))).
  { unfold queued; simpl. by rewrite count_blocked. }
  destruct (turns_settled tns _ Hq0) as [Hq Hs].
  split; [done|]. split; [by apply turns_handed_over|].
  split; [done|]. rewrite Hs. by apply exec_consistent, submitted_consistent.
Qed.

(** Once [outer] is resolved no turn changes it. *)
Lemma turns_outer_resolved tns : forall (s : Ready T),
  outer (now s) <> Pending -> outer (now (turns tns s)) = outer (now s).
Proof.
  induction tns as [|tn tns IH]; intros s Hp; [done|].
  assert (outer (now (turn s tn)) = outer (now s)) as E.
  { destruct tn as [i| |]; simpl.
    - unfold resume_task.
      destruct (children (now s) !! i) as [[job|p [|k] job|r]|]; simpl; try done.
      by destruct (0 <? sem_value (now s))%Z.
    - destruct (callbacks s) as [|r q]; [done|]. simpl.
      unfold done_callback. by destruct (outer (now s)).
    - by destruct (delivered s). }
  change (turns (tn :: tns) s) with (turns tns (turn s tn)).
  rewrite IH; [done|congruence].
Qed.

(** The first failure in the queue of callbacks decides: when the
    callbacks before it, all of futures that hold a result, and its own
    have had their turns, [outer] holds its error, whatever other turns
    the loop has taken meanwhile. *)
Lemma turns_verdict e tns : forall (s : Ready T) q1 q2,
  queued s -> outer (now s) = Pending ->
  callbacks s = q1 ++ Raise e :: q2 ->
  Forall (fun r => is_return r = true) q1 ->
  length q1 < callback_turns tns ->
  outer (now (turns tns s)) = Raised e.
Proof.
  induction tns as [|tn tns IH]; intros s q1 q2 Hq Hp Hcb Hq1 Hlt;
    [unfold callback_turns in Hlt; simpl in Hlt; lia|].
  change (turns (tn :: tns) s) with (turns tns (turn s tn)).
  destruct (turn_settled s tn Hq) as [Hq' _].
  destruct tn as [i| |].
  - assert (outer (now (turn s (Resume i))) = Pending
            /\ exists q2', callbacks (turn s (Resume i)) = q1 ++ Raise e :: q2')
      as [Hp' [q2' Hcb']].
    { simpl. unfold resume_task.
      destruct (children (now s) !! i) as [[job|p [|k] job|r]|]; simpl;
        try (split; [done|by exists q2]).
      - destruct (0 <? sem_value (now s))%Z; simpl; split; try done; by exists q2.
      - split; [done|]. exists (q2 ++ [outcome job]).
        by rewrite Hcb, <- app_assoc. }
    by apply (IH _ q1 q2').
  - simpl in *. rewrite Hcb in *. destruct q1 as [|r q1]; simpl in *.
    + rewrite turns_outer_resolved; simpl;
        rewrite (done_callback_raise _ _ Hp); done.
    + inversion Hq1 as [|? ? Hr Hq1']; subst. destruct r as [v|]; [|done].
      assert (Hnow : done_callback (now s) (Return v)
                     = {| sem_value := sem_value (now s);
                          children := children (now s);
                          nfinished := S (nfinished (now s));
                          outer := Pending |}).
      { unfold done_callback. rewrite Hp.
        pose proof (count_le is_done (children (now s))) as Hle.
        unfold queued in Hq. rewrite Hcb in Hq. simpl in Hq.
        rewrite length_app in Hq. simpl in Hq.
        destruct (Nat.eqb_spec (S (nfinished (now s)))
                    (length (children (now s)))); [lia|done]. }
      apply (IH _ q1 q2); simpl; try done.
      * by rewrite Hnow.
      * unfold callback_turns in *. simpl in Hlt. lia.
  - apply (IH _ q1 q2); try done.
    + simpl. by destruct (delivered s).
    + simpl. by destruct (delivered s).
Qed.

(** C5, as the code has it.  When some job raises and the worker count is
    valid, whatever the turns of the loop: the caller of [run_jobs] never
    gets a result sequence; what it gets raised is the unmodified error
    of one of the jobs, and nothing that happens later replaces it.  The
    error of the first job that fails reaches the caller when the
    done-callbacks queued so far and the failed job's own have run and
    the caller has been woken: three kinds of turn of the loop, none of
    them a resumption of another job, which all stay as they are; and
    whatever other turns the loop takes in between, the caller has that
    error after the wake-up that follows those callbacks.  No job
    is cancelled: every child waits for its job, runs it, or holds the
    job's own outcome; every run can be continued until the caller has
    the error and every job has come to its own end; and in whatever
    order the loop takes its turns, once every child is resolved each
    holds its job's own outcome, and once the callbacks have run as well
    [outer] holds the error and a wake-up hands it to the caller. *)
Theorem run_jobs_fail_fast jobs W :
  (1 <= W)%Z ->
  Exists fails jobs ->
  (forall tns s results,
      run_jobs_turns jobs W tns = Return s -> delivered s <> Returned results)
  /\ (forall tns s e,
         run_jobs_turns jobs W tns = Return s -> delivered s = Raised e ->
         (exists i job, jobs !! i = Some job /\ outcome job = Raise e)
         /\ forall more s',
              run_jobs_turns jobs W (tns ++ more) = Return s' ->
              delivered s' = Raised e)
  /\ (forall tns s i permit job e,
         run_jobs_turns jobs W tns = Return s ->
         outer (now s) = Pending ->
         Forall (fun r => is_return r = true) (callbacks s) ->
         children (now s) !! i = Some (Running permit 0 job) ->
         outcome job = Raise e ->
         exists s',
           run_jobs_turns jobs W
             (tns ++ Resume i :: repeat Callback (S (length (callbacks s)))
                  ++ [Wake]) = Return s'
           /\ delivered s = Pending
           /\ delivered s' = Raised e
           /\ forall j, j <> i ->
                        children (now s') !! j = children (now s) !! j)
  /\ (forall tns s i permit job e tns1 tns2 s',
         run_jobs_turns jobs W tns = Return s ->
         outer (now s) = Pending ->
         Forall (fun r => is_return r = true) (callbacks s) ->
         children (now s) !! i = Some (Running permit 0 job) ->
         outcome job = Raise e ->
         length (callbacks s) < callback_turns tns1 ->
         run_jobs_turns jobs W (tns ++ Resume i :: tns1 ++ Wake :: tns2)
         = Return s' ->
         delivered s' = Raised e)
  /\ (forall tns s,
         run_jobs_turns jobs W tns = Return s ->
         Forall2 tracks jobs (children (now s)))
  /\ (forall tns, exists more e s,
         run_jobs_turns jobs W (tns ++ more) = Return s
         /\ delivered s = Raised e
         /\ children (now s) = map (fun job => Done (outcome job)) jobs)
  /\ (forall tns s,
         run_jobs_turns jobs W tns = Return s -> all_done (now s) = true ->
         children (now s) = map (fun job => Done (outcome job)) jobs
         /\ (callbacks s = [] ->
             exists e,
               outer (now s) = Raised e
               /\ forall s', run_jobs_turns jobs W (tns ++ [Wake]) = Return s' ->
                             delivered s' = Raised e)).
Proof.
  intros HW Hbad.
  assert (HW0 : (0 <= W)%Z) by lia.
  assert (Hnr : forall l results, consistent jobs W l -> outer l <> Returned results).
  { intros l results Hc Hr. pose proof (c_outer _ _ _ Hc) as Ho.
    unfold outer_ok in Ho. rewrite Hr in Ho. destruct Ho as (_ & _ & Hall).
    apply Exists_exists in Hbad as (job & Hin & Hf).
    rewrite Forall_forall in Hall. specialize (Hall _ Hin).
    unfold fails in Hf. congruence. }
  assert (Hget : forall tns s,
             run_jobs_turns jobs W tns = Return s -> delivered s <> Pending ->
             outer (settled s) = delivered s).
  { intros tns s Hrun Hp. rewrite run_jobs_turns_unfold in Hrun by done.
    injection Hrun as <-.
    destruct (run_jobs_turns_settled jobs W tns HW0) as (_ & Hd & _).
    unfold settled. rewrite callbacks_resolved; rewrite <- (Hd Hp); done. }
  split; [|split; [|split; [|split; [|split; [|split]]]]].
  - intros tns s results Hrun Hr.
    assert (Hp : delivered s <> Pending) by congruence.
    pose proof (Hget _ _ Hrun Hp) as Ho. rewrite Hr in Ho.
    rewrite run_jobs_turns_unfold in Hrun by done. injection Hrun as <-.
    destruct (run_jobs_turns_settled jobs W tns HW0) as (_ & _ & _ & Hc).
    by apply (Hnr _ results Hc).
  - intros tns s e Hrun Hr.
    assert (Hp : delivered s <> Pending) by congruence.
    pose proof (Hget _ _ Hrun Hp) as Ho. rewrite Hr in Ho.
    rewrite run_jobs_turns_unfold in Hrun by done. injection Hrun as <-.
    destruct (run_jobs_turns_settled jobs W tns HW0) as (_ & _ & _ & Hc).
    split.
    + pose proof (c_outer _ _ _ Hc) as Hok. unfold outer_ok in Hok.
      rewrite Ho in Hok. destruct Hok as (i & job & ? & ? & _). eauto.
    + intros more s'. rewrite run_jobs_turns_unfold by done.
      intros [= <-]. rewrite turns_app, turns_delivered; [done|congruence].
  - intros tns s i permit job e Hrun Hp Hq Hi He.
    rewrite run_jobs_turns_unfold in Hrun by done. injection Hrun as Hs.
    destruct (run_jobs_turns_settled jobs W tns HW0) as (Hqd & Hd & _ & _).
    rewrite Hs in Hqd, Hd.
    assert (Hdp : delivered s = Pending).
    { destruct (delivered s) eqn:E; [done| |];
        unfold handed_over in Hd; rewrite E in Hd;
        rewrite Hp in Hd; by discriminate Hd. }
    eexists. split; [apply run_jobs_turns_unfold; done|].
    rewrite turns_app, Hs.
    change (turns (Resume i :: ?x) s) with (turns x (turn s (Resume i))).
    rewrite turns_app.
    pose proof (count_not_full is_done _ _ _ Hi eq_refl) as Hlt.
    unfold queued in Hqd.
    assert (Hturn : turn s (Resume i)
                    = {| now := {| sem_value := if permit then (sem_value (now s) + 1)%Z
                                                else sem_value (now s);
                                   children := <[i := Done (Raise e)]> (children (now s));
                                   nfinished := nfinished (now s);
                                   outer := Pending |};
                         callbacks := callbacks s ++ [Raise e];
                         delivered := Pending |}).
    { simpl. unfold resume_task. by rewrite Hi, He, Hp, Hdp. }
    rewrite Hturn.
    match goal with |- context [turns (repeat Callback _) ?s1] =>
      pose proof (turns_callbacks s1) as Hcb end.
    simpl callbacks in Hcb. rewrite length_app in Hcb. simpl length in Hcb.
    rewrite Nat.add_1_r in Hcb. rewrite Hcb.
    unfold settled. simpl now. simpl callbacks. rewrite fold_left_app.
    simpl fold_left.
    match goal with |- context [done_callback ?l0 (Raise e)] =>
      assert (Ho : outer l0 = Pending);
        [|destruct (callbacks_frame (callbacks s)
                      {| sem_value := if permit then (sem_value (now s) + 1)%Z
                                      else sem_value (now s);
                         children := <[i := Done (Raise e)]> (children (now s));
                         nfinished := nfinished (now s);
                         outer := Pending |}) as (_ & Hch & _)]
    end.
    { apply callbacks_returns; simpl; [done|done|].
      rewrite length_insert. lia. }
    simpl in Hch.
    split; [done|]. split.
    + simpl. by apply done_callback_raise.
    + intros j Hj. simpl.
      destruct (done_callback_frame
                  (fold_left done_callback (callbacks s)
                     {| sem_value := if permit then (sem_value (now s) + 1)%Z
                                     else sem_value (now s);
                        children := <[i := Done (Raise e)]> (children (now s));
                        nfinished := nfinished (now s);
                        outer := Pending |}) (Raise e)) as (_ & -> & _).
      rewrite Hch. by apply list_lookup_insert_ne.
  - intros tns s i permit job e tns1 tns2 s' Hrun Hp Hq Hi He Hlt.
    rewrite run_jobs_turns_unfold in Hrun by done. injection Hrun as Hs.
    rewrite run_jobs_turns_unfold by done. intros [= <-].
    destruct (run_jobs_turns_settled jobs W tns HW0) as (Hqd & _).
    rewrite Hs in Hqd.
    destruct (run_jobs_turns_settled jobs W (tns ++ Resume i :: tns1) HW0)
      as (_ & Hd2 & _).
    change (tns ++ Resume i :: tns1 ++ Wake :: tns2)
      with (tns ++ (Resume i :: tns1) ++ Wake :: tns2).
    rewrite app_assoc, turns_app.
    set (s2 := turns (tns ++ Resume i :: tns1) (await_outer (submitted jobs W))) in *.
    assert (Ho2 : outer (now s2) = Raised e).
    { unfold s2. rewrite turns_app, Hs.
      change (turns (Resume i :: tns1) s) with (turns tns1 (turn s (Resume i))).
      destruct (turn_settled s (Resume i) Hqd) as [Hq1 _].
      apply (turns_verdict e tns1 _ (callbacks s) []); try done.
      - simpl. unfold resume_task. by rewrite Hi.
      - simpl. unfold resume_task. by rewrite Hi, He. }
    change (turns (Wake :: tns2) s2) with (turns tns2 (turn s2 Wake)).
    assert (Hw : delivered (turn s2 Wake) = Raised e).
    { unfold handed_over in Hd2. simpl.
      destruct (delivered s2) eqn:Ed; simpl; [done| |];
        rewrite Ed, <- Ho2; apply Hd2; done. }
    rewrite turns_delivered; [done|congruence].
  - intros tns s Hrun.
    rewrite run_jobs_turns_unfold in Hrun by done. injection Hrun as <-.
    destruct (run_jobs_turns_settled jobs W tns HW0) as (_ & _ & _ & Hc).
    rewrite <- children_settled. apply (c_tracks _ _ _ Hc).
  - intros tns.
    destruct (run_jobs_turns_settled jobs W tns HW0) as (Hq & _ & _ & Hc).
    destruct (run_to_completion jobs W _ _ (or_introl HW) eq_refl Hc)
      as [sched Hdone].
    set (s := turns tns (await_outer (submitted jobs W))) in *.
    set (s2 := turns (map Resume sched) s).
    set (more := map Resume sched ++ repeat Callback (length (callbacks s2))
                     ++ [Wake]).
    assert (Hall : turns (tns ++ more) (await_outer (submitted jobs W))
                   = turn {| now := settled s2; callbacks := [];
                             delivered := delivered s2 |} Wake).
    { unfold more. rewrite !turns_app. fold s. fold s2.
      by rewrite turns_callbacks. }
    destruct (run_jobs_turns_settled jobs W (tns ++ more) HW0)
      as (_ & Hd4 & _ & _).
    rewrite Hall in Hd4.
    destruct (run_jobs_turns_settled jobs W (tns ++ map Resume sched) HW0)
      as (_ & _ & Hs2 & Hc2).
    rewrite turns_app in Hs2, Hc2. fold s in Hs2, Hc2. fold s2 in Hs2, Hc2.
    assert (Hs2' : settled s2 = exec sched (settled s)).
    { unfold s2. destruct (turns_settled (map Resume sched) s Hq) as [_ ->].
      by rewrite resumed_Resume. }
    rewrite <- Hs2' in Hdone.
    pose proof (all_done_resolved _ _ _ Hc2 Hdone) as Hnp.
    destruct (outer (settled s2)) as [|rs|e] eqn:Ho; [done|by destruct (Hnr _ rs Hc2)|].
    exists more, e. eexists. split; [apply run_jobs_turns_unfold; done|].
    rewrite Hall. split.
    + unfold handed_over in Hd4. simpl in *.
      destruct (delivered s2) eqn:Ed; simpl in *; [done| |];
        rewrite <- Ho; apply Hd4; done.
    + assert (now (turn {| now := settled s2; callbacks := [];
                           delivered := delivered s2 |} Wake) = settled s2) as ->.
      { simpl. by destruct (delivered s2). }
      apply tracks_done_children; [apply (c_tracks _ _ _ Hc2)|].
      by apply all_done_Forall.
  - intros tns s Hrun Hdone.
    rewrite run_jobs_turns_unfold in Hrun by done. injection Hrun as Hs.
    destruct (run_jobs_turns_settled jobs W tns HW0) as (_ & Hd & _ & Hc).
    rewrite Hs in Hd, Hc. split.
    + apply tracks_done_children; [|by apply all_done_Forall].
      rewrite <- children_settled. apply (c_tracks _ _ _ Hc).
    + intros Hcb.
      assert (Hset : settled s = now s) by (unfold settled; by rewrite Hcb).
      rewrite Hset in Hc.
      pose proof (all_done_resolved _ _ _ Hc Hdone) as Hnp.
      destruct (outer (now s)) as [|rs|e] eqn:Ho;
        [done|by destruct (Hnr _ rs Hc)|].
      exists e. split; [done|]. intros s'.
      rewrite run_jobs_turns_unfold by done. intros [= <-].
      rewrite turns_app, Hs. simpl. unfold handed_over in Hd.
      destruct (delivered s) eqn:Ed; simpl; [done| |];
        rewrite Ed, <- Ho; apply Hd; done.
Qed.

(** A resumption with the callback it queues run at once is a [step]. *)
Lemma turns_eager sched : forall l (d : Outer T),
  turns (flat_map (fun i => [Resume i; Callback]) sched)
        {| now := l; callbacks := []; delivered := d |}
  = {| now := exec sched l; callbacks := []; delivered := d |}.
Proof.
  induction sched as [|i sched IH]; intros l d; [done|].
  cbn [flat_map app exec].
  change (turns (Resume i :: Callback :: ?x) ?s)
    with (turns x (turn (turn s (Resume i)) Callback)).
  rewrite step_resume_task. cbn [turn now callbacks delivered].
  destruct (resume_task l i) as [[l' [r|]]|]; simpl; apply IH.
Qed.

(** X22.  [run_jobs] followed turn by turn and [run_jobs] followed
    resumption by resumption are one call seen at two grains.  With a
    negative worker count both raise the semaphore's [ValueError].
    Otherwise, after any turns, letting the done-callbacks that wait run
    gives the state that [run_jobs] has under the resumptions among the
    turns; the waiting callbacks have touched neither the semaphore nor
    the children; [outer] is pending or holds what it will hold once they
    have run; and the caller has got nothing or what [outer] holds.
    Conversely every state of [run_jobs] is the state after the turns
    that run each callback right after the resumption that queued it. *)
Theorem run_jobs_turns_settle jobs W :
  (forall tns,
      (W < 0)%Z ->
      run_jobs_turns jobs W tns
      = Raise (ValueError "Semaphore initial value must be >= 0")
      /\ run_jobs jobs W (resumed tns)
         = Raise (ValueError "Semaphore initial value must be >= 0"))
  /\ (forall tns,
         (0 <= W)%Z ->
         exists s,
           run_jobs_turns jobs W tns = Return s
           /\ run_jobs jobs W (resumed tns) = Return (settled s)
           /\ sem_value (settled s) = sem_value (now s)
           /\ children (settled s) = children (now s)
           /\ nfinished (settled s) = nfinished (now s) + length (callbacks s)
           /\ nfinished (settled s) = count is_done (children (now s))
           /\ (outer (now s) = Pending \/ outer (now s) = outer (settled s))
           /\ (delivered s = Pending \/ delivered s = outer (now s)))
  /\ (forall sched l,
         run_jobs jobs W sched = Return l ->
         run_jobs_turns jobs W (flat_map (fun i => [Resume i; Callback]) sched)
         = Return {| now := l; callbacks := [];
                     delivered := outer (submitted jobs W) |}).
Proof.
  split; [|split].
  - intros tns HW. unfold run_jobs_turns, run_jobs, Semaphore.
    by destruct (W <? 0)%Z eqn:E; [|lia].
  - intros tns HW.
    destruct (run_jobs_turns_settled jobs W tns HW) as (Hq & Hd & Hs & _).
    exists (turns tns (await_outer (submitted jobs W))).
    split; [by apply run_jobs_turns_unfold|].
    split; [by rewrite run_jobs_unfold, Hs|].
    set (s := turns tns (await_outer (submitted jobs W))) in *.
    destruct (callbacks_frame (callbacks s) (now s)) as (Hsem & Hch & Hn).
    fold (settled s) in Hsem, Hch, Hn.
    repeat split; try done.
    + rewrite Hn. apply Hq.
    + destruct (outer (now s)) eqn:E; [by left|right|right];
        unfold settled; rewrite callbacks_resolved; congruence.
    + unfold handed_over in Hd. destruct (delivered s); [by left|right|right];
        by apply Hd.
  - intros sched l Hrun.
    destruct (Z.ltb_spec W 0) as [Hneg|HW].
    { unfold run_jobs, Semaphore in Hrun.
      by destruct (W <? 0)%Z eqn:E; [|lia]. }
    rewrite run_jobs_unfold in Hrun by done. injection Hrun as <-.
    rewrite run_jobs_turns_unfold by done. unfold await_outer.
    by rewrite turns_eager.
Qed.

(** *** [chunks]: what [zip_longest] over the shared iterator yields *)

Section Chunks.
Context {A : Type}.
Implicit Types (it : list A).

Lemma zip_round_exhausted r : forall na,
  zip_round (repeat Shared r) (@nil A) na
  = match r with
    | O => Some ([], [], [], na)
    | S _ => if (na <=? r)%nat then None
             else Some (repeat None r, repeat Filler r, [], na - r)
    end.
Proof.
  induction r as [|r IH]; intros na; [done|].
  cbn [repeat zip_round]. destruct na as [|[|na]]; [done|done|].
  cbn [Nat.pred]. rewrite IH. destruct r as [|r].
  - simpl. repeat f_equal; lia.
  - destruct (Nat.leb_spec (S na) (S r)), (Nat.leb_spec (S (S na)) (S (S r)));
      try lia; [done|].
    simpl. repeat f_equal; lia.
Qed.

Lemma zip_round_shared it : forall k na,
  zip_round (repeat Shared k) it na
  = if (k <=? length it)%nat then
      Some (map Some (firstn k it), repeat Shared k, skipn k it, na)
    else if (na <=? k - length it)%nat then None
    else Some (map Some it ++ repeat None (k - length it),
               repeat Shared (length it) ++ repeat Filler (k - length it),
               [], na - (k - length it)).
Proof.
  induction it as [|x it IH]; intros k na.
  - rewrite zip_round_exhausted. destruct k as [|k]; [done|].
    simpl length. rewrite Nat.sub_0_r.
    replace (S k <=? 0)%nat with false by (symmetry; apply Nat.leb_gt; lia). done.
  - destruct k as [|k]; [done|].
    cbn [repeat zip_round]. rewrite IH. simpl length.
    change (S k <=? S (length it))%nat with (k <=? length it)%nat.
    destruct (k <=? length it)%nat; [done|].
    change (S k - S (length it)) with (k - length it).
    destruct (na <=? k - length it)%nat; done.
Qed.

Lemma zip_round_drained j : forall rest na,
  1 <= j -> na <= j ->
  zip_round (repeat Shared j ++ rest) (@nil A) na = None.
Proof.
  induction j as [|j IH]; intros rest na Hj Hna; [lia|].
  cbn [repeat app zip_round]. destruct na as [|[|na]]; [done|done|].
  cbn [Nat.pred]. rewrite IH; [done|lia|lia].
Qed.

Lemma zip_longest_loop_padded n : 1 <= n ->
  forall fuel fuel' it,
    length it < fuel -> length it <= fuel' ->
    zip_longest_loop fuel (repeat Shared n) it n = padded_chunks fuel' n it.
Proof.
  intros Hn. induction fuel as [|fuel IH]; intros fuel' it Hf Hf'; [lia|].
  cbn [zip_longest_loop]. rewrite zip_round_shared.
  destruct it as [|x it].
  { simpl length. rewrite Nat.sub_0_r.
    replace (n <=? 0)%nat with false by (symmetry; apply Nat.leb_gt; lia).
    rewrite Nat.leb_refl. by destruct fuel'. }
  destruct fuel' as [|fuel']; [simpl in Hf'; lia|].
  cbn [padded_chunks].
  destruct (Nat.leb_spec n (length (x :: it))) as [Hle|Hgt].
  - replace (n - length (x :: it)) with 0 by lia. simpl repeat. rewrite app_nil_r.
    f_equal. apply IH; rewrite length_skipn; simpl in *; lia.
  - replace (n <=? n - length (x :: it))%nat with false
      by (symmetry; apply Nat.leb_gt; simpl; lia).
    rewrite firstn_all2 by lia. rewrite skipn_all2 by lia.
    f_equal.
    + destruct fuel as [|fuel]; [simpl in Hf; lia|].
      cbn [zip_longest_loop]. rewrite zip_round_drained; [|simpl; lia..].
      by destruct fuel'.
Qed.

Lemma chunks_overflow (l : list A) size :
  (size < PY_SSIZE_T_MIN \/ PY_SSIZE_T_MAX < size)%Z ->
  chunks l size = Raise (OverflowError "cannot fit 'int' into an index-sized integer").
Proof.
  intros Hs. unfold chunks.
  destruct (Z.ltb_spec size PY_SSIZE_T_MIN), (Z.ltb_spec PY_SSIZE_T_MAX size);
    simpl; try done; lia.
Qed.

Lemma chunks_no_memory (l : list A) size :
  (PY_LIST_MAX < size <= PY_SSIZE_T_MAX)%Z -> chunks l size = Raise MemoryError.
Proof.
  intros Hs. unfold chunks.
  destruct (Z.ltb_spec size PY_SSIZE_T_MIN), (Z.ltb_spec PY_SSIZE_T_MAX size),
    (Z.ltb_spec PY_LIST_MAX size); simpl; try done;
    unfold PY_SSIZE_T_MIN, PY_LIST_MAX, PY_SSIZE_T_MAX in *; lia.
Qed.

Lemma chunks_in_range (l : list A) size :
  (PY_SSIZE_T_MIN <= size <= PY_LIST_MAX)%Z ->
  chunks l size
  = Return match Z.to_nat size with
           | O => []
           | S _ => zip_longest_loop (S (length l)) (repeat Shared (Z.to_nat size)) l
                                     (Z.to_nat size)
           end.
Proof.
  intros Hs. unfold chunks. rewrite repeat_length.
  destruct (Z.ltb_spec size PY_SSIZE_T_MIN), (Z.ltb_spec PY_SSIZE_T_MAX size),
    (Z.ltb_spec PY_LIST_MAX size); simpl; try done;
    unfold PY_SSIZE_T_MIN, PY_LIST_MAX, PY_SSIZE_T_MAX in *; lia.
Qed.

Lemma chunks_unfold (l : list A) size :
  (1 <= size <= PY_LIST_MAX)%Z ->
  chunks l size = Return (padded_chunks (length l) (Z.to_nat size) l).
Proof.
  intros Hs.
  rewrite chunks_in_range
    by (unfold PY_SSIZE_T_MIN, PY_LIST_MAX, PY_SSIZE_T_MAX in *; lia).
  destruct (Z.to_nat size) as [|n] eqn:E; [lia|].
  f_equal. apply zip_longest_loop_padded; lia.
Qed.

(** Either way of a size of at least 1. *)
Lemma chunks_cases (l : list A) size :
  (1 <= size)%Z ->
  (size <= PY_LIST_MAX)%Z
  /\ chunks l size = Return (padded_chunks (length l) (Z.to_nat size) l)
  \/ (PY_LIST_MAX < size)%Z /\ exists e, chunks l size = Raise e.
Proof.
  intros Hs. destruct (Z.le_gt_cases size PY_LIST_MAX) as [Hle|Hgt].
  - left. split; [done|]. by apply chunks_unfold.
  - right. split; [lia|].
    destruct (Z.le_gt_cases size PY_SSIZE_T_MAX) as [Hle|Hgt'].
    + exists MemoryError. apply chunks_no_memory. lia.
    + eexists. apply chunks_overflow. lia.
Qed.

(** X3.  For a size of at least 1: whatever [chunks] returns is the groups
    of [size] consecutive items in order, the last group filled up with
    [None] to the full size; it does return them when the size is no
    larger than the input, a list of Python; a size that no list can have
    is refused with [MemoryError]; and beyond the index range the list
    repetition raises [OverflowError]. *)
Theorem chunks_padded (l : list A) size :
  (1 <= size)%Z ->
  (forall cs, chunks l size = Return cs ->
              cs = padded_chunks (length l) (Z.to_nat size) l)
  /\ (size <= Z.of_nat (length l) <= PY_LIST_MAX ->
      chunks l size = Return (padded_chunks (length l) (Z.to_nat size) l))%Z
  /\ (PY_LIST_MAX < size <= PY_SSIZE_T_MAX ->
      chunks l size = Raise MemoryError)%Z
  /\ (PY_SSIZE_T_MAX < size ->
      chunks l size
      = Raise (OverflowError "cannot fit 'int' into an index-sized integer"))%Z.
Proof.
  intros Hs. split; [|split; [|split]].
  - intros cs Hcs. destruct (chunks_cases l size Hs) as [[_ Hr]|[_ [e Hr]]];
      rewrite Hr in Hcs; by simplify_eq.
  - intros Hl. apply chunks_unfold. lia.
  - apply chunks_no_memory.
  - intros Hgt. apply chunks_overflow. lia.
Qed.

Lemma groups_concat n : 1 <= n ->
  forall fuel (l : list A), length l <= fuel -> concat (groups fuel n l) = l.
Proof.
  intros Hn. induction fuel as [|fuel IH]; intros l Hf.
  - destruct l; [done|simpl in Hf; lia].
  - destruct l as [|x l]; [done|]. cbn [groups concat].
    rewrite IH; [apply firstn_skipn|].
    rewrite length_skipn. simpl in *. lia.
Qed.

Lemma groups_map {B} (f : A -> B) n fuel : forall l : list A,
  groups fuel n (map f l) = map (map f) (groups fuel n l).
Proof.
  induction fuel as [|fuel IH]; intros [|x l]; try done.
  change (map f (x :: l)) with (f x :: map f l) at 1.
  cbn [groups map]. change (f x :: map f l) with (map f (x :: l)).
  by rewrite <- IH, firstn_map, skipn_map.
Qed.

(** When the group size divides the number of items nothing is padded. *)
Lemma padded_chunks_exact n : 1 <= n ->
  forall fuel (l : list A) q, length l = q * n -> length l <= fuel ->
    padded_chunks fuel n l = map (map Some) (groups fuel n l).
Proof.
  intros Hn. induction fuel as [|fuel IH]; intros l q Hq Hf.
  - by destruct l.
  - destruct l as [|x l]; [done|]. cbn [padded_chunks groups map].
    destruct q as [|q]; [simpl in Hq; lia|].
    replace (n - length (x :: l)) with 0 by lia. simpl repeat. rewrite app_nil_r.
    f_equal. apply (IH _ q); rewrite length_skipn; simpl in *; lia.
Qed.

(** Otherwise some chunk holds a [None]. *)
Lemma padded_chunks_ragged n : 1 <= n ->
  forall fuel (l : list A), length l <= fuel -> length l mod n <> 0 ->
    Exists (fun chunk => In None chunk) (padded_chunks fuel n l).
Proof.
  intros Hn. induction fuel as [|fuel IH]; intros l Hf Hm.
  - destruct l; simpl in *; [|lia]. by rewrite Nat.Div0.mod_0_l in Hm.
  - destruct l as [|x l]; [simpl in Hm; by rewrite Nat.Div0.mod_0_l in Hm|].
    cbn [padded_chunks].
    destruct (Nat.le_gt_cases n (length (x :: l))) as [Hle|Hgt].
    + apply Exists_cons_tl. apply IH.
      * rewrite length_skipn. simpl in *. lia.
      * rewrite length_skipn.
        replace (length (x :: l)) with ((length (x :: l) - n) + 1 * n) in Hm by lia.
        by rewrite Nat.Div0.mod_add in Hm.
    + apply Exists_cons_hd. apply in_or_app. right.
      destruct (n - length (x :: l)) eqn:E; [lia|]. by left.
Qed.

End Chunks.

(** *** [batch_gather] *)

Lemma ensure_futures_jobs jobs :
  ensure_futures (map Some (map JobCoro jobs)) = (map job_task jobs, None).
Proof. induction jobs as [|job jobs IH]; simpl; [done|]. by rewrite IH. Qed.

Lemma gather_jobs jobs :
  gather 0 (map Some (map JobCoro jobs)) = (map job_task jobs, Return (gathered jobs)).
Proof. unfold gather. rewrite ensure_futures_jobs. unfold gathered. by destruct jobs. Qed.

Lemma count_job_tasks p jobs :
  (forall job, p (job_task job) = false) -> count p (map job_task jobs) = 0.
Proof. intros Hp. induction jobs as [|job jobs IH]; simpl; [done|]. by rewrite Hp, IH. Qed.

Lemma gathered_consistent jobs : consistent jobs 0 (gathered jobs).
Proof.
  split; simpl.
  - induction jobs; simpl; constructor; simpl; auto.
  - unfold running; simpl. by rewrite count_job_tasks.
  - done.
  - by rewrite count_job_tasks.
  - unfold outer_ok; simpl. destruct jobs as [|job jobs]; simpl.
    + repeat split; constructor.
    + split; [lia|]. constructor; [done|].
      apply Forall_forall. intros t Ht e ->.
      apply list_elem_of_fmap in Ht as (? & ? & ?). done.
Qed.

Lemma gathered_unblocked jobs :
  Forall (fun t => is_blocked t = false) (children (gathered jobs)).
Proof.
  simpl. apply Forall_forall. intros t Ht.
  apply list_elem_of_fmap in Ht as (? & -> & ?). done.
Qed.

(** One awaited chunk: only the outcomes in order can come back, and some
    schedule brings them back with every child finished. *)
Lemma gathered_results jobs sched :
  Forall succeeds jobs ->
  outer (exec sched (gathered jobs)) = Pending
  \/ outer (exec sched (gathered jobs)) = Returned (map outcome jobs).
Proof.
  intros Hok. eapply resolved_with_results; [|done].
  apply exec_consistent, gathered_consistent.
Qed.

Lemma gathered_completes jobs :
  Forall succeeds jobs ->
  exists sched, outer (exec sched (gathered jobs)) = Returned (map outcome jobs).
Proof.
  intros Hok.
  destruct (run_to_completion jobs 0 _ (gathered jobs)
              (or_intror (gathered_unblocked jobs)) eq_refl
              (gathered_consistent jobs)) as [sched Hd].
  exists sched. destruct (gathered_results jobs sched Hok) as [Hp|Hr]; [|done].
  destruct (all_done_resolved jobs 0 _
              (exec_consistent _ _ sched _ (gathered_consistent jobs)) Hd Hp).
Qed.

Lemma batch_gather_loop_cons (g : list (Job T)) cs scheds output started :
  batch_gather_loop (as_chunk g :: cs) scheds output started
  = match outer (exec (hd [] scheds) (gathered g)) with
    | Pending =>
        (Pending, started ++ children (exec (hd [] scheds) (gathered g)))
    | Raised e =>
        (Raised e, started ++ children (exec (hd [] scheds) (gathered g)))
    | Returned output_chunk =>
        batch_gather_loop cs (tl scheds) (output ++ output_chunk)
          (started ++ children (exec (hd [] scheds) (gathered g)))
    end.
Proof. cbn [batch_gather_loop]. unfold as_chunk. by rewrite gather_jobs. Qed.

Lemma batch_gather_loop_groups (gs : list (list (Job T))) :
  forall scheds output started,
  Forall (Forall succeeds) gs ->
  (batch_gather_loop (map as_chunk gs) scheds output started).1 = Pending
  \/ (batch_gather_loop (map as_chunk gs) scheds output started).1
     = Returned (output ++ map outcome (concat gs)).
Proof.
  induction gs as [|g gs IH]; intros scheds output started Hok.
  - right. simpl. by rewrite app_nil_r.
  - inversion Hok as [|? ? Hg Hgs]; subst.
    cbn [map concat]. rewrite batch_gather_loop_cons.
    destruct (gathered_results g (hd [] scheds) Hg) as [-> | ->]; [by left|].
    rewrite map_app, app_assoc. by apply IH.
Qed.

Lemma batch_gather_loop_completes (gs : list (list (Job T))) :
  forall output started,
  Forall (Forall succeeds) gs ->
  exists scheds,
    (batch_gather_loop (map as_chunk gs) scheds output started).1
    = Returned (output ++ map outcome (concat gs)).
Proof.
  induction gs as [|g gs IH]; intros output started Hok.
  - exists []. simpl. by rewrite app_nil_r.
  - inversion Hok as [|? ? Hg Hgs]; subst.
    destruct (gathered_completes g Hg) as [sched Hs].
    destruct (IH (output ++ map outcome g)
                 (started ++ children (exec sched (gathered g))) Hgs) as [scheds Hr].
    exists (sched :: scheds). cbn [map concat]. rewrite batch_gather_loop_cons.
    cbn [hd tl]. rewrite Hs, Hr. by rewrite map_app, app_assoc.
Qed.

Lemma ensure_futures_no_none (args : list (option (Coroutine T))) ts :
  ensure_futures args = (ts, None) -> ~ In None args.
Proof.
  revert ts; induction args as [|[c|] args IH]; intros ts He; simpl in *; [tauto| |done].
  destruct c; simpl in He; destruct (ensure_futures args) as [ts' [e|]] eqn:E;
    simplify_eq; intros [?|?]; try done; by eapply IH.
Qed.

Lemma batch_gather_loop_padding chunks_ : forall scheds output started results,
  Exists (fun chunk => In None chunk) chunks_ ->
  (batch_gather_loop (T:=T) chunks_ scheds output started).1 <> Returned results.
Proof.
  induction chunks_ as [|c cs IH]; intros scheds output started results Hex.
  - by apply Exists_nil in Hex.
  - simpl. unfold gather.
    destruct (ensure_futures c) as [ts [e|]] eqn:E; [done|].
    apply Exists_cons in Hex as [Hc|Hcs].
    { by destruct (ensure_futures_no_none _ _ E). }
    simpl. destruct (outer (exec (hd [] scheds) _)); simpl; try done.
    by apply IH.
Qed.

Lemma groups_forall (P : Job T -> Prop) n fuel : forall jobs,
  Forall P jobs -> Forall (Forall P) (groups fuel n jobs).
Proof.
  induction fuel as [|fuel IH]; intros [|job jobs] Hall; try by constructor.
  cbn [groups]. constructor.
  - by apply Forall_take.
  - apply IH. by apply Forall_drop.
Qed.

(** X1.  When there are jobs (a list of Python, so of no more than
    [PY_LIST_MAX] items), the batch size divides their number and every job
    succeeds, [batch_gather] can only return the outcomes of the jobs in
    submission order, whatever the schedules, and there are schedules
    under which it does. *)
Theorem batch_gather_exact_multiple jobs batch_size q :
  (1 <= batch_size)%Z ->
  jobs <> [] -> (Z.of_nat (length jobs) <= PY_LIST_MAX)%Z ->
  length jobs = q * Z.to_nat batch_size ->
  Forall succeeds jobs ->
  (forall scheds,
      (batch_gather jobs batch_size scheds).1 = Pending
      \/ (batch_gather jobs batch_size scheds).1 = Returned (map outcome jobs))
  /\ exists scheds,
      (batch_gather jobs batch_size scheds).1 = Returned (map outcome jobs).
Proof.
  intros Hb Hne Hmax Hq Hok. unfold batch_gather.
  assert (Hn : 1 <= Z.to_nat batch_size) by lia.
  assert (Hsz : (batch_size <= PY_LIST_MAX)%Z).
  { destruct q as [|q]; [by destruct jobs|].
    assert (Z.to_nat batch_size <= length jobs) by (rewrite Hq; simpl; lia). lia. }
  rewrite chunks_unfold by done.
  rewrite (padded_chunks_exact _ Hn _ _ q) by (rewrite ?length_map; done || lia).
  rewrite !length_map, groups_map, map_map.
  change (fun x => map Some (map JobCoro x)) with (@as_chunk T).
  pose proof (groups_forall succeeds (Z.to_nat batch_size) (length jobs) jobs Hok) as Hg.
  pose proof (groups_concat (Z.to_nat batch_size) Hn (length jobs) jobs (le_n _)) as Hc.
  split.
  - intros scheds.
    destruct (batch_gather_loop_groups _ scheds [] [] Hg) as [Hp|Hr]; [by left|right].
    by rewrite Hr, Hc.
  - destruct (batch_gather_loop_completes _ [] [] Hg) as [scheds Hr].
    exists scheds. by rewrite Hr, Hc.
Qed.

(** X2.  When the batch size (at least 1) does not divide the number of
    jobs, [batch_gather] never returns a result, under any schedule: the
    last chunk is padded with [None]. *)
Theorem batch_gather_ragged_never_returns jobs batch_size scheds results :
  (1 <= batch_size)%Z -> length jobs mod Z.to_nat batch_size <> 0 ->
  (batch_gather jobs batch_size scheds).1 <> Returned results.
Proof.
  intros Hb Hm. unfold batch_gather.
  destruct (chunks_cases (map JobCoro jobs) batch_size Hb) as [[_ ->]|[_ [e ->]]];
    [|done].
  apply batch_gather_loop_padding, padded_chunks_ragged;
    rewrite ?length_map; [lia|done|done].
Qed.

Lemma chunks_nonpositive {A} (iterable : list A) size :
  (PY_SSIZE_T_MIN <= size <= 0)%Z -> chunks iterable size = Return [].
Proof.
  intros Hs. rewrite chunks_in_range by (unfold PY_LIST_MAX; lia).
  by replace (Z.to_nat size) with 0%nat by lia.
Qed.

(** C10, as the code has it.  With a batch size of zero or less that is
    an index (not below [-2^63]), [chunks] yields no chunk, so
    [batch_gather] returns the empty list at once and hands no job to the
    event loop, whatever jobs were submitted.  Below the index range the
    list repetition of [chunks] raises [OverflowError], and so does
    [batch_gather], again without handing a job to the loop. *)
Theorem batch_gather_nonpositive_batch_size jobs batch_size scheds :
  (batch_size <= 0)%Z ->
  ((PY_SSIZE_T_MIN <= batch_size)%Z ->
     chunks (map JobCoro jobs) batch_size = Return []
     /\ batch_gather jobs batch_size scheds = (Returned [], []))
  /\ ((batch_size < PY_SSIZE_T_MIN)%Z ->
        chunks (map JobCoro jobs) batch_size
        = Raise (OverflowError "cannot fit 'int' into an index-sized integer")
        /\ batch_gather jobs batch_size scheds
           = (Raised (OverflowError "cannot fit 'int' into an index-sized integer"),
              [])).
Proof.
  intros Hs. split; intros Hr; unfold batch_gather.
  - by rewrite chunks_nonpositive by done.
  - by rewrite chunks_overflow by (by left).
Qed.

(** C1, where the code departs from it.  One job and a batch size of 2:
    [zip_longest] pads the only chunk with [None], [asyncio.gather]
    refuses the [None], and [batch_gather] raises [TypeError] instead of
    returning the job's result. *)
Theorem batch_gather_short_chunk_raises job scheds :
  chunks [JobCoro job] 2 = Return [[Some (JobCoro job); None]]
  /\ batch_gather [job] 2 scheds
     = (Raised (TypeError "An asyncio.Future, a coroutine or an awaitable is required"),
        [Running false (suspensions job) job]).
Proof. split; reflexivity. Qed.

(** *** [chunks] keeps every item, in order *)
Section ChunksMore.
Context {A : Type}.

Lemma omap_id_Some (l : list A) : omap id (map Some l) = l.
Proof. induction l as [|x l IH]; simpl; [done|]. f_equal. apply IH. Qed.

Lemma omap_id_None n : omap id (repeat (@None A) n) = [].
Proof. induction n as [|n IH]; simpl; done. Qed.

Lemma padded_chunks_items n : 1 <= n ->
  forall fuel (l : list A), length l <= fuel ->
    omap id (concat (padded_chunks fuel n l)) = l.
Proof.
  intros Hn. induction fuel as [|fuel IH]; intros l Hf.
  - destruct l; [done|simpl in Hf; lia].
  - destruct l as [|x l]; [done|]. cbn [padded_chunks concat].
    rewrite !omap_app, omap_id_Some, omap_id_None, app_nil_r.
    rewrite IH; [apply firstn_skipn|].
    rewrite length_skipn. simpl in *. lia.
Qed.

Lemma padded_chunks_widths n fuel : forall l : list A,
  Forall (fun chunk => length chunk = n) (padded_chunks fuel n l).
Proof.
  induction fuel as [|fuel IH]; intros [|x l]; try by constructor.
  cbn [padded_chunks]. constructor; [|apply IH].
  rewrite length_app, length_map, length_firstn, repeat_length. lia.
Qed.

Lemma padded_chunks_count n : 1 <= n ->
  forall fuel (l : list A), length l <= fuel ->
    length (padded_chunks fuel n l) = (length l + n - 1) / n.
Proof.
  intros Hn. induction fuel as [|fuel IH]; intros l Hf.
  - destruct l; simpl in *; [|lia]. symmetry. apply Nat.div_small. lia.
  - destruct l as [|x l].
    { simpl. symmetry. apply Nat.div_small. lia. }
    cbn [padded_chunks length]. rewrite IH by (rewrite length_skipn; simpl in *; lia).
    rewrite length_skipn. cbn [length].
    destruct (Nat.le_gt_cases n (S (length l))) as [Hle|Hgt].
    + replace (S (length l) + n - 1) with ((S (length l) - n + n - 1) + 1 * n) by lia.
      rewrite Nat.div_add by lia. lia.
    + replace (S (length l) - n) with 0 by lia.
      replace (S (length l) + n - 1) with (length l + 1 * n) by lia.
      rewrite Nat.div_add by lia.
      rewrite (Nat.div_small (0 + n - 1)) by lia.
      rewrite (Nat.div_small (length l)) by lia. done.
Qed.

(** X4. For [size >= 1], what [chunks] returns loses and reorders
    nothing: dropping the [None] fillers from the concatenated chunks
    gives back the input; every chunk, the last one included, has exactly
    [size] slots; and there are [ceil(len / size)] chunks.  It does return
    when the size is no larger than the input, a list of Python (of no
    more than [PY_LIST_MAX] items). *)
Theorem chunks_keep_items (l : list A) size :
  (1 <= size)%Z ->
  (forall cs, chunks l size = Return cs ->
     omap id (concat cs) = l
     /\ Forall (fun chunk => length chunk = Z.to_nat size) cs
     /\ length cs = (length l + Z.to_nat size - 1) / Z.to_nat size)
  /\ ((size <= Z.of_nat (length l) <= PY_LIST_MAX)%Z ->
      exists cs, chunks l size = Return cs).
Proof.
  intros Hs. split.
  - intros cs Hcs. destruct (chunks_cases l size Hs) as [[_ Hr]|[_ [e Hr]]];
      rewrite Hr in Hcs; simplify_eq.
    split; [apply padded_chunks_items; lia|].
    split; [apply padded_chunks_widths|apply padded_chunks_count; lia].
  - intros Hl. eexists. apply chunks_unfold. lia.
Qed.
End ChunksMore.

(** *** [batch_gather]: one chunk at a time, all or nothing *)

Lemma ensure_futures_padded (g : list (Job T)) k :
  ensure_futures (as_chunk g ++ repeat None k)
  = (map job_task g,
     match k with
     | O => None
     | S _ => Some (TypeError "An asyncio.Future, a coroutine or an awaitable is required")
     end).
Proof.
  induction g as [|job g IH]; simpl.
  - by destruct k.
  - unfold as_chunk in IH. by rewrite IH.
Qed.

Lemma batch_gather_loop_padded (g : list (Job T)) k cs scheds output started :
  batch_gather_loop ((as_chunk g ++ repeat None (S k)) :: cs) scheds output started
  = (Raised (TypeError "An asyncio.Future, a coroutine or an awaitable is required"),
     started ++ map job_task g).
Proof. cbn [batch_gather_loop]. unfold gather. by rewrite ensure_futures_padded. Qed.

Lemma padded_chunks_jobs fuel n job (rest : list (Job T)) :
  padded_chunks (S fuel) n (map JobCoro (job :: rest))
  = (as_chunk (firstn n (job :: rest)) ++ repeat None (n - length (job :: rest)))
      :: padded_chunks fuel n (map JobCoro (skipn n (job :: rest))).
Proof.
  change (map JobCoro (job :: rest)) with (JobCoro job :: map JobCoro rest) at 1.
  cbn [padded_chunks]. change (JobCoro job :: map JobCoro rest) with (map JobCoro (job :: rest)).
  unfold as_chunk. by rewrite firstn_map, skipn_map, length_map.
Qed.

Lemma firstn_plus {A} n m (l : list A) :
  firstn (n + m) l = firstn n l ++ firstn m (skipn n l).
Proof.
  revert l; induction n as [|n IH]; intros [|x l]; simpl; try done.
  - by destruct m.
  - by rewrite IH.
Qed.

Lemma tracks_job_tasks (g : list (Job T)) : Forall2 tracks g (map job_task g).
Proof. induction g; simpl; constructor; simpl; auto. Qed.

Lemma batch_gather_loop_barrier n : 1 <= n ->
  forall fuel (rest : list (Job T)) scheds output started,
    length rest <= fuel ->
    exists finished current,
      (batch_gather_loop (padded_chunks fuel n (map JobCoro rest))
                         scheds output started).2
      = started ++ finished ++ current
      /\ Forall (fun t => is_done t = true) finished
      /\ length current <= n
      /\ Forall2 tracks (firstn (length (finished ++ current)) rest)
                 (finished ++ current).
Proof.
  intros Hn. induction fuel as [|fuel IH]; intros rest scheds output started Hf.
  { destruct rest; [|simpl in Hf; lia]. exists [], []. simpl.
    rewrite app_nil_r. repeat split; first [constructor | lia | done]. }
  destruct rest as [|job rest].
  { exists [], []. simpl. rewrite app_nil_r. repeat split; first [constructor | lia | done]. }
  rewrite padded_chunks_jobs.
  destruct (n - length (job :: rest)) as [|k] eqn:Hk.
  - (* a full chunk *)
    rewrite app_nil_r, batch_gather_loop_cons.
    set (g := firstn n (job :: rest)).
    assert (Hg : length g = n) by (subst g; rewrite length_firstn; lia).
    pose proof (exec_consistent g 0 (hd [] scheds) _ (gathered_consistent g)) as Hc.
    pose proof (c_tracks _ _ _ Hc) as Htr.
    pose proof (Forall2_length _ _ _ Htr) as Hlen.
    pose proof (c_outer _ _ _ Hc) as Ho. unfold outer_ok in Ho.
    set (l' := exec (hd [] scheds) (gathered g)) in *.
    destruct (outer l') as [|rs|e].
    + exists [], (children l'). simpl. repeat split; [constructor|lia|].
      rewrite <- Hlen, Hg. exact Htr.
    + destruct Ho as (_ & Hdone & _).
      destruct (IH (skipn n (job :: rest)) (tl scheds) (output ++ rs)
                   (started ++ children l')) as (fin & cur & Heq & Hfin & Hcur & Htrk).
      { rewrite length_skipn. simpl in *. lia. }
      exists (children l' ++ fin), cur. rewrite Heq. repeat split.
      * by rewrite <- !app_assoc.
      * by apply Forall_app.
      * done.
      * rewrite <- app_assoc, length_app, <- Hlen, Hg, firstn_plus.
        apply Forall2_app; [exact Htr|exact Htrk].
    + exists [], (children l'). simpl. repeat split; [constructor|lia|].
      rewrite <- Hlen, Hg. exact Htr.
  - (* the short chunk, padded *)
    rewrite batch_gather_loop_padded.
    rewrite (firstn_all2 (job :: rest)) by lia.
    exists [], (map job_task (job :: rest)).
    rewrite app_nil_l, length_map, firstn_all.
    repeat split; [constructor|lia|apply tracks_job_tasks].
Qed.

Lemma batch_gather_loop_failure n : 1 <= n ->
  forall fuel (rest : list (Job T)) scheds output started results,
    length rest <= fuel -> Exists fails rest ->
    (batch_gather_loop (padded_chunks fuel n (map JobCoro rest))
                       scheds output started).1 <> Returned results.
Proof.
  intros Hn. induction fuel as [|fuel IH];
    intros rest scheds output started results Hf Hex.
  { destruct rest; [by apply Exists_nil in Hex|simpl in Hf; lia]. }
  destruct rest as [|job rest]; [by apply Exists_nil in Hex|].
  rewrite padded_chunks_jobs.
  destruct (n - length (job :: rest)) as [|k] eqn:Hk.
  - rewrite app_nil_r, batch_gather_loop_cons.
    set (g := firstn n (job :: rest)) in *.
    pose proof (exec_consistent g 0 (hd [] scheds) _ (gathered_consistent g)) as Hc.
    pose proof (c_outer _ _ _ Hc) as Ho. unfold outer_ok in Ho.
    destruct (outer (exec (hd [] scheds) (gathered g))) as [|rs|e]; [done| |done].
    destruct Ho as (_ & _ & Hret).
    apply IH; [rewrite length_skipn; simpl in *; lia|].
    rewrite <- (firstn_skipn n (job :: rest)) in Hex.
    apply Exists_app in Hex as [Hex|Hex]; [|done].
    exfalso. apply Exists_exists in Hex as (j & Hin & Hj).
    rewrite Forall_forall in Hret. specialize (Hret _ Hin).
    unfold fails in Hj. congruence.
  - by rewrite batch_gather_loop_padded.
Qed.

(** X5. [batch_gather] runs one chunk at a time: whatever the event loop
    does, the tasks it has started are those of a prefix of [tasks], in
    order, and all of them but the at most [batch_size] of the current
    chunk are done. *)
Theorem batch_gather_one_chunk_at_a_time jobs batch_size scheds :
  (1 <= batch_size)%Z ->
  exists finished current,
    (batch_gather jobs batch_size scheds).2 = finished ++ current
    /\ Forall (fun t => is_done t = true) finished
    /\ length current <= Z.to_nat batch_size
    /\ Forall2 tracks (firstn (length (finished ++ current)) jobs)
               (finished ++ current).
Proof.
  intros Hb. unfold batch_gather.
  destruct (chunks_cases (map JobCoro jobs) batch_size Hb) as [[_ ->]|[_ [e ->]]].
  - rewrite length_map. apply (batch_gather_loop_barrier (Z.to_nat batch_size)); lia.
  - exists [], []. cbn [snd app length firstn].
    repeat split; first [constructor | lia | done].
Qed.

(** X6. [batch_gather] returns all the results or none: when one of the
    tasks raises, no interleaving makes the call return a list. *)
Theorem batch_gather_all_or_error jobs batch_size scheds results :
  (1 <= batch_size)%Z -> Exists fails jobs ->
  (batch_gather jobs batch_size scheds).1 <> Returned results.
Proof.
  intros Hb Hex. unfold batch_gather.
  destruct (chunks_cases (map JobCoro jobs) batch_size Hb) as [[_ ->]|[_ [e ->]]];
    [|done].
  rewrite length_map.
  apply (batch_gather_loop_failure (Z.to_nat batch_size)); [lia|done|done].
Qed.

(** *** [run_jobs] under a round-robin loop *)

Lemma step_length l i l' :
  step l i = Some l' -> length (children l') = length (children l).
Proof.
  unfold step, done_callback. intros Hs.
  destruct (children l !! i) as [[job|p [|k] job|r]|]; simplify_eq/=.
  - destruct (0 <? sem_value l)%Z; simplify_eq/=. by rewrite length_insert.
  - destruct (outer l), (outcome job); simpl;
      repeat case_match; simpl; by rewrite length_insert.
  - by rewrite length_insert.
Qed.

Lemma exec_length sched : forall l,
  length (children (exec sched l)) = length (children l).
Proof.
  induction sched as [|i sched IH]; intros l; simpl; [done|].
  rewrite IH. destruct (step l i) eqn:Hs; simpl; [by eapply step_length|done].
Qed.

Lemma exec_work_le sched : forall l,
  total_work (children (exec sched l)) <= total_work (children l).
Proof.
  induction sched as [|i sched IH]; intros l; simpl; [done|].
  etransitivity; [apply IH|]. destruct (step l i) eqn:Hs; simpl; [|done].
  pose proof (step_work _ _ _ Hs). lia.
Qed.

Lemma exec_work_lt sched : forall l i l',
  In i sched -> step l i = Some l' ->
  total_work (children (exec sched l)) < total_work (children l).
Proof.
  induction sched as [|j sched IH]; intros l i l' Hin Hs; [done|]. simpl.
  destruct (step l j) as [l''|] eqn:Hj; simpl.
  - pose proof (step_work _ _ _ Hj). pose proof (exec_work_le sched l''). lia.
  - destruct Hin as [->|Hin]; [congruence|]. by eapply IH.
Qed.

Lemma exec_all_done sched : forall l, all_done l = true -> exec sched l = l.
Proof.
  induction sched as [|i sched IH]; intros l Hd; simpl; [done|].
  replace (step l i) with (@None (Loop T)); [by apply IH|].
  unfold step. destruct (children l !! i) as [t|] eqn:Hi; [|done].
  apply all_done_Forall in Hd. rewrite Forall_lookup in Hd.
  specialize (Hd _ _ Hi). by destruct t.
Qed.

Lemma round_robin_all_done jobs W passes : forall l,
  consistent jobs W l -> (1 <= W)%Z ->
  total_work (children l) <= passes ->
  all_done (exec (round_robin (length (children l)) passes) l) = true.
Proof.
  induction passes as [|passes IH]; intros l Hc HW Hw.
  - simpl. apply all_done_Forall, total_work_zero. lia.
  - unfold round_robin. cbn [repeat concat]. rewrite exec_app.
    fold (round_robin (length (children l)) passes).
    destruct (all_done l) eqn:Hd.
    { by rewrite (exec_all_done (seq 0 _) l Hd), (exec_all_done _ l Hd). }
    destruct (progress _ _ _ Hc (or_introl HW) Hd) as (i & l' & Hs).
    assert (Hin : In i (seq 0 (length (children l)))).
    { apply in_seq. split; [lia|]. simpl. unfold step in Hs.
      destruct (children l !! i) eqn:Hi; [|done]. by eapply lookup_lt_Some. }
    pose proof (exec_work_lt _ _ _ _ Hin Hs) as Hlt.
    rewrite <- (exec_length (seq 0 (length (children l))) l) at 1.
    apply IH; [by apply exec_consistent|done|lia].
Qed.

(** X7. With [workers >= 1], [run_jobs] cannot starve under a fair loop:
    a round-robin over the tasks with as many passes as the resumptions the
    jobs need ends with every task done and the gather resolved, by the
    results in submission order when no job raises. *)
Theorem run_jobs_round_robin_completes jobs W passes :
  (1 <= W)%Z -> total_work (map Blocked jobs) <= passes ->
  exists l,
    run_jobs jobs W (round_robin (length jobs) passes) = Return l
    /\ all_done l = true
    /\ outer l <> Pending
    /\ (Forall succeeds jobs -> outer l = Returned (map outcome jobs)).
Proof.
  intros HW Hp. eexists. split; [apply run_jobs_unfold; lia|].
  assert (Hc : consistent jobs W (submitted jobs W)) by (apply submitted_consistent; lia).
  assert (Hd : all_done (exec (round_robin (length jobs) passes) (submitted jobs W)) = true).
  { pose proof (round_robin_all_done jobs W passes _ Hc HW Hp) as H.
    simpl in H. by rewrite length_map in H. }
  pose proof (exec_consistent _ _ (round_robin (length jobs) passes) _ Hc) as Hc'.
  split; [done|]. split; [by eapply all_done_resolved|].
  intros Hok. destruct (resolved_with_results _ _ _ Hc' Hok) as [Hp'|]; [|done].
  by destruct (all_done_resolved _ _ _ Hc' Hd).
Qed.

(** *** [asyncio_run], [run_async_tasks] *)

Section AsyncioRun.
Context (isinstance_RuntimeError : Exn -> bool).
Hypothesis RuntimeError_is_one :
  forall msg, isinstance_RuntimeError (Exception "RuntimeError" msg) = true.

Lemma asyncio_run_no_loop {A} (coro : Completion A) :
  asyncio_run isinstance_RuntimeError None coro = coro.
Proof. unfold asyncio_run. simpl. by rewrite RuntimeError_is_one. Qed.

Lemma asyncio_run_in_loop {A} loop (coro : Completion A) :
  loop_is_running loop = true ->
  asyncio_run isinstance_RuntimeError (Some loop) coro
  = Exc (Exception "RuntimeError"
           "asyncio.run() cannot be called from a running event loop").
Proof. intros Hr. unfold asyncio_run. simpl. by rewrite Hr, RuntimeError_is_one. Qed.

(** X8. [asyncio_run] runs the coroutine to its own result when no loop is
    running; called under a running loop it raises the [RuntimeError] of
    [asyncio.run], and its own "Nested async detected" error never reaches
    the caller, being caught by the [except RuntimeError] around it. *)
Theorem asyncio_run_never_reports_nesting {A} (coro : Completion A) :
  asyncio_run isinstance_RuntimeError None coro = coro
  /\ (forall loop, loop_is_running loop = true ->
        asyncio_run isinstance_RuntimeError (Some loop) coro
        = Exc (Exception "RuntimeError"
                 "asyncio.run() cannot be called from a running event loop"))
  /\ (forall env,
        asyncio_run isinstance_RuntimeError env coro
        = Exc (Exception "RuntimeError" nested_async_detected) ->
        coro = Exc (Exception "RuntimeError" nested_async_detected)).
Proof.
  split; [apply asyncio_run_no_loop|].
  split; [intros loop Hr; by apply asyncio_run_in_loop|].
  intros [[[]]|].
  - rewrite asyncio_run_in_loop by done. intros [=].
  - unfold asyncio_run, run_until_complete. simpl.
    destruct coro as [|a|e]; try done.
    destruct (isinstance_RuntimeError e) eqn:He; simpl; [intros [=]|].
    intros [= ->]. by rewrite RuntimeError_is_one in He.
  - by rewrite asyncio_run_no_loop.
Qed.

Lemma run_async_tasks_unfold (tasks : list (Job T)) env sched :
  run_async_tasks isinstance_RuntimeError tasks env sched
  = asyncio_run isinstance_RuntimeError env
      (of_outer (outer (exec sched (gathered tasks)))).
Proof. unfold run_async_tasks. by rewrite gather_jobs. Qed.

(** X9. [run_async_tasks] without progress bar: under a running loop it
    raises [RuntimeError] whatever the tasks are; otherwise, when no task
    raises, it can only return the results in the order of [tasks], and
    some schedule makes it do so; when a task raises, it returns nothing. *)
Theorem run_async_tasks_results (tasks : list (Job T)) :
  (forall loop sched, loop_is_running loop = true ->
      run_async_tasks isinstance_RuntimeError tasks (Some loop) sched
      = Exc (Exception "RuntimeError"
               "asyncio.run() cannot be called from a running event loop"))
  /\ (Forall succeeds tasks ->
      (forall sched,
          run_async_tasks isinstance_RuntimeError tasks None sched = Unfinished
          \/ run_async_tasks isinstance_RuntimeError tasks None sched
             = Finished (map outcome tasks))
      /\ exists sched,
          run_async_tasks isinstance_RuntimeError tasks None sched
          = Finished (map outcome tasks))
  /\ (Exists fails tasks ->
      forall sched results,
        run_async_tasks isinstance_RuntimeError tasks None sched <> Finished results).
Proof.
  split; [|split].
  - intros loop sched Hr. rewrite run_async_tasks_unfold. by apply asyncio_run_in_loop.
  - intros Hok. split.
    + intros sched. rewrite run_async_tasks_unfold, asyncio_run_no_loop.
      destruct (gathered_results tasks sched Hok) as [-> | ->]; [by left|by right].
    + destruct (gathered_completes tasks Hok) as [sched Hs]. exists sched.
      by rewrite run_async_tasks_unfold, asyncio_run_no_loop, Hs.
  - intros Hex sched results. rewrite run_async_tasks_unfold, asyncio_run_no_loop.
    pose proof (exec_consistent tasks 0 sched _ (gathered_consistent tasks)) as Hc.
    pose proof (c_outer _ _ _ Hc) as Ho. unfold outer_ok in Ho.
    destruct (outer (exec sched (gathered tasks))) as [|rs|e]; simpl; try done.
    destruct Ho as (_ & _ & Hret). intros _.
    apply Exists_exists in Hex as (j & Hin & Hj).
    rewrite Forall_forall in Hret. specialize (Hret _ Hin).
    unfold fails in Hj. congruence.
Qed.
End AsyncioRun.

(** *** [run_jobs] with a permit for every job *)

Lemma count_permit_blocked ts i job :
  ts !! i = Some (Blocked job) -> count holds_permit ts < length ts.
Proof.
  revert i; induction ts as [|t ts IH]; intros [|i] Hi; simplify_eq/=.
  - pose proof (count_le holds_permit ts). lia.
  - specialize (IH _ Hi). destruct (holds_permit t); lia.
Qed.

(** X16. With at least as many workers as jobs the semaphore never makes a
    job wait: under every schedule, every job that has not finished can
    be resumed. *)
Theorem run_jobs_enough_workers jobs W sched :
  (Z.of_nat (length jobs) <= W)%Z ->
  exists l,
    run_jobs jobs W sched = Return l
    /\ forall i t, children l !! i = Some t -> is_done t = false ->
                   exists l', step l i = Some l'.
Proof.
  intros HW. eexists. split; [apply run_jobs_unfold; lia|].
  assert (Hc : consistent jobs W (exec sched (submitted jobs W))).
  { apply exec_consistent, submitted_consistent. lia. }
  intros i t Hi Hd. unfold step. rewrite Hi.
  destruct t as [job|permit [|k] job|r]; try done; eauto.
  pose proof (count_permit_blocked _ _ _ Hi) as Hlt.
  pose proof (c_permits _ _ _ Hc) as Hp. unfold running in Hp.
  pose proof (Forall2_length _ _ _ (c_tracks _ _ _ Hc)) as Hlen.
  destruct (0 <? sem_value _)%Z eqn:E; [eauto|]. lia.
Qed.

End Props.
End AsyncUtilsTheory.

(** * Properties of instrumentation/dispatcher.py *)
Module DispatcherTheory.
Import Dispatcher.
Section Props.

Context {Any : Type}.
Implicit Types (m : gmap string (Dispatcher Any)) (c d self p : Dispatcher Any).
Implicit Types (st : Ctx Any) (sig : Signal Any) (path : list (Dispatcher Any)).
Implicit Types (func : Operation Any) (fuel : nat).

(** *** One dispatcher: every handler is called, raising or not *)

Lemma for_handlers_invoke {H : Type} (who : H -> string) sig
      (raised : H -> Ctx Any -> option Exn) (handlers : list H) st :
  for_handlers (fun h st => invoke (who h) sig (raised h st) st) handlers st
  = {| active_span_id := active_span_id st;
       log := log st ++ told who sig handlers |}.
Proof.
  revert st; induction handlers as [|h hs IH]; intros st; simpl.
  - rewrite app_nil_r. by destruct st.
  - rewrite IH. unfold try_except_pass, invoke.
    destruct (raised h st); simpl; by rewrite <- app_assoc.
Qed.

(** *** The walk up the parent chain *)

Lemma dispatch_route {H : Type} (who : H -> string) sig
      (raised : H -> Ctx Any -> option Exn)
      (handlers : Dispatcher Any -> list H) m c path r :
  route m c path r ->
  forall fuel st, length path <= fuel ->
    dispatch fuel handlers (fun h st => invoke (who h) sig (raised h st) st) m c st
    = Some ({| active_span_id := active_span_id st;
               log := log st ++ reports who handlers sig path |}, r).
Proof.
  induction 1 as [c Hp|c e Hp He|c p path r Hp Hpar _ IH];
    intros [|fuel] st Hf; simpl in Hf; try lia;
    simpl; rewrite for_handlers_invoke, Hp; simpl.
  - by rewrite app_nil_r.
  - by rewrite He, app_nil_r.
  - rewrite Hpar, IH by lia. simpl. by rewrite <- app_assoc.
Qed.

(** In a tree (every parent lies strictly nearer to the root than its
    child) the walk exists from every dispatcher. *)
Lemma route_exists m (depth : Dispatcher Any -> nat) :
  (forall c p, propagate c = true -> parent m c = Return p -> depth p < depth c) ->
  forall d, exists path r, route m d path r /\ length path <= S (depth d).
Proof.
  intros Htree d. remember (depth d) as n eqn:Hn.
  revert d Hn. induction n as [n IH] using lt_wf_ind. intros d ->.
  destruct (propagate d) eqn:Hp.
  - destruct (parent m d) as [p|e] eqn:Hpar.
    + destruct (IH (depth p) (Htree _ _ Hp Hpar) p eq_refl) as (path & r & Hr & Hl).
      exists (d :: path), r. split; [by eapply route_up|].
      pose proof (Htree _ _ Hp Hpar). simpl. lia.
    + exists [d], (Raise e). split; [by apply route_root|simpl; lia].
  - exists [d], (Return tt). split; [by apply route_stop|simpl; lia].
Qed.

(** A notification comes back without an error exactly when the walk
    ends at a dispatcher that does not propagate. *)
Lemma dispatch_returns_route {H : Type} (handlers : Dispatcher Any -> list H)
      (call : H -> Ctx Any -> Ctx Any * Result unit) m fuel :
  forall c st st',
    dispatch fuel handlers call m c st = Some (st', Return tt) ->
    exists path, route m c path (Return tt) /\ length path <= fuel.
Proof.
  induction fuel as [|fuel IH]; intros c st st' Hd; simpl in Hd; [done|].
  destruct (propagate c) eqn:Hp; simpl in Hd.
  - destruct (parent m c) as [p|e] eqn:Hpar; [|done].
    destruct (IH _ _ _ Hd) as (path & Hr & Hl).
    exists (c :: path). split; [by eapply route_up|simpl; lia].
  - exists [c]. split; [by apply route_stop|simpl; lia].
Qed.

(** *** Handlers that never raise *)

Lemma told_quiet_eh sig (hs : list (BaseEventHandler Any)) :
  told eh_name sig (map quiet_eh hs) = told eh_name sig hs.
Proof. unfold told. rewrite map_map. done. Qed.

Lemma told_quiet_sh sig (hs : list (BaseSpanHandler Any)) :
  told sh_name sig (map quiet_sh hs) = told sh_name sig hs.
Proof. unfold told. rewrite map_map. done. Qed.

Lemma parent_quiet m c :
  parent (quiet <$> m) (quiet c)
  = match parent m c with Return p => Return (quiet p) | Raise e => Raise e end.
Proof.
  unfold parent, Manager; simpl. destruct (manager c); [|done].
  rewrite lookup_fmap. by destruct (m !! parent_name c).
Qed.

Lemma dispatch_quiet {H : Type} (who : H -> string) sig
      (raised : H -> Ctx Any -> option Exn)
      (handlers : Dispatcher Any -> list H) fuel m :
  (forall c, told who sig (handlers (quiet c)) = told who sig (handlers c)) ->
  forall c st,
    dispatch fuel handlers (fun h st => invoke (who h) sig (raised h st) st) m c st
    = dispatch fuel handlers (fun h st => invoke (who h) sig (raised h st) st)
               (quiet <$> m) (quiet c) st.
Proof.
  intros Hq. induction fuel as [|fuel IH]; intros c st; simpl; [done|].
  rewrite !for_handlers_invoke, Hq, parent_quiet.
  destruct (propagate c); simpl; [|done].
  destruct (parent m c); [apply IH|done].
Qed.

Lemma event_quiet fuel m d ev st :
  event fuel m d ev st = event fuel (quiet <$> m) (quiet d) ev st.
Proof.
  apply (dispatch_quiet eh_name (Handle ev) (fun h st => handle h (log st) ev)).
  intros c. apply told_quiet_eh.
Qed.

Lemma span_enter_quiet fuel m d id_ bound_args instance parent_id st :
  span_enter fuel m d id_ bound_args instance parent_id st
  = span_enter fuel (quiet <$> m) (quiet d) id_ bound_args instance parent_id st.
Proof.
  apply (dispatch_quiet sh_name (SpanEnter id_ bound_args instance parent_id)
           (fun h st => sh_span_enter h (log st) id_ bound_args instance parent_id)).
  intros c. apply told_quiet_sh.
Qed.

Lemma span_drop_quiet fuel m d id_ bound_args instance err st :
  span_drop fuel m d id_ bound_args instance err st
  = span_drop fuel (quiet <$> m) (quiet d) id_ bound_args instance err st.
Proof.
  apply (dispatch_quiet sh_name (SpanDrop id_ bound_args instance err)
           (fun h st => sh_span_drop h (log st) id_ bound_args instance err)).
  intros c. apply told_quiet_sh.
Qed.

Lemma span_exit_quiet fuel m d id_ bound_args instance result st :
  span_exit fuel m d id_ bound_args instance result st
  = span_exit fuel (quiet <$> m) (quiet d) id_ bound_args instance result st.
Proof.
  apply (dispatch_quiet sh_name (SpanExit id_ bound_args instance result)
           (fun h st => sh_span_exit h (log st) id_ bound_args instance result)).
  intros c. apply told_quiet_sh.
Qed.

Lemma async_wrapper_is_wrapper fuel m d func :
  async_wrapper fuel m d func = wrapper fuel m d func.
Proof. reflexivity. Qed.

Lemma wrapper_quiet fuel m d func instance args uuid st :
  wrapper fuel m d func instance args uuid st
  = wrapper fuel (quiet <$> m) (quiet d) func instance args uuid st.
Proof.
  unfold wrapper. simpl.
  rewrite <- span_enter_quiet.
  destruct (span_enter _ _ _ _ _ _ _ _) as [[st1 [[]|e]]|]; try done.
  f_equal. destruct (call func args st1) as [[st2 [result|e]]|]; try done.
  - by rewrite <- span_exit_quiet.
  - rewrite <- event_quiet.
    destruct (event _ _ _ _ _) as [[st3 [[]|e']]|]; try done.
    by rewrite <- span_drop_quiet.
Qed.

(** *** The span wrapper on a walk that ends at a non-propagating dispatcher *)

Lemma span_enter_route m d path fuel id_ bound_args instance parent_id st :
  route m d path (Return tt) -> length path <= fuel ->
  span_enter fuel m d id_ bound_args instance parent_id st
  = Some ({| active_span_id := active_span_id st;
             log := log st ++ reports sh_name span_handlers
                                (SpanEnter id_ bound_args instance parent_id) path |},
          Return tt).
Proof.
  intros Hr Hf.
  apply (dispatch_route sh_name (SpanEnter id_ bound_args instance parent_id)
           (fun h st => sh_span_enter h (log st) id_ bound_args instance parent_id)
           span_handlers m d path _ Hr fuel st Hf).
Qed.

Lemma wrapper_run m d path fuel func instance args uuid st st2 r :
  route m d path (Return tt) -> length path <= fuel ->
  call func args (entered path func instance args uuid st) = Some (st2, r) ->
  wrapper fuel m d func instance args uuid st
  = Some ({| active_span_id := active_span_id st;
             log := log st2 ++ terminal path func instance args uuid r |}, r).
Proof.
  intros Hr Hf Hcall. unfold wrapper. simpl.
  rewrite (span_enter_route m d path) by done. simpl.
  fold (span_id_of func uuid).
  change {| active_span_id := Some (span_id_of func uuid); log := _ |}
    with (entered path func instance args uuid st).
  rewrite Hcall. destruct r as [result|e]; simpl.
  - unfold span_exit, call_span_exit.
    rewrite (dispatch_route sh_name
               (SpanExit (span_id_of func uuid) args instance result)
               (fun h st => sh_span_exit h (log st) (span_id_of func uuid)
                              args instance result)
               span_handlers m d path _ Hr fuel st2 Hf).
    done.
  - unfold event, call_handle.
    rewrite (dispatch_route eh_name
               (Handle (SpanDropEvent (span_id_of func uuid) (str e)))
               (fun h st => handle h (log st)
                              (SpanDropEvent (span_id_of func uuid) (str e)))
               event_handlers m d path _ Hr fuel st2 Hf).
    unfold span_drop, call_span_drop.
    rewrite (dispatch_route sh_name
               (SpanDrop (span_id_of func uuid) args instance e)
               (fun h st => sh_span_drop h (log st) (span_id_of func uuid)
                              args instance e)
               span_handlers m d path _ Hr fuel _ Hf).
    simpl. unfold active_span_id_reset; simpl. by rewrite <- app_assoc.
Qed.

Lemma span_run m d path fuel func instance args uuid st st2 r :
  route m d path (Return tt) -> length path <= fuel ->
  call func args (entered path func instance args uuid st) = Some (st2, r) ->
  span fuel m d func instance args uuid st
  = Some ({| active_span_id := active_span_id st;
             log := log st2 ++ terminal path func instance args uuid r |}, r).
Proof.
  intros. unfold span. destruct (iscoroutinefunction func);
    [rewrite async_wrapper_is_wrapper|]; by eapply wrapper_run.
Qed.

(** *** The claims *)

Lemma notification_along_route m d path r fuel st :
  route m d path r -> length path <= fuel ->
  (forall ev,
      event fuel m d ev st
      = Some ({| active_span_id := active_span_id st;
                 log := log st ++ reports eh_name event_handlers (Handle ev) path |},
              r))
  /\ (forall id_ bound_args instance parent_id,
         span_enter fuel m d id_ bound_args instance parent_id st
         = Some ({| active_span_id := active_span_id st;
                    log := log st ++ reports sh_name span_handlers
                             (SpanEnter id_ bound_args instance parent_id) path |},
                 r))
  /\ (forall id_ bound_args instance result,
         span_exit fuel m d id_ bound_args instance result st
         = Some ({| active_span_id := active_span_id st;
                    log := log st ++ reports sh_name span_handlers
                             (SpanExit id_ bound_args instance result) path |},
                 r))
  /\ (forall id_ bound_args instance err,
         span_drop fuel m d id_ bound_args instance err st
         = Some ({| active_span_id := active_span_id st;
                    log := log st ++ reports sh_name span_handlers
                             (SpanDrop id_ bound_args instance err) path |},
                 r)).
Proof.
  intros Hr Hf. repeat split.
  - intros ev.
    apply (dispatch_route eh_name (Handle ev) (fun h st => handle h (log st) ev)
             event_handlers m d path r Hr fuel st Hf).
  - intros.
    apply (dispatch_route sh_name (SpanEnter id_ bound_args instance parent_id)
             (fun h st => sh_span_enter h (log st) id_ bound_args instance parent_id)
             span_handlers m d path r Hr fuel st Hf).
  - intros.
    apply (dispatch_route sh_name (SpanExit id_ bound_args instance result)
             (fun h st => sh_span_exit h (log st) id_ bound_args instance result)
             span_handlers m d path r Hr fuel st Hf).
  - intros.
    apply (dispatch_route sh_name (SpanDrop id_ bound_args instance err)
             (fun h st => sh_span_drop h (log st) id_ bound_args instance err)
             span_handlers m d path r Hr fuel st Hf).
Qed.

(** C8, as the code has it.  On a dispatcher whose walk ends at a
    non-propagating dispatcher (so that [span_enter] returns), a
    span-wrapped call (sync or async) tells the span handlers the
    previously active span id as the parent id ([None] when no span was
    active), runs the operation with the new span's id as the active
    one, and leaves the active span id exactly as it found it, whether
    the operation returned or raised. *)
Theorem span_restores_active_span_id m d path fuel func instance args uuid st st2 r :
  route m d path (Return tt) -> length path <= fuel ->
  call func args (entered path func instance args uuid st) = Some (st2, r) ->
  span_enter fuel m d (span_id_of func uuid) args instance (active_span_id st)
             (snd (active_span_id_set (span_id_of func uuid) st))
  = Some (entered path func instance args uuid st, Return tt)
  /\ active_span_id (entered path func instance args uuid st)
     = Some (span_id_of func uuid)
  /\ exists st',
      span fuel m d func instance args uuid st = Some (st', r)
      /\ active_span_id st' = active_span_id st.
Proof.
  intros Hr Hf Hcall. split; [|split; [done|]].
  - by rewrite (span_enter_route m d path).
  - eexists. split; [by eapply span_run|done].
Qed.

(** C9, as the code has it.  A call whose arguments do not fit the
    operation's signature raises the [TypeError] of the binding at once:
    no handler is told anything, the span is neither entered nor ended,
    and the state is as it was.  A call whose arguments fit, on a
    dispatcher whose walk ends at a non-propagating dispatcher (so that
    [span_enter] returns), ends in exactly one way.  If the operation
    returns a value the span handlers get span_exit with that value and
    the value is returned; if it raises, the event handlers get a
    SpanDropEvent with the error's text first, then the span handlers get
    span_drop with the error, and the same error is raised.  Nothing else
    is told to any handler after the operation has ended. *)
Theorem span_single_terminal_transition
        m d path fuel func signature instance args uuid st st2 r :
  route m d path (Return tt) -> length path <= fuel ->
  call func args (entered path func instance args uuid st) = Some (st2, r) ->
  (accepts signature args = false ->
   decorated fuel m d func signature instance args uuid st
   = Some (st, Raise (TypeError (complaint signature args))))
  /\ (accepts signature args = true ->
      exists st',
        decorated fuel m d func signature instance args uuid st = Some (st', r)
        /\ span fuel m d func instance args uuid st = Some (st', r)
        /\ log st' = log st2 ++
             match r with
             | Return result =>
                 reports sh_name span_handlers
                   (SpanExit (span_id_of func uuid) args instance result) path
             | Raise e =>
                 reports eh_name event_handlers
                   (Handle (SpanDropEvent (span_id_of func uuid) (str e))) path
                 ++ reports sh_name span_handlers
                      (SpanDrop (span_id_of func uuid) args instance e) path
             end).
Proof.
  intros Hr Hf Hcall. unfold decorated, bind. split; intros ->; [done|].
  eexists. split; [by eapply span_run|]. split; [by eapply span_run|done].
Qed.

(** *** The registry *)

Lemma add_dispatcher_lookup m d n :
  add_dispatcher m d !! n
  = match m !! n with
    | Some d' => Some d'
    | None => if String.eqb (name d) n then Some d else None
    end.
Proof.
  unfold add_dispatcher, Manager.
  destruct (String.eqb_spec (name d) n) as [<-|Hne].
  - destruct (m !! name d) eqn:Hl; [by rewrite Hl|]. by rewrite lookup_insert_eq.
  - destruct (m !! name d) eqn:Hl; [by destruct (m !! n)|].
    rewrite lookup_insert_ne by done. by destruct (m !! n).
Qed.

Lemma registry_lookup (ds : list (Dispatcher Any)) n : forall m,
  fold_left add_dispatcher ds m !! n
  = match m !! n with
    | Some d' => Some d'
    | None => find (fun d => String.eqb (name d) n) ds
    end.
Proof.
  induction ds as [|d ds IH]; intros m; simpl.
  - unfold Manager. by destruct (m !! n).
  - rewrite IH, add_dispatcher_lookup. unfold Manager.
    destruct (m !! n); [done|]. by destruct (String.eqb (name d) n).
Qed.

Lemma registry_find (r0 : Dispatcher Any) ds n :
  fold_left add_dispatcher ds (Manager_init r0) !! n
  = find (fun d => String.eqb (name d) n) (r0 :: ds).
Proof.
  rewrite registry_lookup. unfold Manager_init, Manager. simpl.
  destruct (String.eqb_spec (name r0) n) as [<-|Hne].
  - by rewrite lookup_singleton_eq.
  - by rewrite lookup_singleton_ne.
Qed.

Lemma registry_keyed (r0 : Dispatcher Any) ds :
  keyed_by_name (fold_left add_dispatcher ds (Manager_init r0)).
Proof.
  intros k d Hl. rewrite registry_find in Hl.
  apply find_some in Hl as [_ He]. by apply String.eqb_eq in He.
Qed.

(** X10. The registry keeps the first dispatcher registered under a name:
    after [Manager(root)] and any sequence of [add_dispatcher] calls, the
    entry for a name is the first dispatcher of that name among the root
    and the dispatchers added, in that order.  A later registration under
    a taken name is dropped without an error, and the root cannot be
    displaced: [Dispatcher.root] of a managed dispatcher whose [root_name]
    is the root's name is the root the manager was built with. *)
Theorem registry_first_registration_wins (r0 : Dispatcher Any) ds :
  (forall n,
      fold_left add_dispatcher ds (Manager_init r0) !! n
      = find (fun d => String.eqb (name d) n) (r0 :: ds))
  /\ (forall d, manager d = true -> root_name d = name r0 ->
        root (fold_left add_dispatcher ds (Manager_init r0)) d = Return r0).
Proof.
  split; [intros n; apply registry_find|].
  intros d Hm Hn. unfold root. rewrite Hm, Hn, registry_find. simpl.
  by rewrite String.eqb_refl.
Qed.

(** *** Notifications and walks *)

Lemma notify_route m d path r fuel sig st :
  route m d path r -> length path <= fuel ->
  notify fuel m d sig st
  = Some ({| active_span_id := active_span_id st;
             log := log st ++ heard sig path |}, r).
Proof.
  intros Hr Hf. destruct (notification_along_route m d path r fuel st Hr Hf)
    as (He & Hen & Hex & Hdr).
  destruct sig; simpl; auto.
Qed.

Lemma dispatch_some_route {H : Type} (handlers : Dispatcher Any -> list H)
      (call : H -> Ctx Any -> Ctx Any * Result unit) m fuel :
  forall c st st' r,
    dispatch fuel handlers call m c st = Some (st', r) ->
    exists path, route m c path r /\ length path <= fuel.
Proof.
  induction fuel as [|fuel IH]; intros c st st' r Hd; simpl in Hd; [done|].
  destruct (propagate c) eqn:Hp; simpl in Hd.
  - destruct (parent m c) as [p|e] eqn:Hpar.
    + destruct (IH _ _ _ _ Hd) as (path & Hr & Hl).
      exists (c :: path). split; [by eapply route_up|simpl; lia].
    + simplify_eq. exists [c]. split; [by apply route_root|simpl; lia].
  - simplify_eq. exists [c]. split; [by apply route_stop|simpl; lia].
Qed.

Lemma dispatch_none_no_route {H : Type} (handlers : Dispatcher Any -> list H)
      (call : H -> Ctx Any -> Ctx Any * Result unit) m fuel :
  forall c st path r,
    dispatch fuel handlers call m c st = None ->
    route m c path r -> fuel < length path.
Proof.
  induction fuel as [|fuel IH]; intros c st path r Hd Hr.
  - inversion Hr; simpl; lia.
  - simpl in Hd. inversion Hr as [c' Hp|c' e Hp He|c' p path' r' Hp Hpar Hr']; subst.
    + by rewrite Hp in Hd.
    + by rewrite Hp, He in Hd.
    + rewrite Hp, Hpar in Hd. simpl in Hd.
      pose proof (IH _ _ _ _ Hd Hr'). simpl. lia.
Qed.

Lemma notify_some_route m d fuel sig st st' r :
  notify fuel m d sig st = Some (st', r) ->
  exists path, route m d path r /\ length path <= fuel.
Proof. destruct sig; simpl; apply dispatch_some_route. Qed.

Lemma route_functional m d path r :
  route m d path r ->
  forall path' r', route m d path' r' -> path' = path /\ r' = r.
Proof.
  induction 1 as [c Hp|c e Hp He|c p path r Hp Hpar _ IH];
    intros path' r' Hr';
    inversion Hr' as [c' Hp'|c' e' Hp' He'|c' p' path'' r'' Hp' Hpar' Hr'']; subst;
    try congruence.
  - done.
  - split; congruence.
  - assert (p' = p) as -> by congruence.
    destruct (IH _ _ Hr'') as [-> ->]. done.
Qed.

(** X11. A notification that comes back has followed the walk: whenever
    [event], [span_enter], [span_drop] or [span_exit] returns or raises,
    there is a walk from the dispatcher that ends the same way, it is the
    only walk from there, the handlers of the relevant kind on it have each
    been told once, in walk order, and nothing else has changed; the
    registry need not be a tree for this. *)
Theorem notification_only_along_route m d fuel sig st st' r :
  notify fuel m d sig st = Some (st', r) ->
  exists path,
    route m d path r /\ length path <= fuel
    /\ st' = {| active_span_id := active_span_id st;
                log := log st ++ heard sig path |}
    /\ (forall path' r', route m d path' r' -> path' = path /\ r' = r)
    /\ (forall fuel', fuel <= fuel' -> notify fuel' m d sig st = Some (st', r)).
Proof.
  intros Hn. destruct (notify_some_route _ _ _ _ _ _ _ Hn) as (path & Hr & Hl).
  exists path. split; [done|]. split; [done|].
  rewrite (notify_route m d path r) in Hn by done. simplify_eq.
  split; [done|]. split; [by apply route_functional|].
  intros fuel' Hf. apply notify_route; [done|lia].
Qed.

(** *** A parent chain that never ends *)

Lemma dispatch_trapped {H : Type} (handlers : Dispatcher Any -> list H)
      (call : H -> Ctx Any -> Ctx Any * Result unit) m
      (inside : Dispatcher Any -> Prop) :
  (forall c, inside c ->
     propagate c = true /\ exists p, parent m c = Return p /\ inside p) ->
  forall fuel c st, inside c -> dispatch fuel handlers call m c st = None.
Proof.
  intros Htrap. induction fuel as [|fuel IH]; intros c st Hc; simpl; [done|].
  destruct (Htrap c Hc) as (Hp & p & Hpar & Hin).
  rewrite Hp, Hpar. simpl. by apply IH.
Qed.

(** X12. The walk has no guard against cycles.  From a dispatcher inside a
    set of propagating dispatchers that is closed under [parent], no
    notification ever comes back, and neither does a span-wrapped call:
    the [while c:] loop of [span_enter] runs forever, before the operation
    is called. *)
Theorem cyclic_parent_chain_never_returns m (inside : Dispatcher Any -> Prop) d :
  (forall c, inside c ->
     propagate c = true /\ exists p, parent m c = Return p /\ inside p) ->
  inside d ->
  forall fuel st,
    (forall sig, notify fuel m d sig st = None)
    /\ (forall func instance args uuid,
           span fuel m d func instance args uuid st = None).
Proof.
  intros Htrap Hd fuel st. split.
  - intros []; simpl; by eapply dispatch_trapped.
  - intros func instance args uuid. unfold span.
    destruct (iscoroutinefunction func); rewrite ?async_wrapper_is_wrapper;
      unfold wrapper; simpl; unfold span_enter;
      by erewrite dispatch_trapped.
Qed.

(** *** A walk that ends in a failed lookup *)

(** X13. On a dispatcher whose walk ends in a failed parent lookup (a
    propagating dispatcher without a manager, or whose [parent_name] is
    not registered), a span-wrapped call raises that lookup's error out of
    [span_enter]: the span handlers on the walk have been told that the
    span is entered, the operation is not called, the handlers hear of no
    exit and no drop, and the active span id stays set to the new span. *)
Theorem span_on_failing_walk m d path e fuel func instance args uuid st :
  route m d path (Raise e) -> length path <= fuel ->
  span fuel m d func instance args uuid st
  = Some ({| active_span_id := Some (span_id_of func uuid);
             log := log st
                    ++ heard (SpanEnter (span_id_of func uuid) args instance
                                        (active_span_id st)) path |},
          Raise e).
Proof.
  intros Hr Hf.
  pose proof (notify_route m d path (Raise e) fuel
                (SpanEnter (span_id_of func uuid) args instance (active_span_id st))
                (snd (active_span_id_set (span_id_of func uuid) st)) Hr Hf) as Hn.
  simpl in Hn. unfold span.
  destruct (iscoroutinefunction func); rewrite ?async_wrapper_is_wrapper;
    unfold wrapper; simpl; fold (span_id_of func uuid); by rewrite Hn.
Qed.

(** *** Nested spans *)

(** X14. Spans nest.  When the body of a span-wrapped operation is itself
    a span-wrapped call, the inner span is entered with the outer span's
    id as its parent id, the inner operation runs with the inner id
    active, the inner span ends before the outer one, both with the same
    outcome, and the active span id is back to what it was before the
    outer call. *)
Theorem nested_spans m d path m' d' path' fuel fuel'
        outer inner instance instance' args args' uuid uuid' st st2 r :
  (forall a st1, call outer a st1 = span fuel' m' d' inner instance' args' uuid' st1) ->
  route m d path (Return tt) -> length path <= fuel ->
  route m' d' path' (Return tt) -> length path' <= fuel' ->
  call inner args'
       (entered path' inner instance' args' uuid'
                (entered path outer instance args uuid st)) = Some (st2, r) ->
  log (entered path' inner instance' args' uuid'
               (entered path outer instance args uuid st))
  = log st
    ++ heard (SpanEnter (span_id_of outer uuid) args instance (active_span_id st)) path
    ++ heard (SpanEnter (span_id_of inner uuid') args' instance'
                        (Some (span_id_of outer uuid))) path'
  /\ active_span_id (entered path' inner instance' args' uuid'
                        (entered path outer instance args uuid st))
     = Some (span_id_of inner uuid')
  /\ span fuel m d outer instance args uuid st
     = Some ({| active_span_id := active_span_id st;
                log := log st2
                       ++ terminal path' inner instance' args' uuid' r
                       ++ terminal path outer instance args uuid r |}, r).
Proof.
  intros Hbody Hr Hf Hr' Hf' Hcall.
  split; [|split; [done|]].
  - simpl. by rewrite <- app_assoc.
  - rewrite app_assoc.
    apply (span_run m d path fuel outer instance args uuid st
             {| active_span_id := Some (span_id_of outer uuid);
                log := log st2 ++ terminal path' inner instance' args' uuid' r |}
             r Hr Hf).
    rewrite Hbody.
    by rewrite (span_run m' d' path' fuel' inner instance' args' uuid' _ st2 r
                  Hr' Hf' Hcall).
Qed.

(** *** Handlers added to a registered dispatcher *)

Section InPlace.
Context (f : Dispatcher Any -> Dispatcher Any).
Hypothesis f_parent_name : forall d, parent_name (f d) = parent_name d.
Hypothesis f_manager : forall d, manager (f d) = manager d.
Hypothesis f_propagate : forall d, propagate (f d) = propagate d.

Lemma seen_propagate n d : propagate (seen f n d) = propagate d.
Proof. unfold seen. by destruct (decide _). Qed.

Lemma parent_in_place m n c :
  keyed_by_name m ->
  parent (in_place f n m) (seen f n c)
  = match parent m c with
    | Return p => Return (seen f n p)
    | Raise e => Raise e
    end.
Proof.
  intros Hk. unfold parent, in_place, Manager.
  assert (manager (seen f n c) = manager c) as ->
      by (unfold seen; by destruct (decide _)).
  assert (parent_name (seen f n c) = parent_name c) as ->
      by (unfold seen; by destruct (decide _)).
  destruct (manager c); [|done].
  destruct (decide (parent_name c = n)) as [<-|Hne].
  - rewrite lookup_alter_eq. destruct (m !! parent_name c) as [p|] eqn:Hl; simpl; [|done].
    unfold seen. rewrite (Hk _ _ Hl). by rewrite decide_True.
  - rewrite lookup_alter_ne by done.
    destruct (m !! parent_name c) as [p|] eqn:Hl; [|done].
    unfold seen. rewrite (Hk _ _ Hl). by rewrite decide_False.
Qed.

Lemma route_in_place m n c path r :
  keyed_by_name m -> route m c path r ->
  route (in_place f n m) (seen f n c) (map (seen f n) path) r.
Proof.
  intros Hk. induction 1 as [c Hp|c e Hp He|c p path r Hp Hpar _ IH]; simpl.
  - apply route_stop. by rewrite seen_propagate.
  - apply route_root; [by rewrite seen_propagate|].
    by rewrite parent_in_place, He.
  - eapply route_up; [by rewrite seen_propagate| |exact IH].
    by rewrite parent_in_place, Hpar.
Qed.
End InPlace.

Lemma reports_map {H : Type} (who : H -> string)
      (handlers : Dispatcher Any -> list H) sig (g : Dispatcher Any -> Dispatcher Any) path :
  reports who handlers sig (map g path)
  = flat_map (fun c => told who sig (handlers (g c))) path.
Proof. unfold reports. induction path as [|c path IH]; simpl; [done|]. by rewrite IH. Qed.

Lemma reports_seen_added {H : Type} (who : H -> string)
      (handlers : Dispatcher Any -> list H) sig
      (f : Dispatcher Any -> Dispatcher Any) (h : H) n path :
  (forall d, handlers (f d) = handlers d ++ [h]) ->
  reports who handlers sig (map (seen f n) path)
  = flat_map (fun d => told who sig (handlers d)
                       ++ (if decide (name d = n) then [(who h, sig)] else []))
             path.
Proof.
  intros Hf. rewrite reports_map. induction path as [|d path IH]; simpl; [done|].
  rewrite IH. f_equal. unfold seen. destruct (decide (name d = n)); simpl.
  - rewrite Hf. unfold told. by rewrite map_app.
  - by rewrite app_nil_r.
Qed.

Lemma reports_seen_same {H : Type} (who : H -> string)
      (handlers : Dispatcher Any -> list H) sig
      (f : Dispatcher Any -> Dispatcher Any) n path :
  (forall d, handlers (f d) = handlers d) ->
  reports who handlers sig (map (seen f n) path) = reports who handlers sig path.
Proof.
  intros Hf. rewrite reports_map. unfold reports.
  induction path as [|d path IH]; simpl; [done|].
  rewrite IH. f_equal. unfold seen. destruct (decide (name d = n)); [|done].
  by rewrite Hf.
Qed.

(** X15. A handler added to a registered dispatcher is reached from below.
    After [add_event_handler(h)] on the dispatcher registered under [n], an
    event from any registered dispatcher [c] takes the walk it took
    before and tells, at each dispatcher on it, the handlers it told
    before, and at the dispatcher named [n] the new handler after them;
    span notifications are as before.  [add_span_handler] is the same with
    the two kinds of notification exchanged. *)
Theorem added_handler_reaches_descendants m n c path r fuel sig st :
  keyed_by_name m -> m !! name c = Some c ->
  route m c path r -> length path <= fuel ->
  (forall h,
      notify fuel (in_place (fun d => add_event_handler d h) n m)
             (seen (fun d => add_event_handler d h) n c) sig st
      = Some ({| active_span_id := active_span_id st;
                 log := log st ++
                   if for_event_handlers sig
                   then flat_map (fun d =>
                          told eh_name sig (event_handlers d)
                          ++ (if decide (name d = n) then [(eh_name h, sig)] else []))
                          path
                   else heard sig path |}, r))
  /\ (forall h,
        notify fuel (in_place (fun d => add_span_handler d h) n m)
               (seen (fun d => add_span_handler d h) n c) sig st
        = Some ({| active_span_id := active_span_id st;
                   log := log st ++
                     if for_event_handlers sig
                     then heard sig path
                     else flat_map (fun d =>
                            told sh_name sig (span_handlers d)
                            ++ (if decide (name d = n) then [(sh_name h, sig)] else []))
                            path |}, r)).
Proof.
  intros Hk _ Hr Hf. split; intros h.
  - rewrite (notify_route _ _ (map (seen (fun d => add_event_handler d h) n) path) r);
      [|by apply route_in_place|by rewrite length_map].
    destruct sig; cbn [heard for_event_handlers];
      first [by rewrite (reports_seen_added eh_name event_handlers _ _ h)
            |by rewrite (reports_seen_same sh_name span_handlers)].
  - rewrite (notify_route _ _ (map (seen (fun d => add_span_handler d h) n) path) r);
      [|by apply route_in_place|by rewrite length_map].
    destruct sig; cbn [heard for_event_handlers];
      first [by rewrite (reports_seen_added sh_name span_handlers _ _ h)
            |by rewrite (reports_seen_same eh_name event_handlers)].
Qed.

(** *** The length of a walk *)

(** Where the walk goes after a dispatcher depends on three of its fields
    only. *)
Lemma route_same_fields m c c' rest r :
  propagate c' = propagate c -> manager c' = manager c ->
  parent_name c' = parent_name c ->
  route m c (c :: rest) r -> route m c' (c' :: rest) r.
Proof.
  intros Hp Hm Hn Hr.
  assert (Hpar : parent m c' = parent m c) by (unfold parent; by rewrite Hm, Hn).
  inversion Hr as [c0 Hp0|c0 e Hp0 He|c0 p path0 r0 Hp0 Hpar0 Hr0]; subst.
  - apply route_stop. congruence.
  - apply route_root; congruence.
  - eapply route_up; [congruence| |exact Hr0]. congruence.
Qed.

Lemma route_head m c path r : route m c path r -> exists rest, path = c :: rest.
Proof. destruct 1; eauto. Qed.

Lemma route_suffix m r l1 : forall c path c' rest',
  route m c path r -> path = l1 ++ c' :: rest' -> route m c' (c' :: rest') r.
Proof.
  induction l1 as [|x l1 IH]; intros c path c' rest' Hr Heq.
  - destruct (route_head _ _ _ _ Hr) as [rest ->]. by simplify_eq/=.
  - inversion Hr as [c0 Hp0|c0 e Hp0 He|c0 p0 path0 r0 Hp0 Hpar0 Hr0]; subst;
      simplify_eq/=; try by destruct l1.
    by eapply IH.
Qed.

(** The names looked up along a walk: the parent names of all the
    dispatchers on it but the last. *)
Lemma route_lookups m c path r :
  route m c path r ->
  NoDup (map parent_name (removelast path))
  /\ Forall (fun k => is_Some (m !! k)) (map parent_name (removelast path)).
Proof.
  induction 1 as [c Hp|c e Hp He|c p path r Hp Hpar Hr [IHn IHf]]; simpl;
    try (split; constructor).
  destruct (route_head _ _ _ _ Hr) as [rest ->].
  change (removelast (c :: p :: rest)) with (c :: removelast (p :: rest)).
  cbn [map]. split.
  - constructor; [|done]. intros Hin.
    apply list_elem_of_fmap in Hin as (c' & Hn & Hin).
    (* c' lies on the walk, strictly before its end, and continues as c does *)
    apply list_elem_of_split in Hin as (l1 & l2 & Hsplit).
    assert (Hsuf : exists rest', p :: rest = l1 ++ c' :: rest' /\ rest' <> []).
    { destruct (exists_last (l:=p :: rest) ltac:(done)) as (init & z & Heq).
      rewrite Heq, removelast_last in Hsplit. subst init.
      exists (l2 ++ [z]). split; [by rewrite Heq, <- app_assoc|].
      by destruct l2. }
    destruct Hsuf as (rest' & Heq & Hne).
    assert (Hr' : route m c' (c' :: rest') r) by by eapply route_suffix.
    assert (Hpc' : propagate c' = true /\ manager c' = true).
    { inversion Hr' as [| |c0 p0 path0 r0 Hp0 Hpar0 Hr0]; subst; try done.
      split; [done|]. unfold parent in Hpar0. by destruct (manager c'). }
    assert (Hmc : manager c = true).
    { unfold parent in Hpar. by destruct (manager c). }
    destruct Hpc' as [Hpc' Hmc'].
    assert (Hrc : route m c (c :: rest') r).
    { apply (route_same_fields m c' c); [congruence..|done]. }
    destruct (route_functional m c _ _ (route_up m c p _ r Hp Hpar Hr) _ _ Hrc)
      as [Hpath _].
    simplify_eq. apply (f_equal length) in Heq.
    rewrite length_app in Heq. simpl in Heq. lia.
  - constructor; [|done]. unfold parent, Manager in Hpar.
    destruct (manager c); [|done].
    destruct (m !! parent_name c) eqn:E; [eauto|done].
Qed.

Lemma route_length m c path r : route m c path r -> length path <= S (size m).
Proof.
  intros Hr. destruct (route_lookups _ _ _ _ Hr) as [Hnd Hin].
  assert (Hl : length (map parent_name (removelast path)) <= size m).
  { rewrite <- size_dom.
    change (size (dom m)) with (length (elements (dom m))).
    apply submseteq_length, NoDup_submseteq; [done|].
    intros k Hk. rewrite Forall_forall in Hin.
    apply elem_of_elements, elem_of_dom. by apply Hin. }
  rewrite length_map in Hl.
  destruct (route_head _ _ _ _ Hr) as [rest ->].
  destruct (exists_last (l:=c :: rest) ltac:(done)) as (init & z & Heq).
  rewrite Heq in *. rewrite removelast_last in Hl. rewrite length_app. simpl. lia.
Qed.

(** X17. A walk visits at most one dispatcher more than are registered:
    the names it looks up are all different and all registered.  So a
    notification that has not come back after that many dispatchers never
    does. *)
Theorem walk_bounded_by_registry m d sig st :
  (forall path r, route m d path r -> length path <= S (size m))
  /\ (notify (S (size m)) m d sig st = None ->
      forall fuel, notify fuel m d sig st = None).
Proof.
  split; [intros path r; apply route_length|].
  intros Hn fuel. destruct (notify fuel m d sig st) as [[st' r]|] eqn:Hf; [|done].
  destruct (notify_some_route _ _ _ _ _ _ _ Hf) as (path & Hr & _).
  rewrite (notify_route m d path r) in Hn; [done|done|by eapply route_length].
Qed.

(** *** Handlers that raise, and how the walk goes and ends *)

Lemma heard_cons sig c path : heard sig (c :: path) = heard sig [c] ++ heard sig path.
Proof. destruct sig; unfold heard, reports; simpl; by rewrite app_nil_r. Qed.

Lemma notify_quiet fuel m d sig st :
  notify fuel m d sig st = notify fuel (quiet <$> m) (quiet d) sig st.
Proof.
  destruct sig; simpl;
    [apply event_quiet|apply span_enter_quiet|apply span_drop_quiet
    |apply span_exit_quiet].
Qed.

(** How a walk ends: every dispatcher before the last propagates; the
    last one does not, or its parent cannot be looked up. *)
Lemma route_end m d path r :
  route m d path r ->
  exists init c,
    path = init ++ [c]
    /\ Forall (fun c' => propagate c' = true) init
    /\ (propagate c = false /\ r = Return tt
        \/ propagate c = true /\ exists e, parent m c = Raise e /\ r = Raise e).
Proof.
  induction 1 as [c Hp|c e Hp He|c p path r Hp Hpar _ (init & z & -> & Hall & Hz)].
  - exists [], c. repeat split; [constructor|by left].
  - exists [], c. repeat split; [constructor|]. right. split; [done|by exists e].
  - exists (c :: init), z. repeat split; [by constructor|done].
Qed.

(** The first step of a walk is to the dispatcher the registry holds
    under the parent's name. *)
Lemma route_first_step m d p path r :
  route m d path r -> propagate d = true -> manager d = true ->
  m !! parent_name d = Some p ->
  exists rest, path = d :: p :: rest /\ route m p (p :: rest) r.
Proof.
  intros Hr Hp Hm Hl.
  assert (Hpar : parent m d = Return p).
  { unfold parent. rewrite Hm. unfold Manager in *. by rewrite Hl. }
  inversion Hr as [c Hp'|c e Hp' He|c p' path' r' Hp' Hpar' Hr']; subst;
    try congruence.
  assert (p' = p) as -> by congruence.
  destruct (route_head _ _ _ _ Hr') as [rest ->]. by exists rest.
Qed.

(** Every step of a walk goes from a dispatcher that propagates to the
    dispatcher the registry holds under its parent's name. *)
Lemma route_steps m d path r :
  route m d path r ->
  forall i c p, path !! i = Some c -> path !! S i = Some p ->
                propagate c = true /\ manager c = true
                /\ m !! parent_name c = Some p.
Proof.
  induction 1 as [c Hp|c e Hp He|c p' path r Hp Hpar Hr IH];
    intros i c0 p Hc Hn; try by destruct i.
  destruct (route_head _ _ _ _ Hr) as [rest ->].
  destruct i as [|i]; [|by apply (IH i)].
  simpl in Hc, Hn. simplify_eq. split; [done|].
  unfold parent in Hpar. destruct (manager c0); [|done]. split; [done|].
  unfold Manager in *. by destruct (m !! parent_name c0); simplify_eq.
Qed.

(** C6.  A handler that raises is cut off at its call site.  A list of
    handlers of either kind is called to the end, each handler once and in
    order, whatever any of them raises.  A notification (event,
    span_enter, span_drop, span_exit) that starts at [d] and comes back
    has called every handler of its kind on the walk from [d], in order,
    whatever the handlers raised: all the handlers of [d], after them all
    the handlers of the dispatcher registered as its parent when [d]
    propagates, and so on; the active span id is untouched; and what the
    notification raises, if anything, is the failed lookup of the parent
    of the last dispatcher on the walk, never what a handler raised.  A
    span-wrapped call on a completed walk gives the operation's own
    outcome.  And every notification and span-wrapped call goes exactly
    as it would if no handler of the dispatcher or of its ancestors ever
    raised. *)
Theorem handler_exceptions_are_swallowed fuel m d st :
  (forall (H : Type) (who : H -> string) sig raised (handlers : list H),
      for_handlers (fun h st => invoke (who h) sig (raised h st) st) handlers st
      = {| active_span_id := active_span_id st;
           log := log st ++ told who sig handlers |})
  /\ (forall path r sig,
         route m d path r -> length path <= fuel ->
         notify fuel m d sig st
         = Some ({| active_span_id := active_span_id st;
                    log := log st ++ heard sig path |}, r))
  /\ (forall sig st' r,
         notify fuel m d sig st = Some (st', r) ->
         exists path,
           route m d path r
           /\ active_span_id st' = active_span_id st
           /\ log st' = log st ++ heard sig path
           /\ (exists rest,
                  path = d :: rest
                  /\ log st' = log st ++ heard sig [d] ++ heard sig rest)
           /\ (forall p, propagate d = true -> manager d = true ->
                         m !! parent_name d = Some p ->
                         exists rest,
                           path = d :: p :: rest
                           /\ log st' = log st ++ heard sig [d] ++ heard sig [p]
                                               ++ heard sig rest)
           /\ (forall e, r = Raise e ->
                         exists init c,
                           path = init ++ [c] /\ propagate c = true
                           /\ parent m c = Raise e))
  /\ (forall path func instance args uuid st2 r,
         route m d path (Return tt) -> length path <= fuel ->
         call func args (entered path func instance args uuid st) = Some (st2, r) ->
         span fuel m d func instance args uuid st
         = Some ({| active_span_id := active_span_id st;
                    log := log st2 ++ terminal path func instance args uuid r |},
                 r))
  /\ (forall sig,
         notify fuel m d sig st = notify fuel (quiet <$> m) (quiet d) sig st)
  /\ (forall func instance args uuid,
         span fuel m d func instance args uuid st
         = span fuel (quiet <$> m) (quiet d) func instance args uuid st).
Proof.
  split; [intros; apply for_handlers_invoke|].
  split; [intros path r sig Hr Hf; by apply notify_route|].
  split.
  { intros sig st' r Hn.
    destruct (notify_some_route _ _ _ _ _ _ _ Hn) as (path & Hr & Hl).
    rewrite (notify_route m d path r) in Hn by done. simplify_eq.
    exists path. split; [done|]. split; [done|]. split; [done|].
    simpl. split; [|split].
    - destruct (route_head _ _ _ _ Hr) as [rest ->].
      exists rest. split; [done|]. by rewrite (heard_cons sig d rest).
    - intros p Hp Hm Hlk.
      destruct (route_first_step _ _ _ _ _ Hr Hp Hm Hlk) as (rest' & -> & _).
      exists rest'. split; [done|].
      by rewrite (heard_cons sig d), (heard_cons sig p).
    - intros e ->. destruct (route_end _ _ _ _ Hr) as (init & c & -> & _ & Hc).
      exists init, c. split; [done|].
      destruct Hc as [[_ ?]|(Hp & e' & He' & ?)]; by simplify_eq. }
  split.
  { intros path func instance args uuid st2 r Hr Hf Hcall.
    by apply span_run. }
  split; [intros; apply notify_quiet|].
  intros. unfold span. destruct (iscoroutinefunction func);
    rewrite ?async_wrapper_is_wrapper; apply wrapper_quiet.
Qed.

(** C7, as the code has it.  In a dispatcher tree (every parent strictly
    nearer to the root than its child), a notification that starts at [d]
    follows the walk from [d]: it calls the handlers of the relevant kind
    of [d], then of the dispatcher the registry holds under the name of
    its parent, and so on, each dispatcher's handlers in list order
    (registration appends to the list), and nothing else.  Every step of
    the walk goes from a dispatcher that propagates and has a manager to
    the dispatcher registered under its parent's name; every dispatcher
    on the walk but the last propagates.  The walk ends in one
    of two ways: at the first dispatcher whose propagate flag is off, and
    then the notification returns; or at a propagating dispatcher whose
    parent cannot be looked up (the code has no other stop at the root),
    and then the notification raises the error of that lookup, after the
    handlers of that dispatcher were called.  A dispatcher that does not
    propagate tells its own handlers only. *)
Theorem notification_walks_up_parent_chain
        m (depth : Dispatcher Any -> nat) d st :
  (forall c p, propagate c = true -> parent m c = Return p -> depth p < depth c) ->
  exists path r,
    route m d path r
    /\ (forall fuel, length path <= fuel ->
        (forall ev,
            event fuel m d ev st
            = Some ({| active_span_id := active_span_id st;
                       log := log st
                              ++ reports eh_name event_handlers (Handle ev) path |},
                    r))
        /\ (forall id_ bound_args instance parent_id,
               span_enter fuel m d id_ bound_args instance parent_id st
               = Some ({| active_span_id := active_span_id st;
                          log := log st ++ reports sh_name span_handlers
                                   (SpanEnter id_ bound_args instance parent_id)
                                   path |},
                       r))
        /\ (forall id_ bound_args instance result,
               span_exit fuel m d id_ bound_args instance result st
               = Some ({| active_span_id := active_span_id st;
                          log := log st ++ reports sh_name span_handlers
                                   (SpanExit id_ bound_args instance result) path |},
                       r))
        /\ (forall id_ bound_args instance err,
               span_drop fuel m d id_ bound_args instance err st
               = Some ({| active_span_id := active_span_id st;
                          log := log st ++ reports sh_name span_handlers
                                   (SpanDrop id_ bound_args instance err) path |},
                       r)))
    /\ (exists init c,
           path = init ++ [c]
           /\ Forall (fun c' => propagate c' = true) init
           /\ (propagate c = false /\ r = Return tt
               \/ propagate c = true /\ exists e, parent m c = Raise e /\ r = Raise e))
    /\ (forall p, propagate d = true -> manager d = true ->
                  m !! parent_name d = Some p ->
                  exists rest, path = d :: p :: rest)
    /\ (forall i c p, path !! i = Some c -> path !! S i = Some p ->
                      propagate c = true /\ manager c = true
                      /\ m !! parent_name c = Some p)
    /\ (propagate d = false ->
        path = [d] /\ r = Return tt
        /\ forall sig, reports eh_name event_handlers sig path
                       = told eh_name sig (event_handlers d)
                       /\ reports sh_name span_handlers sig path
                          = told sh_name sig (span_handlers d))
    /\ (forall h, event_handlers (add_event_handler d h) = event_handlers d ++ [h])
    /\ (forall h, span_handlers (add_span_handler d h) = span_handlers d ++ [h]).
Proof.
  intros Htree.
  destruct (route_exists m depth Htree d) as (path & r & Hr & _).
  exists path, r. split; [done|]. split.
  { intros fuel Hf. by apply notification_along_route. }
  split; [by eapply route_end|]. split.
  { intros p Hp Hm Hl.
    destruct (route_first_step _ _ _ _ _ Hr Hp Hm Hl) as (rest & -> & _).
    by exists rest. }
  split; [by eapply route_steps|].
  split; [|done].
  intros Hp. inversion Hr; subst; try congruence.
  repeat split; simpl; apply app_nil_r.
Qed.

End Props.
End DispatcherTheory.

(** * Properties of the decorated run_jobs *)
Module TracedTheory.
Import Py AsyncUtils Dispatcher Traced AsyncUtilsTheory DispatcherTheory.

Section Phases.
Context {Any : Type}.
Implicit Types (m : gmap string (Dispatcher Any)) (d : Dispatcher Any).

(** The span wrapper is its two halves around the call. *)
Lemma wrapper_split fuel m d func instance args uuid (st : Ctx Any) :
  wrapper fuel m d func instance args uuid st
  = match span_open fuel m d (qualname func) instance args uuid st with
    | None => None
    | Some (st1, Raise e) => Some (st1, Raise e)
    | Some (st1, Return token) =>
        match call func args st1 with
        | None => None
        | Some (st2, r) =>
            span_close id fuel m d (qualname func) instance args uuid token r st2
        end
    end.
Proof.
  unfold wrapper, span_open, span_close. simpl.
  destruct (span_enter _ _ _ _ _ _ _ _) as [[st1 [[]|e]]|]; try done.
  by destruct (call func args st1) as [[st2 [result|e]]|].
Qed.

End Phases.

Section Props.
Context {T : Type}.
Context (fuel : nat) (m : gmap string (Dispatcher (Value T)))
        (dispatcher : Dispatcher (Value T)).
Context (bound_args : list (Value T)) (uuid0 : string) (uuids : nat -> string).
Context (path : list (Dispatcher (Value T))).
Hypothesis walk : route m dispatcher path (Return tt).
Hypothesis enough : length path <= fuel.

Implicit Types (s : State T) (st : Ctx (Value T)) (jobs : list (Job T)).
Implicit Types (ticks : list Tick) (W : Z).


Lemma span_open_route qualname args uuid st :
  span_open fuel m dispatcher qualname None args uuid st
  = Some ({| active_span_id := Some (qualname ++ "-" ++ uuid)%string;
             log := log st
                    ++ heard (SpanEnter (qualname ++ "-" ++ uuid)%string args None
                                        (active_span_id st)) path |},
          Return (active_span_id st)).
Proof.
  unfold span_open. simpl.
  by rewrite (span_enter_route m dispatcher path) by done.
Qed.

Lemma span_close_route {A} (to_any : A -> Value T) qualname args uuid token
      (awaited : Result A) st :
  span_close to_any fuel m dispatcher qualname None args uuid token awaited st
  = Some ({| active_span_id := token;
             log := log st
                    ++ closing to_any path (qualname ++ "-" ++ uuid)%string args
                               awaited |},
          awaited).
Proof.
  unfold span_close. destruct awaited as [result|e]; simpl.
  - change (span_exit ?f ?a ?b ?c ?d ?e ?r st)
      with (notify f a b (SpanExit c d e r) st).
    by rewrite (notify_route m dispatcher path (Return tt)) by done.
  - change (event ?f ?a ?b ?ev st) with (notify f a b (Handle ev) st).
    rewrite (notify_route m dispatcher path (Return tt)) by done.
    change (span_drop ?f ?a ?b ?c ?d ?e ?r ?st')
      with (notify f a b (SpanDrop c d e r) st').
    rewrite (notify_route m dispatcher path (Return tt)) by done.
    unfold finally_reset, active_span_id_reset. simpl. by rewrite <- app_assoc.
Qed.

(** *** What the handlers are told to enter *)

Lemma spans_entered_app (l1 l2 : Log (Value T)) :
  spans_entered (l1 ++ l2) = spans_entered l1 ++ spans_entered l2.
Proof. apply omap_app. Qed.

Lemma spans_entered_reports {H} (who : H -> string) handlers
      (sig : Signal (Value T)) (p : list (Dispatcher (Value T))) :
  Forall (fun e => match sig with
                   | SpanEnter id_ args _ parent_id => e = (id_, args, parent_id)
                   | _ => False
                   end)
         (spans_entered (reports who handlers sig p)).
Proof.
  unfold reports, told. induction p as [|c p IH]; simpl; [constructor|].
  rewrite spans_entered_app. apply Forall_app. split; [|done].
  induction (handlers c) as [|h hs IHh]; simpl; [constructor|].
  unfold spans_entered in *. simpl. destruct sig; simpl; try done.
  by constructor.
Qed.

Lemma spans_entered_heard sig (p : list (Dispatcher (Value T))) :
  Forall (fun e => match sig with
                   | SpanEnter id_ args _ parent_id => e = (id_, args, parent_id)
                   | _ => False
                   end)
         (spans_entered (heard sig p)).
Proof.
  destruct sig; cbn [heard];
    first [apply (spans_entered_reports eh_name event_handlers (Handle _))
          |apply (spans_entered_reports sh_name span_handlers (SpanEnter _ _ _ _))
          |apply (spans_entered_reports sh_name span_handlers (SpanDrop _ _ _ _))
          |apply (spans_entered_reports sh_name span_handlers (SpanExit _ _ _ _))].
Qed.

Lemma spans_entered_closing {A} (to_any : A -> Value T) id_ args (awaited : Result A) :
  spans_entered (closing to_any path id_ args awaited) = [].
Proof.
  assert (Hnil : forall l : list (string * list (Value T) * option string),
             Forall (fun _ => False) l -> l = []).
  { intros [|x l] Hl; [done|]. by inversion Hl. }
  destruct awaited as [result|e]; unfold closing.
  - apply Hnil. apply (spans_entered_heard (SpanExit id_ args None (to_any result))).
  - rewrite spans_entered_app.
    rewrite (Hnil _ (spans_entered_heard (Handle (SpanDropEvent id_ (str e))) path)).
    apply Hnil. apply (spans_entered_heard (SpanDrop id_ args None e)).
Qed.

(** *** One resumption *)

Lemma step_final (l : Loop T) i permit job :
  children l !! i = Some (Running permit 0 job) ->
  step l i = Some (finish l i permit (outcome job)).
Proof. intros Hi. unfold step, finish. by rewrite Hi. Qed.

Lemma traced_more jobs st s s' extra :
  traced bound_args uuid0 uuids path jobs st s ->
  inherited s' = inherited s -> token s' = token s ->
  came_back s' = came_back s ->
  active_span_id (ctx s') = active_span_id (ctx s) ->
  log (ctx s') = log (ctx s) ++ extra ->
  Forall ((worker_span uuid0 uuids) jobs) (spans_entered extra) ->
  (outer (loop s) <> Pending -> outer (loop s') = outer (loop s)) ->
  traced bound_args uuid0 uuids path jobs st s'.
Proof.
  intros [Hin Htok Hact (old & Hlog & Hold) Hcb] Hin' Htok' Hcb' Hact' Hlog' Hex Hout.
  split.
  - congruence.
  - congruence.
  - by rewrite Hact', Hcb'.
  - exists (old ++ extra). split.
    + by rewrite Hlog', Hlog, <- !app_assoc.
    + rewrite spans_entered_app. by apply Forall_app.
  - rewrite Hcb'. destruct (came_back s) as [r|] eqn:Hr; [|by left].
    destruct Hcb as [Hp|Hres]; [by destruct r|right].
    rewrite Hres. symmetry. apply Hout. rewrite <- Hres. by destruct r.
Qed.

Lemma default_step_outer (l : Loop T) i :
  outer l <> Pending -> outer (default l (step l i)) = outer l.
Proof.
  intros Hp. destruct (step l i) as [l'|] eqn:Hs; simpl; [|done].
  by eapply outer_step_stable.
Qed.

Lemma resume_child_spec jobs W st s i :
  traced bound_args uuid0 uuids path jobs st s -> consistent jobs W (loop s) ->
  exists s',
    (resume_child fuel m dispatcher uuids s i = Go s' \/ resume_child fuel m dispatcher uuids s i = Skip /\ s' = s)
    /\ loop s' = default (loop s) (step (loop s) i)
    /\ traced bound_args uuid0 uuids path jobs st s'.
Proof.
  intros Ht Hc. unfold Traced.resume_child.
  destruct (children (loop s) !! i) as [t|] eqn:Hi.
  2:{ exists s. unfold step. rewrite Hi. auto. }
  destruct (Forall2_lookup_r _ _ _ _ _ (c_tracks _ _ _ Hc) Hi) as (job0 & Hj & Htr).
  destruct t as [job|permit [|k] job|r]; simpl in Htr; subst.
  - (* at [async with semaphore], or before the wrapper has started *)
    destruct (default false (opened s !! i)) eqn:Ho.
    + destruct (step (loop s) i) as [l'|] eqn:Hs.
      * eexists. split; [by left|]. split; [done|].
        apply (traced_more jobs st s _ []); simpl; try done.
        -- by rewrite app_nil_r.
        -- intros Hp. by eapply outer_step_stable.
      * exists s. auto.
    + rewrite span_open_route. eexists. split; [by left|]. split; [done|].
      eapply (traced_more jobs st s); simpl; try done.
      * rewrite (t_inherited _ _ _ _ _ _ _ Ht).
        eapply Forall_impl;
          [apply (spans_entered_heard
                    (SpanEnter (worker_qualname ++ "-" ++ uuids i)%string
                               [VJob job0] None (Some (run_jobs_id uuid0))))|].
        intros e ->. by exists i, job0.
      * apply default_step_outer.
  - (* the job ends *)
    rewrite span_close_route. eexists. split; [by left|].
    split; [simpl; by rewrite (step_final _ _ _ _ Hi)|].
    eapply (traced_more jobs st s); simpl; try done.
    + by rewrite spans_entered_closing.
    + intros Hp. pose proof (step_final _ _ _ _ Hi) as Hs.
      by apply (outer_step_stable _ _ _ Hs).
  - (* the job goes on *)
    destruct (step (loop s) i) as [l'|] eqn:Hs.
    + eexists. split; [by left|]. split; [done|].
      apply (traced_more jobs st s _ []); simpl; try done.
      * by rewrite app_nil_r.
      * intros Hp. by eapply outer_step_stable.
    + exists s. auto.
  - exists s. unfold step. rewrite Hi. auto.
Qed.

Lemma resume_parent_spec jobs st s :
  traced bound_args uuid0 uuids path jobs st s ->
  exists s',
    (resume_parent fuel m dispatcher bound_args uuid0 s = Go s' \/ resume_parent fuel m dispatcher bound_args uuid0 s = Skip /\ s' = s)
    /\ loop s' = loop s
    /\ traced bound_args uuid0 uuids path jobs st s'
    /\ as_outer (came_back s') = outer (loop s).
Proof.
  intros Ht. pose proof Ht as [Hin Htok Hact (old & Hlog & Hold) Hcb].
  unfold Traced.resume_parent.
  destruct (came_back s) as [r|] eqn:Hr.
  { exists s. split; [by right|]. split; [done|]. split; [done|].
    rewrite Hr in *. destruct Hcb as [Hp|Hres]; [by destruct r|done]. }
  destruct (outer (loop s)) as [|results|e] eqn:Ho.
  - exists s. split; [by right|]. split; [done|]. split; [done|]. by rewrite Hr.
  - rewrite span_close_route. eexists. split; [by left|]. split; [done|].
    split; [|done]. split; simpl; try done.
    + exists (old ++ closing VResults path (run_jobs_qualname ++ "-" ++ uuid0)%string
                          bound_args (Return results)).
      split; [by rewrite Hlog, <- !app_assoc|].
      rewrite spans_entered_app, spans_entered_closing, app_nil_r. done.
    + by right.
  - rewrite span_close_route. eexists. split; [by left|]. split; [done|].
    split; [|done]. split; simpl; try done.
    + exists (old ++ closing VResults path (run_jobs_qualname ++ "-" ++ uuid0)%string
                          bound_args (Raise e)).
      split; [by rewrite Hlog, <- !app_assoc|].
      rewrite spans_entered_app, spans_entered_closing, app_nil_r. done.
    + by right.
Qed.

Lemma run_spec jobs W st ticks : forall s,
  traced bound_args uuid0 uuids path jobs st s -> consistent jobs W (loop s) ->
  exists s',
    run fuel m dispatcher bound_args uuid0 uuids ticks s = Some s'
    /\ loop s' = exec (child_ticks ticks) (loop s)
    /\ traced bound_args uuid0 uuids path jobs st s'.
Proof.
  induction ticks as [|t ticks IH]; intros s Ht Hc; [by exists s|].
  destruct t as [i|]; cbn [Traced.run Traced.resume child_ticks omap].
  - destruct (resume_child_spec jobs W st s i Ht Hc) as (s1 & Hres & Hl & Ht1).
    assert (Hc1 : consistent jobs W (loop s1)).
    { rewrite Hl. destruct (step (loop s) i) eqn:Hs; simpl; [|done].
      by eapply step_consistent. }
    destruct (IH s1 Ht1 Hc1) as (s' & Hrun & Hl' & Ht').
    exists s'. split; [|split; [|done]].
    + by destruct Hres as [->|[-> ->]].
    + simpl. by rewrite Hl', Hl.
  - destruct (resume_parent_spec jobs st s Ht) as (s1 & Hres & Hl & Ht1 & _).
    assert (Hc1 : consistent jobs W (loop s1)) by by rewrite Hl.
    destruct (IH s1 Ht1 Hc1) as (s' & Hrun & Hl' & Ht').
    exists s'. split; [|split; [|done]].
    + by destruct Hres as [->|[-> ->]].
    + by rewrite Hl', Hl.
Qed.

Lemma run_app ticks1 ticks2 s :
  run fuel m dispatcher bound_args uuid0 uuids (ticks1 ++ ticks2) s
  = match run fuel m dispatcher bound_args uuid0 uuids ticks1 s with
    | Some s1 => run fuel m dispatcher bound_args uuid0 uuids ticks2 s1
    | None => None
    end.
Proof.
  revert s; induction ticks1 as [|t ticks1 IH]; intros s; simpl; [done|].
  destruct (Traced.resume _ _ _ _ _ _ s t); auto.
Qed.

Lemma traced_run_jobs_start jobs W st :
  (0 <= W)%Z -> jobs <> [] ->
  exists s0,
    traced_run_jobs fuel m dispatcher bound_args uuid0 jobs W st = Awaiting s0
    /\ loop s0 = submitted jobs W
    /\ traced bound_args uuid0 uuids path jobs st s0.
Proof.
  intros HW Hne. unfold Traced.traced_run_jobs.
  rewrite span_open_route. unfold Semaphore.
  destruct (W <? 0)%Z eqn:E; [lia|]. unfold gather.
  rewrite ensure_futures_workers.
  destruct jobs as [|job jobs]; [done|]. cbn [map outer].
  eexists. split; [done|]. split; [done|].
  split; simpl; try done.
  - exists []. by rewrite app_nil_r.
  - by left.
Qed.

(** X18. The two [@dispatcher.span] decorators do not change what
    [run_jobs] does.  On a dispatcher whose walk ends at a non-propagating
    dispatcher, with a worker count of at least 0 and at least one job,
    the decorated call suspends; under every schedule the handlers' walks
    end and the event loop is in the state the plain [run_jobs] has under
    the child resumptions of the schedule; the caller has seen nothing
    yet, or what the gather holds; and a resumption of the caller hands it
    just that. *)
Theorem traced_run_jobs_transparent jobs W st :
  (0 <= W)%Z -> jobs <> [] ->
  exists s0,
    traced_run_jobs fuel m dispatcher bound_args uuid0 jobs W st = Awaiting s0
    /\ forall ticks,
        exists s,
          run fuel m dispatcher bound_args uuid0 uuids ticks s0 = Some s
          /\ run_jobs jobs W (child_ticks ticks) = Return (loop s)
          /\ (as_outer (came_back s) = Pending
              \/ as_outer (came_back s) = outer (loop s))
          /\ exists s',
              run fuel m dispatcher bound_args uuid0 uuids (ticks ++ [Parent]) s0 = Some s'
              /\ loop s' = loop s
              /\ as_outer (came_back s') = outer (loop s).
Proof.
  intros HW Hne.
  destruct (traced_run_jobs_start jobs W st HW Hne) as (s0 & Hstart & Hl0 & Ht0).
  exists s0. split; [done|]. intros ticks.
  assert (Hc0 : consistent jobs W (loop s0))
    by (rewrite Hl0; by apply submitted_consistent).
  destruct (run_spec jobs W st ticks s0 Ht0 Hc0) as (s & Hrun & Hl & Ht).
  exists s. split; [done|]. split.
  { rewrite run_jobs_unfold by done. by rewrite Hl, Hl0. }
  split; [apply (t_came_back _ _ _ _ _ _ _ Ht)|].
  destruct (resume_parent_spec jobs st s Ht) as (s' & Hres & Hl' & _ & Hcb).
  exists s'. split; [|done].
  rewrite run_app, Hrun. simpl. by destruct Hres as [->|[-> ->]].
Qed.

(** X19. The spans of [run_jobs] and of its workers hang together as
    parent and children.  The first thing the handlers hear of a call is
    that the span of [run_jobs] is entered, under the caller's active
    span.  Of what they hear after that, under any schedule: no span is
    entered under the id of the [run_jobs] span again, and a span entered
    under the id of a worker is on a job of the list and has the span of
    [run_jobs] as its parent.  The caller's active span id is the span of
    [run_jobs] until the call comes back and the caller's own again from
    then on, whatever the workers still do.  Spans that a job enters by
    itself are not spoken of. *)
Theorem traced_run_jobs_span_tree jobs W st :
  (0 <= W)%Z -> jobs <> [] ->
  exists s0,
    traced_run_jobs fuel m dispatcher bound_args uuid0 jobs W st = Awaiting s0
    /\ forall ticks,
        exists s extra,
          run fuel m dispatcher bound_args uuid0 uuids ticks s0 = Some s
          /\ log (ctx s)
             = log st
               ++ heard (SpanEnter (run_jobs_id uuid0) bound_args None
                                   (active_span_id st)) path
               ++ extra
          /\ (forall id_ args parent_id,
                 In (id_, args, parent_id) (spans_entered extra) ->
                 id_ <> run_jobs_id uuid0
                 /\ forall i,
                     id_ = worker_id uuids i ->
                     parent_id = Some (run_jobs_id uuid0)
                     /\ exists i' job,
                         jobs !! i' = Some job /\ uuids i' = uuids i
                         /\ args = [VJob job])
          /\ active_span_id (ctx s)
             = match came_back s with
               | Some _ => active_span_id st
               | None => Some (run_jobs_id uuid0)
               end.
Proof.
  intros HW Hne.
  destruct (traced_run_jobs_start jobs W st HW Hne) as (s0 & Hstart & Hl0 & Ht0).
  exists s0. split; [done|]. intros ticks.
  assert (Hc0 : consistent jobs W (loop s0))
    by (rewrite Hl0; by apply submitted_consistent).
  destruct (run_spec jobs W st ticks s0 Ht0 Hc0) as (s & Hrun & _ & Ht).
  destruct (t_log _ _ _ _ _ _ _ Ht) as (extra & Hlog & Hall).
  exists s, extra. split; [done|]. split; [done|].
  split; [|apply (t_active _ _ _ _ _ _ _ Ht)].
  intros id_ args parent_id Hin.
  rewrite Forall_forall in Hall. apply list_elem_of_In in Hin.
  destruct (Hall _ Hin) as (i' & job & Hjob & Heq). simplify_eq. split.
  - unfold worker_id, run_jobs_id, worker_qualname, run_jobs_qualname.
    simpl. by intros [=].
  - intros i Hi. split; [done|]. exists i', job. split; [done|]. split; [|done].
    unfold worker_id, worker_qualname in Hi. simpl in Hi. by injection Hi.
Qed.

(** X20. With a negative worker count, or with no job, the decorated
    [run_jobs] is over in its first resumption and creates no task.  The
    span handlers are told that the span is entered; for a negative count
    the event handlers then get a [SpanDropEvent] with the text of the
    semaphore's [ValueError] and the span handlers [span_drop], and the
    [ValueError] is raised; with no job the span handlers get [span_exit]
    with the empty list, which is returned.  The caller's active span id
    is restored. *)
Theorem traced_run_jobs_without_tasks jobs W st :
  (W < 0)%Z \/ ((0 <= W)%Z /\ jobs = []) ->
  exists r,
    as_outer (Some r) = awaited (run_jobs jobs W [])
    /\ traced_run_jobs fuel m dispatcher bound_args uuid0 jobs W st
       = Completed
           {| active_span_id := active_span_id st;
              log := log st
                     ++ heard (SpanEnter (run_jobs_id uuid0) bound_args None
                                         (active_span_id st)) path
                     ++ closing VResults path (run_jobs_id uuid0) bound_args r |}
           r.
Proof.
  intros [HW|[HW ->]]; unfold Traced.traced_run_jobs, run_jobs, Semaphore;
    rewrite span_open_route.
  - destruct (W <? 0)%Z eqn:E; [|lia].
    exists (Raise (ValueError "Semaphore initial value must be >= 0")).
    split; [done|].
    rewrite span_close_route. simpl. by rewrite <- app_assoc.
  - destruct (W <? 0)%Z eqn:E; [lia|]. exists (Return []). split; [done|].
    simpl. rewrite span_close_route. simpl. by rewrite <- app_assoc.
Qed.

Hypothesis fresh : forall i j, uuids i = uuids j -> i = j.

(** *** Every span is entered once and closed once *)

Ltac fields :=
  cbn [Traced.loop Traced.opened Traced.ctx Traced.token Traced.inherited
       Traced.came_back told_in_task task_ctx Dispatcher.log
       Dispatcher.active_span_id AsyncUtils.children].

Lemma about_app id_ (l1 l2 : Log (Value T)) :
  about id_ (l1 ++ l2) = about id_ l1 ++ about id_ l2.
Proof. unfold about. apply List.filter_app. Qed.

Lemma about_reports {H} (who : H -> string) handlers id_
      (sig : Signal (Value T)) (p : list (Dispatcher (Value T))) :
  about id_ (reports who handlers sig p)
  = if bool_decide (span_of sig = Some id_) then reports who handlers sig p else [].
Proof.
  unfold reports, told. induction p as [|c p IH]; simpl.
  - by destruct (bool_decide _).
  - rewrite about_app, IH.
    assert (Hc : about id_ (map (fun h => (who h, sig)) (handlers c))
                 = if bool_decide (span_of sig = Some id_)
                   then map (fun h => (who h, sig)) (handlers c) else []).
    { induction (handlers c) as [|h hs IHh]; simpl.
      - by destruct (bool_decide _).
      - unfold about in *. simpl. rewrite IHh. by destruct (bool_decide _). }
    rewrite Hc. by destruct (bool_decide _).
Qed.

Lemma about_heard id_ sig (p : list (Dispatcher (Value T))) :
  about id_ (heard sig p)
  = if bool_decide (span_of sig = Some id_) then heard sig p else [].
Proof. destruct sig; apply about_reports. Qed.

Lemma about_closing {A} (to_any : A -> Value T) id_ id' args (awaited : Result A) :
  about id_ (closing to_any path id' args awaited)
  = if bool_decide (id' = id_) then closing to_any path id' args awaited else [].
Proof.
  destruct awaited as [result|e]; unfold closing.
  - rewrite about_heard. simpl.
    destruct (decide (id' = id_)) as [->|Hne].
    + by rewrite !bool_decide_eq_true_2.
    + rewrite !bool_decide_eq_false_2; [done|done|congruence].
  - rewrite about_app, !about_heard. simpl.
    destruct (decide (id' = id_)) as [->|Hne].
    + by rewrite !bool_decide_eq_true_2.
    + rewrite !bool_decide_eq_false_2; [done|done|congruence].
Qed.

Lemma about_enter id_ id' args parent_id (p : list (Dispatcher (Value T))) :
  about id_ (heard (SpanEnter id' args None parent_id) p)
  = if bool_decide (id' = id_) then heard (SpanEnter id' args None parent_id) p else [].
Proof.
  rewrite about_heard. simpl.
  destruct (decide (id' = id_)) as [->|Hne].
  - by rewrite !bool_decide_eq_true_2.
  - rewrite !bool_decide_eq_false_2; [done|done|congruence].
Qed.

Lemma worker_id_inj i j : worker_id uuids i = worker_id uuids j -> i = j.
Proof. unfold worker_id, worker_qualname. simpl. intros [= H]. by apply fresh. Qed.

Lemma worker_id_run_jobs_id i : worker_id uuids i <> run_jobs_id uuid0.
Proof. unfold worker_id, run_jobs_id, worker_qualname, run_jobs_qualname. simpl. by intros [=]. Qed.

Lemma children_done_callback (l : Loop T) r :
  children (done_callback l r) = children l.
Proof. unfold done_callback. destruct (outer l), r; simpl; try done. by case_match. Qed.

Lemma children_finish (l : Loop T) i permit r :
  children (finish l i permit r) = <[i := Done r]> (children l).
Proof. unfold finish. by rewrite children_done_callback. Qed.

(** The resumption of child [i] appends [extra] to the log and changes
    child [i] and its flag only. *)
Lemma narrated_child jobs st s s' i job extra :
  narrated bound_args uuid0 uuids path jobs st s ->
  jobs !! i = Some job ->
  came_back s' = came_back s ->
  log (ctx s') = log (ctx s) ++ extra ->
  length (opened s') = length (opened s) ->
  (forall j, j <> i -> children (loop s') !! j = children (loop s) !! j
                       /\ opened s' !! j = opened s !! j) ->
  about (worker_id uuids i) extra = extra ->
  worker_heard uuid0 uuids path i job s'
  = worker_heard uuid0 uuids path i job s ++ extra ->
  narrated bound_args uuid0 uuids path jobs st s'.
Proof.
  intros [Hlen (new & Hlog & Hpar & Hch)] Hj Hcb Hlog' Hlen' Hother Hab Hi.
  split; [congruence|].
  exists (new ++ extra). split; [by rewrite Hlog', Hlog, <- app_assoc|].
  assert (Hothers : forall id_, id_ <> worker_id uuids i -> about id_ extra = []).
  { intros id_ Hne. rewrite <- Hab. unfold about. clear -Hne.
    induction extra as [|x extra IH]; simpl; [done|].
    destruct (bool_decide (span_of x.2 = Some (worker_id uuids i))) eqn:E1; simpl;
      [|done].
    apply bool_decide_eq_true_1 in E1. rewrite IH.
    rewrite bool_decide_eq_false_2; [done|congruence]. }
  split.
  - rewrite about_app, Hpar, Hothers, app_nil_r.
    + unfold run_jobs_heard. by rewrite Hcb.
    + intros E. by apply (worker_id_run_jobs_id i).
  - intros j job' Hj'. rewrite about_app, (Hch _ _ Hj').
    destruct (decide (j = i)) as [->|Hne].
    + assert (job' = job) as -> by congruence. by rewrite Hab, Hi.
    + rewrite Hothers, app_nil_r.
      * unfold worker_heard. by destruct (Hother j Hne) as [-> ->].
      * intros E. by apply Hne, worker_id_inj.
Qed.

Lemma narrated_same jobs st s s' :
  narrated bound_args uuid0 uuids path jobs st s ->
  came_back s' = came_back s -> ctx s' = ctx s -> opened s' = opened s ->
  (forall j job, jobs !! j = Some job ->
                 worker_heard uuid0 uuids path j job s'
                 = worker_heard uuid0 uuids path j job s) ->
  narrated bound_args uuid0 uuids path jobs st s'.
Proof.
  intros [Hlen (new & Hlog & Hpar & Hch)] Hcb Hctx Hop Hsame.
  split; [congruence|]. exists new. split; [congruence|]. split.
  - unfold run_jobs_heard. by rewrite Hcb.
  - intros j job Hj. by rewrite (Hsame _ _ Hj), (Hch _ _ Hj).
Qed.

Lemma worker_heard_insert s s' i j job t :
  children (loop s') = <[i := t]> (children (loop s)) ->
  opened s' = opened s -> j <> i ->
  worker_heard uuid0 uuids path j job s' = worker_heard uuid0 uuids path j job s.
Proof.
  intros Hc Ho Hne. unfold worker_heard.
  by rewrite Hc, Ho, list_lookup_insert_ne.
Qed.

Lemma resume_child_narrated jobs W st s i :
  traced bound_args uuid0 uuids path jobs st s ->
  consistent jobs W (loop s) ->
  narrated bound_args uuid0 uuids path jobs st s ->
  forall s', resume_child fuel m dispatcher uuids s i = Go s' ->
             narrated bound_args uuid0 uuids path jobs st s'.
Proof.
  intros Ht Hc Hn s'. unfold Traced.resume_child.
  destruct (children (loop s) !! i) as [t|] eqn:Hi; [|done].
  destruct (Forall2_lookup_r _ _ _ _ _ (c_tracks _ _ _ Hc) Hi) as (job0 & Hj & Htr).
  pose proof (lookup_lt_Some _ _ _ Hi) as Hlt.
  pose proof (Forall2_length _ _ _ (c_tracks _ _ _ Hc)) as Hlen.
  pose proof (n_opened _ _ _ _ _ _ _ Hn) as Hop.
  destruct t as [job|permit [|k] job|r]; simpl in Htr; subst; [| | |done].
  - destruct (default false (opened s !! i)) eqn:Ho.
    + (* a permit is taken *)
      unfold step. rewrite Hi.
      destruct (0 <? sem_value (loop s))%Z; [|done]. intros [= <-].
      apply (narrated_same jobs st s); [done..|].
      intros j job Hjj. destruct (decide (j = i)) as [->|Hne].
      * unfold worker_heard; fields.
        rewrite list_lookup_insert_eq by lia. by rewrite Hi, Ho.
      * by eapply worker_heard_insert.
    + (* the span is entered *)
      rewrite span_open_route. intros [= <-].
      rewrite (t_inherited _ _ _ _ _ _ _ Ht).
      change (worker_qualname ++ "-" ++ uuids i)%string with (worker_id uuids i).
      eapply (narrated_child jobs st s _ i job0); fields; [done..| | | |].
      * by rewrite length_insert.
      * intros j Hne. split; [|by rewrite list_lookup_insert_ne].
        unfold step. rewrite Hi.
        destruct (0 <? sem_value (loop s))%Z; cbn [default from_option id children]; [|done].
        by rewrite list_lookup_insert_ne.
      * change (reports sh_name span_handlers (SpanEnter ?a ?b ?c ?d) ?p)
          with (heard (SpanEnter a b c d) p).
        by rewrite about_enter, bool_decide_eq_true_2.
      * change (reports sh_name span_handlers (SpanEnter ?a ?b ?c ?d) ?p)
          with (heard (SpanEnter a b c d) p).
        unfold worker_heard; fields. rewrite Hi, Ho.
        rewrite list_lookup_insert_eq by lia. cbn [default from_option id].
        unfold step. rewrite Hi.
        destruct (0 <? sem_value (loop s))%Z; cbn [default from_option id children].
        -- by rewrite list_lookup_insert_eq by lia.
        -- by rewrite Hi.
  - (* the span is closed *)
    rewrite span_close_route. intros [= <-].
    change (worker_qualname ++ "-" ++ uuids i)%string with (worker_id uuids i).
    eapply (narrated_child jobs st s _ i job0); fields; [done..| | |].
    + intros j Hne. split; [|done].
      by rewrite children_finish, list_lookup_insert_ne.
    + by rewrite about_closing, bool_decide_eq_true_2.
    + unfold worker_heard; fields.
      by rewrite children_finish, list_lookup_insert_eq, Hi by lia.
  - (* the job goes on *)
    unfold step. rewrite Hi. intros [= <-].
    apply (narrated_same jobs st s); [done..|].
    intros j job Hjj. destruct (decide (j = i)) as [->|Hne].
    + unfold worker_heard; fields.
      rewrite list_lookup_insert_eq by lia. by rewrite Hi.
    + by eapply worker_heard_insert.
Qed.

Lemma resume_parent_narrated jobs st s :
  narrated bound_args uuid0 uuids path jobs st s ->
  forall s', resume_parent fuel m dispatcher bound_args uuid0 s = Go s' ->
             narrated bound_args uuid0 uuids path jobs st s'.
Proof.
  intros [Hlen (new & Hlog & Hpar & Hch)] s'. unfold Traced.resume_parent.
  destruct (came_back s) as [r|] eqn:Hr; [done|].
  assert (Hclose : forall awaited,
             match span_close VResults fuel m dispatcher run_jobs_qualname None
                     bound_args uuid0 (token s) awaited (ctx s) with
             | Some (st0, r) =>
                 Go {| loop := loop s; opened := opened s; ctx := st0;
                       token := token s; inherited := inherited s;
                       came_back := Some r |}
             | None => Hang
             end = Go s' ->
             narrated bound_args uuid0 uuids path jobs st s').
  { intros awaited. rewrite span_close_route. intros [= <-].
    split; [done|]. fields.
    exists (new ++ closing VResults path (run_jobs_id uuid0) bound_args awaited).
    split; [by rewrite Hlog, <- app_assoc|]. split.
    - rewrite about_app, Hpar, about_closing, bool_decide_eq_true_2 by done.
      unfold run_jobs_heard. fields. by rewrite Hr, app_nil_r.
    - intros i job Hj. rewrite about_app, (Hch _ _ Hj), about_closing.
      rewrite bool_decide_eq_false_2, app_nil_r; [done|].
      intros E. by apply (worker_id_run_jobs_id i). }
  destruct (outer (loop s)); [done|apply Hclose..].
Qed.

Lemma run_narrated jobs W st ticks : forall s,
  traced bound_args uuid0 uuids path jobs st s ->
  consistent jobs W (loop s) ->
  narrated bound_args uuid0 uuids path jobs st s ->
  exists s',
    run fuel m dispatcher bound_args uuid0 uuids ticks s = Some s'
    /\ loop s' = exec (child_ticks ticks) (loop s)
    /\ narrated bound_args uuid0 uuids path jobs st s'.
Proof.
  induction ticks as [|t ticks IH]; intros s Ht Hc Hn; [by exists s|].
  destruct t as [i|]; cbn [Traced.run Traced.resume child_ticks omap].
  - destruct (resume_child_spec jobs W st s i Ht Hc) as (s1 & Hres & Hl & Ht1).
    assert (Hc1 : consistent jobs W (loop s1)).
    { rewrite Hl. destruct (step (loop s) i) eqn:Hs; simpl; [|done].
      by eapply step_consistent. }
    assert (Hn1 : narrated bound_args uuid0 uuids path jobs st s1).
    { destruct Hres as [Hgo|[_ ->]]; [|done].
      exact (resume_child_narrated jobs W st s i Ht Hc Hn s1 Hgo). }
    destruct (IH s1 Ht1 Hc1 Hn1) as (s' & Hrun & Hl' & Hn').
    exists s'. split; [|split; [|done]].
    + by destruct Hres as [->|[-> ->]].
    + simpl. by rewrite Hl', Hl.
  - destruct (resume_parent_spec jobs st s Ht) as (s1 & Hres & Hl & Ht1 & _).
    assert (Hc1 : consistent jobs W (loop s1)) by by rewrite Hl.
    assert (Hn1 : narrated bound_args uuid0 uuids path jobs st s1).
    { destruct Hres as [Hgo|[_ ->]]; [|done].
      exact (resume_parent_narrated jobs st s Hn s1 Hgo). }
    destruct (IH s1 Ht1 Hc1 Hn1) as (s' & Hrun & Hl' & Hn').
    exists s'. split; [|split; [|done]].
    + by destruct Hres as [->|[-> ->]].
    + by rewrite Hl', Hl.
Qed.

Lemma traced_run_jobs_awaiting jobs W st :
  (0 <= W)%Z -> jobs <> [] ->
  traced_run_jobs fuel m dispatcher bound_args uuid0 jobs W st
  = Awaiting
      {| loop := submitted jobs W;
         opened := map (fun _ => false) jobs;
         ctx := {| active_span_id := Some (run_jobs_id uuid0);
                   log := log st
                          ++ heard (SpanEnter (run_jobs_id uuid0) bound_args None
                                              (active_span_id st)) path |};
         token := active_span_id st;
         inherited := Some (run_jobs_id uuid0);
         came_back := None |}.
Proof.
  intros HW Hne. unfold Traced.traced_run_jobs.
  rewrite span_open_route. unfold Semaphore.
  destruct (W <? 0)%Z eqn:E; [lia|]. unfold gather.
  rewrite ensure_futures_workers.
  by destruct jobs as [|job jobs].
Qed.

Lemma narrated_awaiting jobs W st :
  narrated bound_args uuid0 uuids path jobs st
    {| loop := submitted jobs W;
       opened := map (fun _ => false) jobs;
       ctx := {| active_span_id := Some (run_jobs_id uuid0);
                 log := log st
                        ++ heard (SpanEnter (run_jobs_id uuid0) bound_args None
                                            (active_span_id st)) path |};
       token := active_span_id st;
       inherited := Some (run_jobs_id uuid0);
       came_back := None |}.
Proof.
  split; fields; [by rewrite length_map|].
  eexists. split; [done|]. split.
  - rewrite about_enter, bool_decide_eq_true_2 by done.
    unfold run_jobs_heard. fields. by rewrite app_nil_r.
  - intros i job Hj. rewrite about_enter.
    rewrite bool_decide_eq_false_2
      by (intros E'; by apply (worker_id_run_jobs_id i)).
    unfold worker_heard, submitted. fields.
    by rewrite !list_lookup_fmap, Hj.
Qed.

(** X21. Under any schedule each span of a [run_jobs] call is told as far
    as it has got and no further, given that the uuids differ.  Of the
    span of [run_jobs] the handlers have heard the entering, and the exit
    or drop with the call's own outcome once the caller has it back.  Of
    the span of the worker of job [i] they have heard nothing before its
    task first runs, the entering from then on, and after the job has
    ended the exit with the job's result or the drop event and drop with
    its error, once; a worker waiting for a permit has entered its span
    already. *)
Theorem traced_run_jobs_spans_closed_once jobs W st :
  (0 <= W)%Z -> jobs <> [] ->
  exists s0,
    traced_run_jobs fuel m dispatcher bound_args uuid0 jobs W st = Awaiting s0
    /\ forall ticks,
        exists s new,
          run fuel m dispatcher bound_args uuid0 uuids ticks s0 = Some s
          /\ log (ctx s) = log st ++ new
          /\ about (run_jobs_id uuid0) new
             = run_jobs_heard bound_args uuid0 path st s
          /\ forall i job,
              jobs !! i = Some job ->
              about (worker_id uuids i) new = worker_heard uuid0 uuids path i job s.
Proof.
  intros HW Hne.
  destruct (traced_run_jobs_start jobs W st HW Hne) as (s0 & Hstart & Hl0 & Ht0).
  exists s0. split; [done|]. intros ticks.
  assert (Hc0 : consistent jobs W (loop s0))
    by (rewrite Hl0; by apply submitted_consistent).
  assert (Hn0 : narrated bound_args uuid0 uuids path jobs st s0).
  { rewrite (traced_run_jobs_awaiting jobs W st HW Hne) in Hstart.
    injection Hstart as <-. apply narrated_awaiting. }
  destruct (run_narrated jobs W st ticks s0 Ht0 Hc0 Hn0)
    as (s & Hrun & _ & [_ (new & Hlog & Hpar & Hch)]).
  by exists s, new.
Qed.

End Props.
End TracedTheory.

(** * Concrete runs *)
Module Examples.
Import AsyncUtils AsyncUtilsTheory Dispatcher DispatcherTheory Fixtures.

(** ** async_utils.py *)

(** The spec's scenario: three jobs sleeping 0.3, 0.1 and 0.2 under two
    workers; job 1 finishes first, job 2 is admitted after it, and the
    results still come back in submission order. *)
Example run_jobs_three_sleepers :
  run_jobs [job_sleep 3 100; job_sleep 1 101; job_sleep 2 102] 2
           [0; 1; 2; 0; 1; 1; 2; 0; 2; 0; 2; 0; 2]
  = Return {| sem_value := 2;
              children := [Done (Return 100); Done (Return 101); Done (Return 102)];
              nfinished := 3;
              outer := Returned [Return 100; Return 101; Return 102] |}.
Proof. reflexivity. Qed.

Lemma run_jobs_results_in_submission_order_witness :
  (1 <= 2)%Z
  /\ (forall sched, exists more,
         awaited (run_jobs [job_sleep 3 100; job_sleep 1 101; job_sleep 2 102]
                           2 (sched ++ more))
         = Returned [Return 100; Return 101; Return 102]).
Proof.
  split; [lia|].
  apply (run_jobs_results_in_submission_order
           [job_sleep 3 100; job_sleep 1 101; job_sleep 2 102] 2);
    [lia | repeat constructor].
Defined.

Lemma run_jobs_bounded_concurrency_witness :
  exists l,
    run_jobs [job_sleep 3 100; job_boom 1; job_sleep 2 102] 2 [0; 1; 2; 0; 1; 1; 2]
    = Return l
    /\ (Z.of_nat (running l) <= 2)%Z
    /\ (sem_value l + Z.of_nat (running l) = 2)%Z
    /\ (forall i permit k job,
           children l !! i = Some (Running permit k job) -> permit = true)
    /\ (all_done l = true -> sem_value l = 2%Z).
Proof.
  apply (run_jobs_bounded_concurrency
           [job_sleep 3 100; job_boom 1; job_sleep 2 102] 2
           [0; 1; 2; 0; 1; 1; 2]).
  lia.
Defined.

(** C4 fails at a worker count of zero: one job, no worker, and however
    often the loop tries to resume the job the call is neither refused
    nor finished. *)
Lemma run_jobs_zero_workers_is_not_rejected :
  run_jobs [job_sleep 1 100] 0 [] = Return (submitted [job_sleep 1 100] 0)
  /\ run_jobs [job_sleep 1 100] 0 [0; 0; 0; 0]
     = Return {| sem_value := 0; children := [Blocked (job_sleep 1 100)];
                 nfinished := 0; outer := Pending |}.
Proof. split; reflexivity. Qed.

Lemma run_jobs_nonpositive_workers_witness :
  run_jobs [job_sleep 1 100] (-1) [0; 0]
  = Raise (ValueError "Semaphore initial value must be >= 0")
  /\ run_jobs (@nil (Job nat)) (-1) []
     = Raise (ValueError "Semaphore initial value must be >= 0")
  /\ awaited (run_jobs [job_sleep 1 100] 0 [0; 0]) = Pending.
Proof.
  split; [|split].
  - apply (run_jobs_nonpositive_workers [job_sleep 1 100] (-1) [0; 0]); lia.
  - apply (run_jobs_nonpositive_workers (@nil (Job nat)) (-1) []); lia.
  - apply (run_jobs_nonpositive_workers [job_sleep 1 100] 0 [0; 0]);
      [lia | reflexivity | discriminate].
Defined.

(** C5 fails on its timing.  Both workers take a permit and their jobs
    reach their first suspension; job 0 is resumed and raises; job 1 is
    resumed and suspends again; gather's callback for job 0 has its turn
    and resolves [outer] with the error; job 1 is resumed and suspends
    again; the caller is woken with the error.  Job 1 is two suspensions
    from its end. *)
Lemma run_jobs_raises_before_siblings_finish :
  run_jobs_turns [job_boom 1; job_sleep 5 101] 2
    [Resume 0; Resume 0; Resume 1; Resume 1; Resume 0; Resume 1; Callback;
     Resume 1; Wake]
  = Return {| now := {| sem_value := 1;
                        children := [Done (Raise (Exception "RuntimeError" "boom"));
                                     Running true 2 (job_sleep 5 101)];
                        nfinished := 1;
                        outer := Raised (Exception "RuntimeError" "boom") |};
              callbacks := [];
              delivered := Raised (Exception "RuntimeError" "boom") |}.
Proof. reflexivity. Qed.

(** The sibling is not cancelled: resumed three more times it returns
    its own result, and the caller keeps the error it has. *)
Example run_jobs_sibling_runs_on :
  run_jobs_turns [job_boom 1; job_sleep 5 101] 2
    [Resume 0; Resume 0; Resume 1; Resume 1; Resume 0; Resume 1; Callback;
     Resume 1; Wake; Resume 1; Resume 1; Resume 1; Callback]
  = Return {| now := {| sem_value := 2;
                        children := [Done (Raise (Exception "RuntimeError" "boom"));
                                     Done (Return 101)];
                        nfinished := 2;
                        outer := Raised (Exception "RuntimeError" "boom") |};
              callbacks := [];
              delivered := Raised (Exception "RuntimeError" "boom") |}.
Proof. reflexivity. Qed.

(** Between the failing resumption and the caller's wake-up the callback
    has to have its turn: right after the resumption [outer] is still
    pending. *)
Example run_jobs_failure_waits_for_callback :
  run_jobs_turns [job_boom 0; job_sleep 1 101] 2
    [Resume 0; Resume 1; Resume 0; Wake]
  = Return {| now := {| sem_value := 1;
                        children := [Done (Raise (Exception "RuntimeError" "boom"));
                                     Running true 1 (job_sleep 1 101)];
                        nfinished := 0;
                        outer := Pending |};
              callbacks := [Raise (Exception "RuntimeError" "boom")];
              delivered := Pending |}.
Proof. reflexivity. Qed.

Lemma run_jobs_fail_fast_witness :
  (exists s',
      run_jobs_turns [job_boom 0; job_sleep 1 101] 2
        ([Resume 0; Resume 1] ++ [Resume 0; Callback; Wake]) = Return s'
      /\ delivered s' = Raised (Exception "RuntimeError" "boom")
      /\ children (now s') !! 1 = Some (Running true 1 (job_sleep 1 101)))
  /\ (forall s',
         run_jobs_turns [job_boom 0; job_sleep 1 101] 2
           ([Resume 0; Resume 1]
              ++ Resume 0 :: [Resume 1; Callback; Resume 1] ++ Wake :: [Callback])
         = Return s' ->
         delivered s' = Raised (Exception "RuntimeError" "boom"))
  /\ (exists more e s,
         run_jobs_turns [job_boom 0; job_sleep 1 101] 2
           ([Resume 1; Resume 0; Wake] ++ more) = Return s
         /\ delivered s = Raised e
         /\ children (now s)
            = [Done (Raise (Exception "RuntimeError" "boom")); Done (Return 101)]).
Proof.
  destruct (run_jobs_fail_fast [job_boom 0; job_sleep 1 101] 2)
    as (_ & _ & H3 & H4 & _ & H5 & _).
  { lia. }
  { by left. }
  split; [|split].
  - destruct (H3 [Resume 0; Resume 1] _ 0 true (job_boom 0)
                (Exception "RuntimeError" "boom") eq_refl eq_refl
                ltac:(constructor) eq_refl eq_refl)
      as (s' & Hrun & _ & Hd & Hsib).
    exists s'. split; [exact Hrun|]. split; [exact Hd|].
    exact (Hsib 1 (fun E => O_S 0 (eq_sym E))).
  - intros s' Hs'.
    exact (H4 [Resume 0; Resume 1] _ 0 true (job_boom 0)
              (Exception "RuntimeError" "boom") [Resume 1; Callback; Resume 1]
              [Callback] s' eq_refl eq_refl ltac:(constructor) eq_refl eq_refl
              (le_n 1) Hs').
  - exact (H5 [Resume 1; Resume 0; Wake]).
Defined.

Lemma run_jobs_turns_settle_witness :
  exists s,
    run_jobs_turns [job_boom 0; job_sleep 1 101] 2
      [Resume 0; Resume 1; Resume 0; Wake] = Return s
    /\ run_jobs [job_boom 0; job_sleep 1 101] 2 [0; 1; 0] = Return (settled s)
    /\ outer (now s) = Pending
    /\ outer (settled s) = Raised (Exception "RuntimeError" "boom").
Proof.
  destruct (run_jobs_turns_settle [job_boom 0; job_sleep 1 101] 2) as (_ & H & _).
  destruct (H [Resume 0; Resume 1; Resume 0; Wake]) as (s & Hrun & Hexec & _).
  { lia. }
  exists s. split; [exact Hrun|]. split; [exact Hexec|].
  injection Hrun as <-. split; reflexivity.
Defined.

(** C10 fails below the index range: the list repetition of [chunks]
    refuses a multiplier that does not fit [Py_ssize_t], and
    [batch_gather] raises instead of returning the empty list. *)
Lemma batch_gather_below_index_range_raises :
  batch_gather [job_sleep 1 100; job_sleep 0 101] (-9223372036854775809) [[0; 1; 0]]
  = (Raised (Py.OverflowError "cannot fit 'int' into an index-sized integer"), []).
Proof. reflexivity. Qed.

Lemma batch_gather_nonpositive_batch_size_witness :
  batch_gather [job_sleep 1 100; job_sleep 0 101] 0 [[0; 1; 0]] = (Returned [], [])
  /\ batch_gather [job_sleep 1 100; job_sleep 0 101] (-3) [[0; 1; 0]]
     = (Returned [], [])
  /\ batch_gather [job_sleep 1 100; job_sleep 0 101] (-9223372036854775808) [[0; 1; 0]]
     = (Returned [], [])
  /\ batch_gather [job_sleep 1 100; job_sleep 0 101] (-9223372036854775810) [[0; 1; 0]]
     = (Raised (Py.OverflowError "cannot fit 'int' into an index-sized integer"), []).
Proof.
  split; [|split; [|split]].
  - apply (batch_gather_nonpositive_batch_size
             [job_sleep 1 100; job_sleep 0 101] 0 [[0; 1; 0]]);
      [lia | by vm_compute].
  - apply (batch_gather_nonpositive_batch_size
             [job_sleep 1 100; job_sleep 0 101] (-3) [[0; 1; 0]]);
      [lia | by vm_compute].
  - apply (batch_gather_nonpositive_batch_size
             [job_sleep 1 100; job_sleep 0 101] (-9223372036854775808) [[0; 1; 0]]);
      [lia | by vm_compute].
  - apply (batch_gather_nonpositive_batch_size
             [job_sleep 1 100; job_sleep 0 101] (-9223372036854775810) [[0; 1; 0]]);
      [lia | by vm_compute].
Defined.

(** The default batch size of 10 on three jobs: all three are handed to
    the loop, then the padding stops the call. *)
Example batch_gather_three_jobs_default_size :
  batch_gather [job_sleep 0 100; job_sleep 0 101; job_sleep 0 102] 10 [[0; 1; 2]]
  = (Raised (TypeError "An asyncio.Future, a coroutine or an awaitable is required"),
     [Running false 0 (job_sleep 0 100); Running false 0 (job_sleep 0 101);
      Running false 0 (job_sleep 0 102)]).
Proof. reflexivity. Qed.

(** When the batch size divides the number of jobs there is no padding. *)
Example batch_gather_even_chunks :
  batch_gather [job_sleep 1 100; job_sleep 0 101; job_sleep 0 102; job_sleep 2 103]
               2 [[1; 0; 0]; [0; 1; 1; 1]]
  = (Returned [Return 100; Return 101; Return 102; Return 103],
     [Done (Return 100); Done (Return 101); Done (Return 102); Done (Return 103)]).
Proof. reflexivity. Qed.

Lemma batch_gather_exact_multiple_witness :
  exists scheds,
    (batch_gather [job_sleep 1 100; job_sleep 0 101; job_sleep 0 102; job_sleep 2 103]
                  2 scheds).1
    = Returned [Return 100; Return 101; Return 102; Return 103].
Proof.
  apply (batch_gather_exact_multiple
           [job_sleep 1 100; job_sleep 0 101; job_sleep 0 102; job_sleep 2 103] 2 2);
    [lia | discriminate | by vm_compute | reflexivity | repeat constructor].
Defined.

Lemma batch_gather_ragged_never_returns_witness :
  length [job_sleep 1 100; job_sleep 0 101; job_sleep 0 102] mod Z.to_nat 2 <> 0
  /\ (batch_gather [job_sleep 1 100; job_sleep 0 101; job_sleep 0 102] 2
                   [[0; 1; 0; 1]; [0]]).1
     <> Returned [Return 100; Return 101; Return 102].
Proof.
  split; [vm_compute; lia|].
  apply (batch_gather_ragged_never_returns
           [job_sleep 1 100; job_sleep 0 101; job_sleep 0 102] 2
           [[0; 1; 0; 1]; [0]]);
    [lia | vm_compute; lia].
Defined.

Lemma chunks_padded_witness :
  chunks [1; 2; 3; 4; 5] 2
  = Py.Return [[Some 1; Some 2]; [Some 3; Some 4]; [Some 5; None]]
  /\ chunks [1; 2; 3] 1152921504606846976 = Py.Raise Py.MemoryError
  /\ chunks [1; 2; 3] 9223372036854775808
     = Py.Raise (Py.OverflowError "cannot fit 'int' into an index-sized integer").
Proof.
  split; [|split].
  - destruct (chunks_padded [1; 2; 3; 4; 5] 2) as (_ & Hin & _); [lia|].
    apply Hin. split; by vm_compute.
  - destruct (chunks_padded [1; 2; 3] 1152921504606846976) as (_ & _ & Hmem & _);
      [lia|].
    apply Hmem. split; by vm_compute.
  - destruct (chunks_padded [1; 2; 3] 9223372036854775808) as (_ & _ & _ & Hout);
      [lia|].
    apply Hout. by vm_compute.
Defined.

Lemma chunks_keep_items_witness :
  exists cs,
    chunks [1; 2; 3; 4; 5] 2 = Py.Return cs
    /\ omap id (concat cs) = [1; 2; 3; 4; 5]
    /\ Forall (fun chunk => length chunk = Z.to_nat 2) cs
    /\ length cs = (length [1; 2; 3; 4; 5] + Z.to_nat 2 - 1) / Z.to_nat 2.
Proof.
  destruct (chunks_keep_items [1; 2; 3; 4; 5] 2) as [Hpart Htotal]; [lia|].
  destruct Htotal as [cs Hcs]; [split; by vm_compute|].
  exists cs. split; [done|]. apply (Hpart cs Hcs).
Defined.

Lemma batch_gather_one_chunk_at_a_time_witness :
  exists finished current,
    (batch_gather [job_sleep 1 100; job_sleep 0 101; job_sleep 0 102; job_sleep 2 103]
                  2 [[0; 1; 0; 1; 0]; [1]]).2
    = finished ++ current
    /\ Forall (fun t => is_done t = true) finished
    /\ length current <= Z.to_nat 2
    /\ Forall2 tracks
         (firstn (length (finished ++ current))
                 [job_sleep 1 100; job_sleep 0 101; job_sleep 0 102; job_sleep 2 103])
         (finished ++ current).
Proof.
  apply (batch_gather_one_chunk_at_a_time
           [job_sleep 1 100; job_sleep 0 101; job_sleep 0 102; job_sleep 2 103] 2
           [[0; 1; 0; 1; 0]; [1]]).
  lia.
Defined.

(** The run of the witness above: the first chunk is done, the second is
    under way, nothing of it but its two tasks has been started. *)
Example batch_gather_second_chunk_under_way :
  batch_gather [job_sleep 1 100; job_sleep 0 101; job_sleep 0 102; job_sleep 2 103]
               2 [[0; 1; 0; 1; 0]; [1]]
  = (Pending,
     [Done (Return 100); Done (Return 101);
      Running false 0 (job_sleep 0 102); Running false 1 (job_sleep 2 103)]).
Proof. reflexivity. Qed.

Lemma batch_gather_all_or_error_witness :
  Exists fails [job_sleep 0 100; job_boom 1; job_sleep 0 102; job_sleep 0 103]
  /\ (batch_gather [job_sleep 0 100; job_boom 1; job_sleep 0 102; job_sleep 0 103]
                   2 [[0; 0; 1; 1; 1]; [0; 0; 1; 1]]).1
     <> Returned [Return 100; Return 102; Return 103].
Proof.
  split; [apply Exists_cons_tl, Exists_cons_hd; reflexivity|].
  apply (batch_gather_all_or_error
           [job_sleep 0 100; job_boom 1; job_sleep 0 102; job_sleep 0 103] 2
           [[0; 0; 1; 1; 1]; [0; 0; 1; 1]]);
    [lia | apply Exists_cons_tl, Exists_cons_hd; reflexivity].
Defined.

Lemma run_jobs_round_robin_completes_witness :
  exists l,
    run_jobs [job_sleep 2 100; job_sleep 0 101; job_sleep 1 102] 2
             (round_robin (length [job_sleep 2 100; job_sleep 0 101; job_sleep 1 102]) 9)
    = Return l
    /\ all_done l = true
    /\ outer l <> Pending
    /\ (Forall succeeds [job_sleep 2 100; job_sleep 0 101; job_sleep 1 102] ->
        outer l = Returned (map outcome [job_sleep 2 100; job_sleep 0 101; job_sleep 1 102])).
Proof.
  apply (run_jobs_round_robin_completes
           [job_sleep 2 100; job_sleep 0 101; job_sleep 1 102] 2 9);
    [lia | vm_compute; lia].
Defined.

Lemma asyncio_run_never_reports_nesting_witness :
  asyncio_run is_RuntimeError None (Finished 42) = Finished 42
  /\ (forall loop, loop_is_running loop = true ->
        asyncio_run is_RuntimeError (Some loop) (Finished 42)
        = Exc (Exception "RuntimeError"
                 "asyncio.run() cannot be called from a running event loop"))
  /\ (forall env,
        asyncio_run is_RuntimeError env (Finished 42)
        = Exc (Exception "RuntimeError" nested_async_detected) ->
        Finished 42 = Exc (Exception "RuntimeError" nested_async_detected)).
Proof.
  apply (asyncio_run_never_reports_nesting is_RuntimeError
           (fun msg => eq_refl) (Finished 42)).
Defined.

Lemma run_async_tasks_results_witness :
  exists sched,
    run_async_tasks is_RuntimeError [job_sleep 1 100; job_sleep 0 101] None sched
    = Finished [Return 100; Return 101].
Proof.
  apply (run_async_tasks_results is_RuntimeError (fun msg => eq_refl)
           [job_sleep 1 100; job_sleep 0 101]).
  repeat constructor.
Defined.

Lemma run_jobs_enough_workers_witness :
  exists l,
    run_jobs [job_sleep 2 100; job_sleep 0 101; job_sleep 1 102] 3 [0; 1; 0; 2] = Return l
    /\ forall i t, children l !! i = Some t -> is_done t = false ->
                   exists l', step l i = Some l'.
Proof.
  apply (run_jobs_enough_workers [job_sleep 2 100; job_sleep 0 101; job_sleep 1 102]
           3 [0; 1; 0; 2]).
  simpl; lia.
Defined.

(** ** instrumentation/dispatcher.py *)

Lemma module_route :
  route root_manager module_dispatcher [module_dispatcher; root_dispatcher] (Return tt).
Proof.
  apply route_up with (p := root_dispatcher); [done|vm_compute; done|].
  by apply route_stop.
Qed.

Example event_reaches_tracers_past_faulty_handler :
  event 2 root_manager module_dispatcher (Event "QueryStartEvent" None) no_span
  = Some ({| active_span_id := None;
             log := [("faulty", Handle (Event "QueryStartEvent" None));
                     ("tracer", Handle (Event "QueryStartEvent" None));
                     ("tracer", Handle (Event "QueryStartEvent" None))] |},
          Return tt).
Proof. vm_compute. reflexivity. Qed.

(** C7 fails at a root with propagation on: its handler is told, and the
    walk does not stop there; the lookup of the root's parent raises, and
    the notification ends with that error instead of returning. *)
Lemma event_at_propagating_root :
  event 2 (Manager_init open_root) open_root (Event "QueryStartEvent" None) no_span
  = Some ({| active_span_id := None;
             log := [("tracer", Handle (Event "QueryStartEvent" None))] |},
          Raise (KeyError "")).
Proof. vm_compute. reflexivity. Qed.

Lemma root_manager_dispatchers :
  root_manager
  = <[ "llama_index.core.async_utils" := module_dispatcher ]>
      {[ "root" := root_dispatcher ]}.
Proof. reflexivity. Qed.

Lemma root_manager_is_tree c p :
  propagate c = true -> parent root_manager c = Return p ->
  depth_in_tree p < depth_in_tree c.
Proof.
  intros Hc Hp. unfold depth_in_tree at 2. rewrite Hc.
  unfold parent in Hp. destruct (manager c); [|done].
  destruct (root_manager !! parent_name c) as [q|] eqn:Hq; [|done].
  simplify_eq. rewrite root_manager_dispatchers in Hq.
  unfold Manager in Hq.
  apply lookup_insert_Some in Hq as [[Hk <-]|[Hk Hq]].
  - case_decide as E; [by rewrite <- Hk in E|].
    vm_compute. lia.
  - apply lookup_singleton_Some in Hq as [Hk' <-].
    case_decide; vm_compute; lia.
Qed.

Lemma handler_exceptions_are_swallowed_witness :
  handle faulty_eh [] (Event "QueryStartEvent" None)
  = Some (Exception "RuntimeError" "handler failed")
  /\ notify 2 root_manager module_dispatcher
            (Handle (Event "QueryStartEvent" None)) no_span
     = Some ({| active_span_id := None;
                log := [("faulty", Handle (Event "QueryStartEvent" None));
                        ("tracer", Handle (Event "QueryStartEvent" None));
                        ("tracer", Handle (Event "QueryStartEvent" None))] |},
             Return tt)
  /\ span 2 root_manager module_dispatcher returns_42 None [7] "u1" no_span
     = Some ({| active_span_id := None;
                log := [("faulty", SpanEnter "run_jobs-u1" [7] None None);
                        ("tracer", SpanEnter "run_jobs-u1" [7] None None);
                        ("tracer", SpanEnter "run_jobs-u1" [7] None None);
                        ("faulty", SpanExit "run_jobs-u1" [7] None 42);
                        ("tracer", SpanExit "run_jobs-u1" [7] None 42);
                        ("tracer", SpanExit "run_jobs-u1" [7] None 42)] |},
             Return 42).
Proof.
  split; [reflexivity|].
  destruct (handler_exceptions_are_swallowed 2 root_manager module_dispatcher no_span)
    as (_ & Hn & _ & Hs & _).
  split.
  - exact (Hn _ _ (Handle (Event "QueryStartEvent" None)) module_route
              ltac:(simpl; lia)).
  - exact (Hs [module_dispatcher; root_dispatcher] returns_42 None [7] "u1" _
              (Return 42) module_route ltac:(simpl; lia) eq_refl).
Defined.

Lemma notification_walks_up_parent_chain_witness :
  route root_manager module_dispatcher [module_dispatcher; root_dispatcher]
        (Return tt)
  /\ event 2 root_manager module_dispatcher (Event "QueryStartEvent" None) no_span
     = Some ({| active_span_id := None;
                log := [("faulty", Handle (Event "QueryStartEvent" None));
                        ("tracer", Handle (Event "QueryStartEvent" None));
                        ("tracer", Handle (Event "QueryStartEvent" None))] |},
             Return tt)
  /\ span_enter 2 root_manager module_dispatcher "run_jobs-u1" [7] None None no_span
     = Some ({| active_span_id := None;
                log := [("faulty", SpanEnter "run_jobs-u1" [7] None None);
                        ("tracer", SpanEnter "run_jobs-u1" [7] None None);
                        ("tracer", SpanEnter "run_jobs-u1" [7] None None)] |},
             Return tt).
Proof.
  destruct (notification_walks_up_parent_chain root_manager depth_in_tree
              module_dispatcher no_span root_manager_is_tree)
    as (path & r & Hr & Hn & _ & Hup & _).
  destruct (Hup root_dispatcher eq_refl eq_refl eq_refl) as [rest Hpath].
  destruct (route_functional _ _ _ _ module_route _ _ Hr) as [-> ->].
  split; [exact Hr|].
  destruct (Hn 2 (le_n 2)) as (He & Hen & _).
  split; [exact (He _)|exact (Hen _ _ _ _)].
Defined.

Lemma span_restores_active_span_id_witness :
  (exists st',
      span 2 root_manager module_dispatcher returns_42 None [7] "u1" in_span_outer
      = Some (st', Return 42)
      /\ active_span_id st' = Some "query-0")
  /\ (exists st',
      span 2 root_manager module_dispatcher raises_bad_input None [7] "u2" no_span
      = Some (st', Raise (Exception "ValueError" "bad input"))
      /\ active_span_id st' = None).
Proof.
  split.
  - eapply (span_restores_active_span_id root_manager module_dispatcher
              [module_dispatcher; root_dispatcher] 2 returns_42 None [7] "u1"
              in_span_outer _ (Return 42) module_route).
    + simpl; lia.
    + reflexivity.
  - eapply (span_restores_active_span_id root_manager module_dispatcher
              [module_dispatcher; root_dispatcher] 2 raises_bad_input None [7] "u2"
              no_span _ (Raise (Exception "ValueError" "bad input")) module_route).
    + simpl; lia.
    + reflexivity.
Defined.

Lemma span_single_terminal_transition_witness :
  (exists st',
      decorated 2 root_manager module_dispatcher returns_42 one_argument None [7]
                "u1" no_span
      = Some (st', Return 42)
      /\ span 2 root_manager module_dispatcher returns_42 None [7] "u1" no_span
         = Some (st', Return 42)
      /\ log st'
         = [("faulty", SpanEnter "run_jobs-u1" [7] None None);
            ("tracer", SpanEnter "run_jobs-u1" [7] None None);
            ("tracer", SpanEnter "run_jobs-u1" [7] None None);
            ("faulty", SpanExit "run_jobs-u1" [7] None 42);
            ("tracer", SpanExit "run_jobs-u1" [7] None 42);
            ("tracer", SpanExit "run_jobs-u1" [7] None 42)])
  /\ (exists st',
      decorated 2 root_manager module_dispatcher raises_bad_input one_argument None
                [7] "u2" no_span
      = Some (st', Raise (Exception "ValueError" "bad input"))
      /\ span 2 root_manager module_dispatcher raises_bad_input None [7] "u2" no_span
         = Some (st', Raise (Exception "ValueError" "bad input"))
      /\ log st'
         = [("faulty", SpanEnter "BaseLLM.complete-u2" [7] None None);
            ("tracer", SpanEnter "BaseLLM.complete-u2" [7] None None);
            ("tracer", SpanEnter "BaseLLM.complete-u2" [7] None None);
            ("faulty", Handle (SpanDropEvent "BaseLLM.complete-u2" "bad input"));
            ("tracer", Handle (SpanDropEvent "BaseLLM.complete-u2" "bad input"));
            ("tracer", Handle (SpanDropEvent "BaseLLM.complete-u2" "bad input"));
            ("faulty", SpanDrop "BaseLLM.complete-u2" [7] None
                                (Exception "ValueError" "bad input"));
            ("tracer", SpanDrop "BaseLLM.complete-u2" [7] None
                                (Exception "ValueError" "bad input"));
            ("tracer", SpanDrop "BaseLLM.complete-u2" [7] None
                                (Exception "ValueError" "bad input"))])
  /\ decorated 2 root_manager module_dispatcher returns_42 one_argument None [7; 8]
               "u3" in_span_outer
     = Some (in_span_outer, Raise (TypeError "too many positional arguments")).
Proof.
  split; [|split].
  - eapply (span_single_terminal_transition root_manager module_dispatcher
              [module_dispatcher; root_dispatcher] 2 returns_42 one_argument None
              [7] "u1" no_span
              (entered [module_dispatcher; root_dispatcher] returns_42 None [7]
                       "u1" no_span)
              (Return 42) module_route).
    + simpl; lia.
    + reflexivity.
    + reflexivity.
  - eapply (span_single_terminal_transition root_manager module_dispatcher
              [module_dispatcher; root_dispatcher] 2 raises_bad_input one_argument
              None [7] "u2" no_span
              (entered [module_dispatcher; root_dispatcher] raises_bad_input None
                       [7] "u2" no_span)
              (Raise (Exception "ValueError" "bad input")) module_route).
    + simpl; lia.
    + reflexivity.
    + reflexivity.
  - eapply (span_single_terminal_transition root_manager module_dispatcher
              [module_dispatcher; root_dispatcher] 2 returns_42 one_argument None
              [7; 8] "u3" in_span_outer
              (entered [module_dispatcher; root_dispatcher] returns_42 None [7; 8]
                       "u3" in_span_outer)
              (Return 42) module_route).
    + simpl; lia.
    + reflexivity.
    + reflexivity.
Defined.

(** C8 fails where the walk cannot be completed.  The walk of a
    propagating root ends in the failed lookup of its parent, so
    [span_enter] itself raises, before the [try]: the call is left by an
    exception and the active span id, unset before, stays set to the new
    span's id. *)
Lemma span_on_propagating_root :
  span 2 (Manager_init open_root) open_root returns_42 None [7] "u1" no_span
  = Some ({| active_span_id := Some "run_jobs-u1";
             log := [("tracer", SpanEnter "run_jobs-u1" [7] None None)] |},
          Raise (KeyError "")).
Proof. vm_compute. reflexivity. Qed.

(** C9 fails where the walk cannot be completed.  On a dispatcher without
    a manager the span handler is told that the span is entered, then the
    lookup of the parent raises: the operation is not called and the
    handler hears of no exit, no drop and no drop event for that span. *)
Lemma span_on_unmanaged_dispatcher :
  span 2 (Manager_init unmanaged_dispatcher) unmanaged_dispatcher
       raises_bad_input None [7] "u2" no_span
  = Some ({| active_span_id := Some "BaseLLM.complete-u2";
             log := [("tracer", SpanEnter "BaseLLM.complete-u2" [7] None None)] |},
          Raise (AttributeError "'NoneType' object has no attribute 'dispatchers'")).
Proof. vm_compute. reflexivity. Qed.

(** [str] of a [KeyError] is the [repr] of its key, quotes and escapes
    included; that is the text a [SpanDropEvent] carries. *)
Example str_of_key_error :
  Py.str (KeyError "missing") = "'missing'"
  /\ Py.str (KeyError "") = "''"
  /\ Py.str (KeyError "a\b") = "'a\\b'"
  /\ Py.str (ValueError "bad input") = "bad input".
Proof. repeat split. Qed.

Example span_drop_event_of_key_error :
  span 1 root_manager root_dispatcher raises_key_error None [] "k" no_span
  = Some ({| active_span_id := None;
             log := [("tracer", SpanEnter "lookup-k" [] None None);
                     ("tracer", Handle (SpanDropEvent "lookup-k" "'missing'"));
                     ("tracer", SpanDrop "lookup-k" [] None (KeyError "missing"))] |},
          Raise (KeyError "missing")).
Proof. vm_compute. reflexivity. Qed.

Example nested_spans_link_to_their_callers :
  span 1 root_manager root_dispatcher op_A None [] "a" no_span
  = Some ({| active_span_id := None;
             log := [("tracer", SpanEnter "A-a" [] None None);
                     ("tracer", SpanEnter "B-b" [] None (Some "A-a"));
                     ("tracer", SpanEnter "C-c" [] None (Some "B-b"));
                     ("tracer", SpanExit "C-c" [] None 3);
                     ("tracer", SpanExit "B-b" [] None 3);
                     ("tracer", SpanExit "A-a" [] None 3)] |},
          Return 3).
Proof. vm_compute. reflexivity. Qed.

Lemma notification_only_along_route_witness :
  exists path,
    route root_manager module_dispatcher path (Return tt) /\ length path <= 2.
Proof.
  destruct (notification_only_along_route root_manager module_dispatcher 2
              (Handle (Event "QueryStartEvent" None)) no_span _ _
              event_reaches_tracers_past_faulty_handler)
    as (path & Hr & Hl & _).
  by exists path.
Defined.

Lemma self_parent_trapped (c : Dispatcher nat) :
  c = self_parent ->
  propagate c = true
  /\ exists p, parent (Manager_init self_parent) c = Return p /\ p = self_parent.
Proof. intros ->. split; [done|]. by exists self_parent. Qed.

Lemma cyclic_parent_chain_never_returns_witness :
  event 1000 (Manager_init self_parent) self_parent (Event "QueryStartEvent" None)
        no_span = None
  /\ span 1000 (Manager_init self_parent) self_parent returns_42 None [7] "u1"
          no_span = None.
Proof.
  destruct (cyclic_parent_chain_never_returns (Manager_init self_parent)
              (fun c => c = self_parent) self_parent self_parent_trapped eq_refl
              1000 no_span) as [Hn Hs].
  split; [apply (Hn (Handle (Event "QueryStartEvent" None)))|apply Hs].
Defined.

Lemma unmanaged_route :
  route (Manager_init unmanaged_dispatcher) unmanaged_dispatcher
        [unmanaged_dispatcher]
        (Raise (AttributeError "'NoneType' object has no attribute 'dispatchers'")).
Proof. by apply route_root. Qed.

Lemma span_on_failing_walk_witness :
  span 1 (Manager_init unmanaged_dispatcher) unmanaged_dispatcher
       returns_42 None [7] "u1" in_span_outer
  = Some ({| active_span_id := Some "run_jobs-u1";
             log := [("tracer", SpanEnter "run_jobs-u1" [7] None (Some "query-0"))] |},
          Raise (AttributeError "'NoneType' object has no attribute 'dispatchers'")).
Proof.
  apply (span_on_failing_walk (Manager_init unmanaged_dispatcher)
           unmanaged_dispatcher [unmanaged_dispatcher] _ 1 returns_42 None [7] "u1"
           in_span_outer unmanaged_route).
  simpl; lia.
Defined.

Lemma root_route : route root_manager root_dispatcher [root_dispatcher] (Return tt).
Proof. by apply route_stop. Qed.

Lemma nested_spans_witness :
  log (entered [root_dispatcher] op_C None [] "c"
               (entered [module_dispatcher; root_dispatcher] op_B None [7] "b" no_span))
  = [("faulty", SpanEnter "B-b" [7] None None);
     ("tracer", SpanEnter "B-b" [7] None None);
     ("tracer", SpanEnter "B-b" [7] None None);
     ("tracer", SpanEnter "C-c" [] None (Some "B-b"))]
  /\ span 2 root_manager module_dispatcher op_B None [7] "b" no_span
     = Some ({| active_span_id := None;
                log := [("faulty", SpanEnter "B-b" [7] None None);
                        ("tracer", SpanEnter "B-b" [7] None None);
                        ("tracer", SpanEnter "B-b" [7] None None);
                        ("tracer", SpanEnter "C-c" [] None (Some "B-b"));
                        ("tracer", SpanExit "C-c" [] None 3);
                        ("faulty", SpanExit "B-b" [7] None 3);
                        ("tracer", SpanExit "B-b" [7] None 3);
                        ("tracer", SpanExit "B-b" [7] None 3)] |},
             Return 3).
Proof.
  destruct (nested_spans root_manager module_dispatcher
              [module_dispatcher; root_dispatcher]
              root_manager root_dispatcher [root_dispatcher] 2 1
              op_B op_C None None [7] [] "b" "c" no_span
              (entered [root_dispatcher] op_C None [] "c"
                 (entered [module_dispatcher; root_dispatcher] op_B None [7] "b" no_span))
              (Return 3))
    as (Hlog & _ & Hspan).
  - intros a st1. reflexivity.
  - exact module_route.
  - simpl; lia.
  - exact root_route.
  - simpl; lia.
  - reflexivity.
  - split; [exact Hlog|exact Hspan].
Defined.

Lemma root_manager_keyed : keyed_by_name root_manager.
Proof. apply (DispatcherTheory.registry_keyed root_dispatcher [module_dispatcher]). Qed.

Lemma added_handler_reaches_descendants_witness :
  event 2 (in_place (fun d => add_event_handler d audit_eh) "root" root_manager)
        module_dispatcher (Event "QueryStartEvent" None) no_span
  = Some ({| active_span_id := None;
             log := [("faulty", Handle (Event "QueryStartEvent" None));
                     ("tracer", Handle (Event "QueryStartEvent" None));
                     ("tracer", Handle (Event "QueryStartEvent" None));
                     ("audit", Handle (Event "QueryStartEvent" None))] |},
          Return tt).
Proof.
  destruct (added_handler_reaches_descendants root_manager "root" module_dispatcher
              [module_dispatcher; root_dispatcher] (Return tt) 2
              (Handle (Event "QueryStartEvent" None)) no_span
              root_manager_keyed eq_refl module_route) as [He _].
  - simpl; lia.
  - exact (He audit_eh).
Defined.

(** A second registration under the name of the root leaves the root where
    it is. *)
Example open_root_cannot_replace_root :
  add_dispatcher root_manager open_root = root_manager.
Proof. reflexivity. Qed.

End Examples.

(** * The decorated run_jobs on concrete jobs *)
Module TracedExamples.
Import AsyncUtils Dispatcher Traced TracedTheory Fixtures.

Lemma async_utils_route :
  route (Manager_init async_utils_dispatcher) async_utils_dispatcher
        [async_utils_dispatcher] (Return tt).
Proof. by apply route_stop. Qed.

Lemma traced_run_jobs_transparent_witness :
  exists s0,
    traced_run_jobs 1 (Manager_init async_utils_dispatcher) async_utils_dispatcher
                    [VJobs [job_sleep 1 100; job_boom 0]; VBool false; VInt 2] "u0"
                    [job_sleep 1 100; job_boom 0] 2 in_query
    = Awaiting s0
    /\ forall ticks,
        exists s,
          run 1 (Manager_init async_utils_dispatcher) async_utils_dispatcher
              [VJobs [job_sleep 1 100; job_boom 0]; VBool false; VInt 2] "u0"
              worker_uuids ticks s0 = Some s
          /\ run_jobs [job_sleep 1 100; job_boom 0] 2 (child_ticks ticks)
             = Py.Return (loop s)
          /\ (as_outer (came_back s) = Pending
              \/ as_outer (came_back s) = outer (loop s))
          /\ exists s',
              run 1 (Manager_init async_utils_dispatcher) async_utils_dispatcher
                  [VJobs [job_sleep 1 100; job_boom 0]; VBool false; VInt 2] "u0"
                  worker_uuids (ticks ++ [Parent]) s0 = Some s'
              /\ loop s' = loop s
              /\ as_outer (came_back s') = outer (loop s).
Proof.
  apply (traced_run_jobs_transparent 1 (Manager_init async_utils_dispatcher)
           async_utils_dispatcher
           [VJobs [job_sleep 1 100; job_boom 0]; VBool false; VInt 2] "u0"
           worker_uuids [async_utils_dispatcher] async_utils_route);
    [simpl; lia | lia | done].
Defined.

Lemma traced_run_jobs_span_tree_witness :
  exists s0,
    traced_run_jobs 1 (Manager_init async_utils_dispatcher) async_utils_dispatcher
                    [VJobs [job_sleep 1 100; job_boom 0]; VBool false; VInt 2] "u0"
                    [job_sleep 1 100; job_boom 0] 2 in_query
    = Awaiting s0
    /\ forall ticks,
        exists s extra,
          run 1 (Manager_init async_utils_dispatcher) async_utils_dispatcher
              [VJobs [job_sleep 1 100; job_boom 0]; VBool false; VInt 2] "u0"
              worker_uuids ticks s0 = Some s
          /\ log (ctx s)
             = log in_query
               ++ heard (SpanEnter (run_jobs_id "u0")
                           [VJobs [job_sleep 1 100; job_boom 0]; VBool false; VInt 2]
                           None (active_span_id in_query))
                        [async_utils_dispatcher]
               ++ extra
          /\ (forall id_ args parent_id,
                 In (id_, args, parent_id) (spans_entered extra) ->
                 id_ <> run_jobs_id "u0"
                 /\ forall i,
                     id_ = worker_id worker_uuids i ->
                     parent_id = Some (run_jobs_id "u0")
                     /\ exists i' job,
                         [job_sleep 1 100; job_boom 0] !! i' = Some job
                         /\ worker_uuids i' = worker_uuids i
                         /\ args = [VJob job])
          /\ active_span_id (ctx s)
             = match came_back s with
               | Some _ => active_span_id in_query
               | None => Some (run_jobs_id "u0")
               end.
Proof.
  apply (traced_run_jobs_span_tree 1 (Manager_init async_utils_dispatcher)
           async_utils_dispatcher
           [VJobs [job_sleep 1 100; job_boom 0]; VBool false; VInt 2] "u0"
           worker_uuids [async_utils_dispatcher] async_utils_route);
    [simpl; lia | lia | done].
Defined.

Lemma traced_run_jobs_without_tasks_witness :
  exists r,
    as_outer (Some r) = awaited (run_jobs [job_sleep 1 100; job_boom 0] (-1) [])
    /\ traced_run_jobs 1 (Manager_init async_utils_dispatcher) async_utils_dispatcher
                       [VJobs [job_sleep 1 100; job_boom 0]; VBool false; VInt (-1)]
                       "u0" [job_sleep 1 100; job_boom 0] (-1) in_query
       = Completed
           {| active_span_id := active_span_id in_query;
              log := log in_query
                     ++ heard (SpanEnter (run_jobs_id "u0")
                                 [VJobs [job_sleep 1 100; job_boom 0]; VBool false;
                                  VInt (-1)]
                                 None (active_span_id in_query))
                              [async_utils_dispatcher]
                     ++ closing VResults [async_utils_dispatcher] (run_jobs_id "u0")
                          [VJobs [job_sleep 1 100; job_boom 0]; VBool false; VInt (-1)]
                          r |}
           r.
Proof.
  apply (traced_run_jobs_without_tasks 1 (Manager_init async_utils_dispatcher)
           async_utils_dispatcher
           [VJobs [job_sleep 1 100; job_boom 0]; VBool false; VInt (-1)] "u0"
           [async_utils_dispatcher] async_utils_route);
    [simpl; lia | left; lia].
Defined.

Lemma tally_fresh i : forall j, tally i = tally j -> i = j.
Proof.
  induction i as [|i IH]; intros [|j]; simpl; intros H; simplify_eq; try done.
  f_equal. by apply IH.
Qed.

Lemma traced_run_jobs_spans_closed_once_witness :
  exists s0,
    traced_run_jobs 1 (Manager_init async_utils_dispatcher) async_utils_dispatcher
                    [VJobs [job_sleep 1 100; job_boom 0]; VBool false; VInt 2] "u0"
                    [job_sleep 1 100; job_boom 0] 2 in_query
    = Awaiting s0
    /\ forall ticks,
        exists s new,
          run 1 (Manager_init async_utils_dispatcher) async_utils_dispatcher
              [VJobs [job_sleep 1 100; job_boom 0]; VBool false; VInt 2] "u0"
              tally ticks s0 = Some s
          /\ log (ctx s) = log in_query ++ new
          /\ about (run_jobs_id "u0") new
             = run_jobs_heard
                 [VJobs [job_sleep 1 100; job_boom 0]; VBool false; VInt 2] "u0"
                 [async_utils_dispatcher] in_query s
          /\ forall i job,
              [job_sleep 1 100; job_boom 0] !! i = Some job ->
              about (worker_id tally i) new
              = worker_heard "u0" tally [async_utils_dispatcher] i job s.
Proof.
  apply (traced_run_jobs_spans_closed_once 1 (Manager_init async_utils_dispatcher)
           async_utils_dispatcher
           [VJobs [job_sleep 1 100; job_boom 0]; VBool false; VInt 2] "u0"
           tally [async_utils_dispatcher] async_utils_route);
    [simpl; lia | exact tally_fresh | lia | done].
Defined.

(** A negative worker count, as the handlers see it. *)
Example negative_workers_drop_the_span :
  traced_run_jobs 1 (Manager_init async_utils_dispatcher) async_utils_dispatcher
                  [VInt (-1)] "u0" [job_sleep 1 100; job_boom 0] (-1) in_query
  = Completed
      {| active_span_id := Some "query-0";
         log := [("tracer", SpanEnter "run_jobs-u0" [VInt (-1)] None (Some "query-0"));
                 ("events", Handle (SpanDropEvent "run_jobs-u0"
                                      "Semaphore initial value must be >= 0"));
                 ("tracer", SpanDrop "run_jobs-u0" [VInt (-1)] None
                              (Py.ValueError "Semaphore initial value must be >= 0"))] |}
      (Py.Raise (Py.ValueError "Semaphore initial value must be >= 0")).
Proof. reflexivity. Qed.

(** Fail-fast, as the handlers see it: job 1 raises while job 0 sleeps.
    The span of [run_jobs] is dropped when the caller is resumed; the
    worker of job 0 goes on and its span exits afterwards. *)
Example worker_span_outlives_run_jobs_span :
  match traced_run_jobs 1 (Manager_init async_utils_dispatcher) async_utils_dispatcher
          [] "u0" [job_sleep 1 100; job_boom 0] 2 in_query with
  | Awaiting s0 =>
      option_map (fun s => (log (ctx s), active_span_id (ctx s), came_back s))
        (run 1 (Manager_init async_utils_dispatcher) async_utils_dispatcher
             [] "u0" worker_uuids
             [Child 0; Child 1; Child 1; Parent; Child 0; Child 0] s0)
  | _ => None
  end
  = Some ([("tracer", SpanEnter "run_jobs-u0" [] None (Some "query-0"));
           ("tracer", SpanEnter "run_jobs.<locals>.worker-w0"
                        [VJob (job_sleep 1 100)] None (Some "run_jobs-u0"));
           ("tracer", SpanEnter "run_jobs.<locals>.worker-w1"
                        [VJob (job_boom 0)] None (Some "run_jobs-u0"));
           ("events", Handle (SpanDropEvent "run_jobs.<locals>.worker-w1" "boom"));
           ("tracer", SpanDrop "run_jobs.<locals>.worker-w1" [VJob (job_boom 0)] None
                        (Py.Exception "RuntimeError" "boom"));
           ("events", Handle (SpanDropEvent "run_jobs-u0" "boom"));
           ("tracer", SpanDrop "run_jobs-u0" [] None
                        (Py.Exception "RuntimeError" "boom"));
           ("tracer", SpanExit "run_jobs.<locals>.worker-w0"
                        [VJob (job_sleep 1 100)] None (VResult 100))],
          Some "query-0",
          Some (Py.Raise (Py.Exception "RuntimeError" "boom"))).
Proof. reflexivity. Qed.

End TracedExamples.
